(** * browser-js: the element indexing and targeting engine

    A shallow embedding of the in-page scanning script [ELEMENTS_JS] of
    [scripts/browser.js] (shadow-piercing walker, classifier, modal-scope
    resolver, stamping) and of the commands built on it ([ensureIndexed],
    [cmdClick], [cmdType]), with the properties the specification states
    about them; further on, of the text and elements commands, of the
    protocol session and of the tab commands, with properties read off
    the code.

    Conventions of the embedding:
    - a JavaScript string is the list of its UTF-16 code units ([jsstr]);
    - a DOM element is a tree node carrying the attributes and the
      reflected properties the scripts read; object identity is [nid];
    - an attribute table is a finite map from attribute names to values;
    - the [Set] of de-duplication keys is a finite set of strings;
    - a command runs in a small state monad over the debugging session
      (the live page and the log of protocol commands sent). *)

From Stdlib Require Import String Ascii QArith_base.
From stdpp Require Import base option list gmap strings numbers.

Local Open Scope N_scope.

(** ** JavaScript strings *)

Module JS.

(** A string is its sequence of UTF-16 code units. *)
Definition jsstr := list N.

(** An ASCII literal of the source. *)
Definition lit (s : string) : jsstr :=
  (λ a, N_of_ascii a) <$> list_ascii_of_string s.

Definition streq (a b : jsstr) : bool := bool_decide (a = b).

(** Truthiness of a string: the empty string is falsy. *)
Definition truthy (s : jsstr) : bool :=
  match s with [] => false | _ => true end.

(** [a || b] on strings. *)
Definition or_else (a b : jsstr) : jsstr := if truthy a then a else b.

(** ECMAScript WhiteSpace and LineTerminator code units: what
    [String.prototype.trim] strips and what the regular expression
    class [\s] matches. *)
Definition isWhite (c : N) : bool :=
  ((9 <=? c) && (c <=? 13)) || (c =? 32) || (c =? 160) || (c =? 5760)
  || ((8192 <=? c) && (c <=? 8202)) || (c =? 8232) || (c =? 8233)
  || (c =? 8239) || (c =? 8287) || (c =? 12288) || (c =? 65279).

Fixpoint trimStart (s : jsstr) : jsstr :=
  match s with
  | c :: s' => if isWhite c then trimStart s' else s
  | [] => []
  end.

Definition trimEnd (s : jsstr) : jsstr := rev (trimStart (rev s)).

Definition trim (s : jsstr) : jsstr := trimEnd (trimStart s).

(** [s.slice(0, n)]. *)
Definition slice0 (n : nat) (s : jsstr) : jsstr := take n s.

(** [s.replace(/\s+/g, ' ')]: every maximal run of white space becomes
    one space; [inRun] records that the previous unit was white. *)
Fixpoint collapseFrom (inRun : bool) (s : jsstr) : jsstr :=
  match s with
  | [] => []
  | c :: s' =>
      if isWhite c
      then (if inRun then collapseFrom true s' else 32 :: collapseFrom true s')
      else c :: collapseFrom false s'
  end.

Definition collapseWhite (s : jsstr) : jsstr := collapseFrom false s.

Fixpoint startsWith (s p : jsstr) : bool :=
  match p, s with
  | [], _ => true
  | a :: p', b :: s' => (a =? b) && startsWith s' p'
  | _ :: _, [] => false
  end.

(** [s.includes(p)]. *)
Fixpoint includes (s p : jsstr) : bool :=
  startsWith s p ||
  match s with
  | [] => false
  | _ :: s' => includes s' p
  end.

(** [s.toLowerCase()] on the ASCII letters (tag names are ASCII). *)
Definition toLowerCase (s : jsstr) : jsstr :=
  (λ c, if (65 <=? c) && (c <=? 90) then c + 32 else c) <$> s.

(** [String(n)] for a non-negative integer: its decimal digits. *)
Definition digit (d : nat) : N := 48 + N.of_nat d.

Fixpoint decimalFuel (fuel n : nat) (acc : jsstr) : jsstr :=
  match fuel with
  | O => acc
  | S fuel' =>
      let acc' := digit (n mod 10) :: acc in
      if (n <? 10)%nat then acc' else decimalFuel fuel' (n / 10) acc'
  end.

Definition ofNat (n : nat) : jsstr := decimalFuel (S n) n [].

Arguments lit : simpl never.
Arguments ofNat : simpl never.

End JS.
Export JS.

(** ** The DOM as the scanning script sees it *)

Module Dom.

(** The attributes and reflected properties of one element.  A property
    the scripts read as [el.p || ''] is the string that expression
    yields (an undefined property reads as the empty string); the one
    element on which such a property is an object, the SVG anchor with
    its [href], is dealt with in [Guarded]. *)
Record Element := {
  nid : nat;                          (* object identity *)
  tagName : jsstr;                    (* upper case for HTML elements *)
  attributes : gmap string jsstr;
  el_disabled : bool;                 (* el.disabled *)
  el_type : jsstr;                    (* el.type *)
  el_placeholder : jsstr;             (* el.placeholder *)
  el_href : jsstr;                    (* el.href, resolved *)
  el_name : jsstr;                    (* el.name *)
  el_value : jsstr;                   (* el.value *)
  isContentEditable : bool;
  offsetParent : option nat;          (* None is null: no rendered box *)
  position : jsstr                    (* getComputedStyle(el).position *)
}.

(** An element node with its child nodes (text or element) and, when it
    hosts an open shadow tree, the children of its shadow root. *)
#[local] Unset Elimination Schemes.
Inductive Node :=
| Elem (props : Element)
       (childNodes : list (jsstr + Node))
       (shadowRoot : option (list (jsstr + Node))).
#[local] Set Elimination Schemes.

Abbreviation Child := (jsstr + Node)%type.

Definition props (n : Node) : Element := let 'Elem e _ _ := n in e.
Definition childNodes (n : Node) : list Child := let 'Elem _ k _ := n in k.
Definition shadowRoot (n : Node) : option (list Child) :=
  let 'Elem _ _ s := n in s.

(** Apply [f] to a child when it is an element. *)
Definition onElem {B} (f : Node → list B) (c : Child) : list B :=
  match c with inl _ => [] | inr n => f n end.

Definition getAttribute (e : Element) (a : string) : option jsstr :=
  attributes e !! a.

(** [el.getAttribute(a) || ''] *)
Definition attrOr (e : Element) (a : string) : jsstr :=
  match getAttribute e a with Some v => v | None => [] end.

(** [el.getAttribute(a) === v] *)
Definition attrIs (e : Element) (a : string) (v : jsstr) : bool :=
  bool_decide (getAttribute e a = Some v).

Definition setAttribute (a : string) (v : jsstr) (e : Element) : Element :=
  {| nid := nid e; tagName := tagName e;
     attributes := <[a := v]> (attributes e);
     el_disabled := el_disabled e; el_type := el_type e;
     el_placeholder := el_placeholder e; el_href := el_href e;
     el_name := el_name e; el_value := el_value e;
     isContentEditable := isContentEditable e;
     offsetParent := offsetParent e; position := position e |}.

Definition removeAttribute (a : string) (e : Element) : Element :=
  {| nid := nid e; tagName := tagName e;
     attributes := delete a (attributes e);
     el_disabled := el_disabled e; el_type := el_type e;
     el_placeholder := el_placeholder e; el_href := el_href e;
     el_name := el_name e; el_value := el_value e;
     isContentEditable := isContentEditable e;
     offsetParent := offsetParent e; position := position e |}.

(** [el.value = v] *)
Definition setValue (v : jsstr) (e : Element) : Element :=
  {| nid := nid e; tagName := tagName e; attributes := attributes e;
     el_disabled := el_disabled e; el_type := el_type e;
     el_placeholder := el_placeholder e; el_href := el_href e;
     el_name := el_name e; el_value := v;
     isContentEditable := isContentEditable e;
     offsetParent := offsetParent e; position := position e |}.

(** The same tree with [f] applied to every element, in the node's own
    tree and in every shadow tree under it. *)
Fixpoint mapNode (f : Element → Element) (n : Node) : Node :=
  match n with
  | Elem e kids sh =>
      let mapChild (c : Child) : Child :=
        match c with inl t => inl t | inr k => inr (mapNode f k) end in
      Elem (f e)
           (List.map mapChild kids)
           (match sh with
            | Some s => Some (List.map mapChild s)
            | None => None
            end)
  end.

Definition mapChild (f : Element → Element) (c : Child) : Child :=
  match c with inl t => inl t | inr k => inr (mapNode f k) end.

(** An update aimed at the one element whose identity is [id]. *)
Definition forElement (id : nat) (f : Element → Element) (e : Element) : Element :=
  if bool_decide (nid e = id) then f e else e.

(** [node.textContent]: the text of the node's own tree, in document
    order; the content of a shadow tree is not part of it. *)
Fixpoint textContent (n : Node) : jsstr :=
  match n with
  | Elem _ kids _ =>
      flat_map (λ c, match c with inl t => t | inr k => textContent k end) kids
  end.

(** The node and its descendants in its own tree, in document order,
    each with the chain of its ancestor elements (nearest first). *)
Fixpoint subtree (ancs : list Element) (n : Node) : list (list Element * Node) :=
  match n with
  | Elem e kids _ =>
      (ancs, n) :: flat_map (onElem (subtree (e :: ancs))) kids
  end.

(** [a.contains(b)]: [b] is [a] or a descendant of [a] in [a]'s own
    tree (a shadow tree under [a] is a different tree). *)
Definition contains (a b : Node) : bool :=
  bool_decide (nid (props b) ∈ (nid ∘ props ∘ snd) <$> subtree [] a).

(** *** Selectors

    The fragment of CSS the script's own selectors are written in:
    type, attribute-presence and attribute-value selectors, [:not()],
    compounds, the child and descendant combinators, selector lists. *)
Inductive Simple :=
| Universal
| Tag (t : jsstr)
| HasAttr (a : string)
| AttrEq (a : string) (v : jsstr)
| Not (s : Simple).

Inductive Combinator := ChildOf | DescendantOf.

Definition Compound := list Simple.

(** A complex selector, subject first, then the chain towards the root. *)
Definition Complex := (Compound * list (Combinator * Compound))%type.

Definition Selector := list Complex.

Fixpoint matchSimple (s : Simple) (e : Element) : bool :=
  match s with
  | Universal => true
  | Tag t => streq (toLowerCase (tagName e)) t
  | HasAttr a => bool_decide (is_Some (getAttribute e a))
  | AttrEq a v => attrIs e a v
  | Not s' => negb (matchSimple s' e)
  end.

Definition matchCompound (c : Compound) (e : Element) : bool :=
  forallb (λ s, matchSimple s e) c.

Fixpoint matchChain (chain : list (Combinator * Compound))
                    (ancs : list Element) : bool :=
  match chain with
  | [] => true
  | (ChildOf, c) :: rest =>
      match ancs with
      | p :: ancs' => matchCompound c p && matchChain rest ancs'
      | [] => false
      end
  | (DescendantOf, c) :: rest =>
      (fix up (l : list Element) : bool :=
         match l with
         | [] => false
         | p :: l' => (matchCompound c p && matchChain rest l') || up l'
         end) ancs
  end.

Definition matchComplex (x : Complex) (ancs : list Element) (e : Element) : bool :=
  matchCompound (fst x) e && matchChain (snd x) ancs.

(** [el.matches(sel)] for an element with ancestor chain [ancs]. *)
Definition matches (sel : Selector) (ancs : list Element) (e : Element) : bool :=
  existsb (λ x, matchComplex x ancs e) sel.

(** *** Query roots

    [querySelectorAll] is called on the document, on a shadow root
    (both are a list of children without an element of their own) and
    on an element, whose ancestors still take part in matching. *)
Inductive Root :=
| Fragment (kids : list Child)
| Within (ancs : list Element) (n : Node).

(** [root.querySelectorAll('*')] with ancestor chains: the descendants
    of the root, never the root itself. *)
Definition descendants (r : Root) : list (list Element * Node) :=
  match r with
  | Fragment kids => flat_map (onElem (subtree [])) kids
  | Within ancs (Elem e kids _) => flat_map (onElem (subtree (e :: ancs))) kids
  end.

Definition selects (sel : Selector) (cn : list Element * Node) : bool :=
  matches sel (fst cn) (props (snd cn)).

Definition querySelectorAllCtx (r : Root) (sel : Selector)
  : list (list Element * Node) :=
  List.filter (selects sel) (descendants r).

Definition querySelectorAll (r : Root) (sel : Selector) : list Node :=
  snd <$> querySelectorAllCtx r sel.

Definition querySelectorCtx (r : Root) (sel : Selector)
  : option (list Element * Node) :=
  head (querySelectorAllCtx r sel).

Definition querySelector (r : Root) (sel : Selector) : option Node :=
  head (querySelectorAll r sel).

(** *** Induction on DOM trees

    The induction hypothesis holds for every element child and for
    every element child of the shadow root. *)
Section NodeInduction.

Variable P : Node → Prop.

Definition onChild (c : Child) : Prop :=
  match c with inl _ => True | inr k => P k end.

Definition onChildren (l : list Child) : Prop := Forall onChild l.

Hypothesis step : ∀ e kids sh,
  onChildren kids →
  match sh with Some s => onChildren s | None => True end →
  P (Elem e kids sh).

Fixpoint Node_ind (n : Node) : P n :=
  match n with
  | Elem e kids sh =>
      let children :=
        fix go (l : list Child) : onChildren l :=
          match l with
          | [] => Forall_nil onChild
          | c :: l' =>
              Forall_cons onChild c l'
                (match c return onChild c with
                 | inl _ => I
                 | inr k => Node_ind k
                 end)
                (go l')
          end in
      step e kids sh (children kids)
        (match sh return match sh with Some s => onChildren s | None => True end with
         | Some s => children s
         | None => I
         end)
  end.

End NodeInduction.

End Dom.
Export Dom.

(** ** The scanning script, [ELEMENTS_JS] *)

Module Scan.

Definition stampAttr : string := "data-bjs-idx".

(** The live page: the children of the document and whether
    [window.__bjsDeepQuery] has been installed in this window. *)
Record Page := {
  document : list Child;
  bjsDeepQuery : bool
}.

(** First defined result of [f] along a list, in order. *)
Definition firstSome {A B} (f : A → option B) : list A → option B :=
  fix go l :=
    match l with
    | [] => None
    | x :: l' => match f x with Some y => Some y | None => go l' end
    end.

Definition onElemOpt {B} (f : Node → option B) (c : Child) : option B :=
  match c with inl _ => None | inr n => f n end.

Definition kidsOf (r : Root) : list Child :=
  match r with
  | Fragment kids => kids
  | Within _ n => childNodes n
  end.

(** *** deepClearStamps *)

(** [deepClearStamps(document)]: every element of the document and of
    every shadow tree nested in it loses its stamp ([removeAttribute]
    leaves an element without the attribute as it is). *)
Definition deepClearStamps (doc : list Child) : list Child :=
  List.map (mapChild (removeAttribute stampAttr)) doc.

(** *** deepQueryAll *)

(** The [for (const el of allEls)] loop of [deepQueryAll] restricted to
    [n] and its descendants: for each element with a shadow root, in
    document order, the whole of [deepQueryAll(el.shadowRoot)]. *)
Fixpoint shadowQueryAll (sel : Selector) (n : Node) : list Node :=
  match n with
  | Elem _ kids sh =>
      match sh with
      | Some s =>
          querySelectorAll (Fragment s) sel
            ++ flat_map (onElem (shadowQueryAll sel)) s
      | None => []
      end ++ flat_map (onElem (shadowQueryAll sel)) kids
  end.

(** Here the engine takes every [push(...)] of the walker; the walker
    with its [try], its [catch] and the RangeError of a refused spread
    is [Guarded.deepQueryAll]. *)
Definition deepQueryAll (root : Root) (sel : Selector) : list Node :=
  querySelectorAll root sel
    ++ flat_map (onElem (shadowQueryAll sel)) (kidsOf root).

(** *** deepQueryStamp *)

Definition stampSelector (idx : nat) : Selector :=
  [([AttrEq stampAttr (ofNat idx)], [])].

Fixpoint shadowQueryStamp (idx : nat) (n : Node) : option Node :=
  match n with
  | Elem _ kids sh =>
      match
        match sh with
        | Some s =>
            match querySelector (Fragment s) (stampSelector idx) with
            | Some found => Some found
            | None => firstSome (onElemOpt (shadowQueryStamp idx)) s
            end
        | None => None
        end
      with
      | Some deep => Some deep
      | None => firstSome (onElemOpt (shadowQueryStamp idx)) kids
      end
  end.

Definition deepQueryStamp (root : Root) (idx : nat) : option Node :=
  match querySelector root (stampSelector idx) with
  | Some found => Some found
  | None => firstSome (onElemOpt (shadowQueryStamp idx)) (kidsOf root)
  end.

(** *** The selectors of the script *)

Definition tagSel (t : string) : Complex := ([Tag (lit t)], []).
Definition roleSel (r : string) : Complex := ([AttrEq "role" (lit r)], []).

Definition interactiveSelectors : Selector :=
  [ ([Tag (lit "a"); HasAttr "href"], []);
    tagSel "button"; tagSel "input"; tagSel "select"; tagSel "textarea";
    roleSel "button"; roleSel "link"; roleSel "tab"; roleSel "menuitem";
    roleSel "checkbox"; roleSel "radio"; roleSel "textbox";
    ([HasAttr "onclick"], []);
    ([HasAttr "tabindex"; Not (AttrEq "tabindex" (lit "-1"))], []);
    ([Tag (lit "summary")], [(ChildOf, [Tag (lit "details")])]);
    ([AttrEq "contenteditable" (lit "true")], []) ].

Definition dialogSelectors : Selector :=
  [ roleSel "dialog"; roleSel "presentation";
    ([AttrEq "aria-modal" (lit "true")], []) ].

(** *** Modal scope *)

(** [d.offsetParent !== null || getComputedStyle(d).position === 'fixed'] *)
Definition rendered (n : Node) : bool :=
  bool_decide (is_Some (offsetParent (props n)))
  || streq (position (props n)) (lit "fixed").

Definition allDialogs (doc : list Child) : list Node :=
  List.filter rendered (querySelectorAll (Fragment doc) dialogSelectors).

Definition isRealDialog (d : Node) : bool :=
  attrIs (props d) "role" (lit "dialog")
  || attrIs (props d) "aria-modal" (lit "true").

Definition realDialogs (doc : list Child) : list Node :=
  List.filter isRealDialog (allDialogs doc).

Definition topDialog (doc : list Child) : option Node :=
  if (0 <? length (realDialogs doc))%nat
  then realDialogs doc !! (length (realDialogs doc) - 1)%nat
  else allDialogs doc !! (length (allDialogs doc) - 1)%nat.

(** [topDialog && topDialog.contains(el)] *)
Definition inDialog (top : option Node) (el : Node) : bool :=
  match top with
  | Some d => contains d el
  | None => false
  end.

(** *** Array.prototype.sort: a stable sort by a comparator *)

Fixpoint insertBy {A} (cmp : A → A → Z) (x : A) (l : list A) : list A :=
  match l with
  | [] => [x]
  | y :: l' => if (cmp x y <=? 0)%Z then x :: l else y :: insertBy cmp x l'
  end.

(** Each element is inserted in front of the sorted rest, so that of
    two elements that compare equal the earlier stays first. *)
Definition sortBy {A} (cmp : A → A → Z) (l : list A) : list A :=
  foldr (insertBy cmp) [] l.

Definition dialogRank (top : option Node) (el : Node) : Z :=
  if inDialog top el then 0%Z else 1%Z.

Definition sorted (top : option Node) (interactive : list Node) : list Node :=
  sortBy (λ a b, dialogRank top a - dialogRank top b)%Z interactive.

(** *** Classification of one element (the body of the scan loop) *)

(** The visibility test that makes the loop [continue]. *)
Definition skipped (el : Node) : bool :=
  bool_decide (offsetParent (props el) = None)
  && negb (streq (tagName (props el)) (lit "BODY"))
  && negb (streq (position (props el)) (lit "fixed")).

Definition isDisabled (e : Element) : bool :=
  el_disabled e || attrIs e "aria-disabled" (lit "true").

Definition tagOf (e : Element) : jsstr := toLowerCase (tagName e).

Definition textOf (el : Node) : jsstr :=
  collapseWhite (slice0 80 (trim (textContent el))).

Definition valueOf (e : Element) : jsstr :=
  let tag := tagOf e in
  if streq tag (lit "input") || streq tag (lit "select")
     || streq tag (lit "textarea")
  then slice0 40 (el_value e) else [].

Definition labelOf (e : Element) : jsstr :=
  let tag := tagOf e in
  let type := el_type e in
  let role := attrOr e "role" in
  let label :=
    if streq tag (lit "a") then lit "link"
    else if streq tag (lit "button") || streq role (lit "button") then lit "button"
    else if streq tag (lit "input")
         then (if truthy type then lit "input:" ++ type else lit "input")
    else if streq tag (lit "select") then lit "select"
    else if streq tag (lit "textarea") then lit "textarea"
    else if streq role (lit "textbox") then lit "textbox"
    else if truthy role then role
    else tag in
  if isDisabled e then label ++ lit ":disabled" else label.

(** [' → '] *)
Definition arrow : jsstr := [32; 8594; 32].

Definition shortHref (href : jsstr) : jsstr :=
  if (60 <? length href)%nat then slice0 57 href ++ lit "..." else href.

Definition descOf (el : Node) : jsstr :=
  let e := props el in
  let tag := tagOf e in
  let text := textOf el in
  let ariaLabel := attrOr e "aria-label" in
  let placeholder := el_placeholder e in
  let href := el_href e in
  let name := el_name e in
  let value := valueOf e in
  let desc := or_else ariaLabel (or_else text (or_else placeholder (or_else name []))) in
  let desc :=
    if truthy value && negb (includes desc value)
    then desc ++ (if truthy desc then lit " [" ++ value ++ lit "]" else value)
    else desc in
  if streq tag (lit "a") && truthy href
     && negb (startsWith href (lit "javascript:"))
  then desc ++ (if truthy desc then arrow ++ shortHref href else shortHref href)
  else desc.

Definition scopeOf (top : option Node) (el : Node) : jsstr :=
  if inDialog top el then lit "modal" else lit "page".

Definition keyOf (top : option Node) (el : Node) : jsstr :=
  scopeOf top el ++ lit "|" ++ labelOf (props el) ++ lit "|" ++ descOf el.

(** One entry of the scan result. *)
Record Descriptor := {
  d_label : jsstr;
  d_desc : jsstr
}.

Definition describe (el : Node) : Descriptor :=
  {| d_label := labelOf (props el); d_desc := slice0 120 (descOf el) |}.

(** *** Stamping *)

(** [el.setAttribute('data-bjs-idx', idx)] on the element [id] of the
    live tree. *)
Definition setStamp (id idx : nat) (doc : list Child) : list Child :=
  List.map (mapChild (forElement id (setAttribute stampAttr (ofNat idx)))) doc.

(** *** The scan loop *)

Record LoopState := {
  seen : gset jsstr;
  results : list Descriptor;
  live : list Child               (* the document being stamped *)
}.

(** One iteration of [for (const el of sorted)].  [el] is the node as
    the walk found it: the iteration reads its tag, its properties, its
    text and attributes other than the stamp, none of which an earlier
    iteration has changed; what it writes goes to the live tree. *)
Definition visit (top : option Node) (st : LoopState) (el : Node) : LoopState :=
  if skipped el then st
  else
    let key := keyOf top el in
    if bool_decide (key ∈ seen st) then st
    else {| seen := {[ key ]} ∪ seen st;
            results := results st ++ [describe el];
            live := setStamp (nid (props el)) (length (results st)) (live st) |}.

Definition scanLoop (top : option Node) (l : list Node) (st : LoopState) : LoopState :=
  foldl (visit top) st l.

Inductive ScanOutput :=
| SelectorNotFound (sel : Selector)
| ScanResults (rs : list Descriptor).

(** [sel ? document.querySelector(sel) : document], on the document
    [doc]; [None] stands for a selector that is null or empty. *)
Definition scanRoot (selector : option Selector) (doc : list Child) : option Root :=
  match selector with
  | Some sel =>
      match querySelectorCtx (Fragment doc) sel with
      | Some (ancs, n) => Some (Within ancs n)
      | None => None
      end
  | None => Some (Fragment doc)
  end.

(** The script that [ELEMENTS_JS(selector)] generates, run in the page:
    its JSON result and the page it leaves behind. *)
Definition ELEMENTS_JS (selector : option Selector) (p : Page) : ScanOutput * Page :=
  let doc := deepClearStamps (document p) in
  match scanRoot selector doc with
  | None =>
      (SelectorNotFound (default [] selector),
       {| document := doc; bjsDeepQuery := true |})
  | Some root =>
      let interactive := deepQueryAll root interactiveSelectors in
      let top := topDialog doc in
      let st := scanLoop top (sorted top interactive)
                  {| seen := ∅; results := []; live := doc |} in
      (ScanResults (results st),
       {| document := live st; bjsDeepQuery := true |})
  end.

End Scan.
Export Scan.

(** ** The commands: [ensureIndexed], [cmdClick], [cmdType] *)

Module Commands.

Inductive MouseEventType := mousePressed | mouseReleased.
Inductive KeyEventType := keyDown | keyUp.

(** The expressions the commands send through [Runtime.evaluate]. *)
Inductive Script :=
| HasStamps                                   (* the probe of ensureIndexed *)
| Elements (selector : option Selector)       (* ELEMENTS_JS(selector) *)
| ClickInfo (index : nat)
| TypeInfo (index : nat)
| SelectContents (index : nat)
| ClearValue (index : nat)
| SetValue (index : nat) (text : jsstr).

(** Protocol commands, as passed to [cdp.send]. *)
Inductive Command :=
| RuntimeEvaluate (s : Script)
| InputDispatchMouseEvent (t : MouseEventType) (x y : Q)
| InputDispatchKeyEvent (t : KeyEventType) (key : jsstr)
| InputInsertText (text : jsstr).

Definition isInput (c : Command) : bool :=
  match c with RuntimeEvaluate _ => false | _ => true end.

(** A bounding box; coordinates are taken as rationals. *)
Record Rect := { rx : Q; ry : Q; rwidth : Q; rheight : Q }.

(** What [ClickInfo] reports back. *)
Record ClickTarget := {
  c_x : Q; c_y : Q; c_label : jsstr; c_desc : jsstr
}.

(** What [TypeInfo] reports back. *)
Record TypeTarget := {
  t_tag : jsstr; t_ce : bool; t_x : Q; t_y : Q
}.

(** A debugging session: the live page and the commands sent so far. *)
Record Session := {
  page : Page;
  sent : list Command
}.

Definition M (A : Type) : Type := Session → A * Session.

#[export] Instance M_ret : MRet M := λ A (a : A) s, (a, s).
#[export] Instance M_bind : MBind M :=
  λ A B (f : A → M B) (m : M A) s, let '(a, s') := m s in f a s'.

(** [for (const char of text)]: the string by code points, a surrogate
    pair staying together. *)
Fixpoint codePoints (s : jsstr) : list jsstr :=
  match s with
  | [] => []
  | c :: s' =>
      match s' with
      | d :: s'' =>
          if (55296 <=? c) && (c <=? 56319) && (56320 <=? d) && (d <=? 57343)
          then [c; d] :: codePoints s''
          else [c] :: codePoints s'
      | [] => [[c]]
      end
  end.

(** [(window.__bjsDeepQuery && window.__bjsDeepQuery(index))
     || document.querySelector('[data-bjs-idx="index"]')] *)
Definition lookupIndex (p : Page) (index : nat) : option Node :=
  match
    if bjsDeepQuery p then deepQueryStamp (Fragment (document p)) index else None
  with
  | Some el => Some el
  | None => querySelector (Fragment (document p)) (stampSelector index)
  end.

(** [!!(document.querySelector('[data-bjs-idx]')
       || (window.__bjsDeepQuery && window.__bjsDeepQuery(0)))] *)
Definition hasStamps (p : Page) : bool :=
  bool_decide (is_Some (querySelector (Fragment (document p)) [([HasAttr stampAttr], [])]))
  || (bjsDeepQuery p
      && bool_decide (is_Some (deepQueryStamp (Fragment (document p)) 0))).

(** [typeable] of the [TypeInfo] script. *)
Definition typeable (el : Node) : bool :=
  let tag := toLowerCase (tagName (props el)) in
  let ce := isContentEditable (props el) in
  let role := attrOr (props el) "role" in
  streq tag (lit "input") || streq tag (lit "textarea") || ce
  || streq role (lit "textbox").

(** The label and description [ClickInfo] computes at click time. *)
Definition clickLabel (el : Node) : jsstr :=
  or_else (attrOr (props el) "role") (toLowerCase (tagName (props el))).

Definition clickDesc (el : Node) : jsstr :=
  slice0 80 (trim (or_else (attrOr (props el) "aria-label")
                           (or_else (textContent el) []))).

(** Assignment to a property of the element [id] of the live tree. *)
Definition updateElement (id : nat) (f : Element → Element) (p : Page) : Page :=
  {| document := List.map (mapChild (forElement id f)) (document p);
     bjsDeepQuery := bjsDeepQuery p |}.

Section Browser.

(** The browser around the scripts: layout, the page's reaction to
    real input and to the DOM events the scripts dispatch, and
    whether [Input.insertText] is rejected. *)
Variable getBoundingClientRect : Page → Node → Rect.
Variable react : Command → Page → Page.
Variable dispatchEvent : jsstr → Node → Page → Page.
Variable insertTextRejected : Page → jsstr → bool.

Definition centerX (r : Rect) : Q := (rx r + rwidth r / 2)%Q.
Definition centerY (r : Rect) : Q := (ry r + rheight r / 2)%Q.

(** [cdp.send(method, params)] for the [Input] domain. *)
Definition send (c : Command) : M unit :=
  λ s, (tt, {| page := react c (page s); sent := sent s ++ [c] |}).

(** [cdp.send("Runtime.evaluate", ...)]: the script runs in the page. *)
Definition evaluate {A} (sc : Script) (run : Page → A * Page) : M A :=
  λ s, let '(a, p') := run (page s) in
       (a, {| page := p'; sent := sent s ++ [RuntimeEvaluate sc] |}).

Definition runClickInfo (index : nat) (p : Page) : (jsstr + ClickTarget) * Page :=
  match lookupIndex p index with
  | None =>
      (inl (lit "Element not found at index " ++ ofNat index
              ++ lit ". Try: elements"), p)
  | Some el =>
      let rect := getBoundingClientRect p el in
      (inr {| c_x := centerX rect; c_y := centerY rect;
              c_label := clickLabel el; c_desc := clickDesc el |}, p)
  end.

Definition runTypeInfo (index : nat) (p : Page) : (jsstr + TypeTarget) * Page :=
  match lookupIndex p index with
  | None =>
      (inl (lit "Element [" ++ ofNat index
              ++ lit "] not found. Run elements to re-index."), p)
  | Some el =>
      let tag := toLowerCase (tagName (props el)) in
      if typeable el then
        let rect := getBoundingClientRect p el in
        (inr {| t_tag := tag; t_ce := isContentEditable (props el);
                t_x := centerX rect; t_y := centerY rect |}, p)
      else
        (inl (lit "Element [" ++ ofNat index ++ lit "] is a " ++ tag
                ++ lit ", not a text input. Run elements to re-index."), p)
  end.

(** The selection the script makes is not part of the page state. *)
Definition runSelectContents (index : nat) (p : Page) : unit * Page := (tt, p).

Definition runClearValue (index : nat) (p : Page) : unit * Page :=
  match lookupIndex p index with
  | Some el => (tt, updateElement (nid (props el)) (setValue []) p)
  | None => (tt, p)
  end.

(** The setter the script calls is the one of
    [HTMLInputElement.prototype], which is always there: on an
    [input] element it sets the value and the two events follow; on
    any other element (a textarea, an element with the textbox role)
    the call throws and the script ends, nothing is set and no
    event is dispatched. *)
Definition runSetValue (index : nat) (text : jsstr) (p : Page) : unit * Page :=
  match lookupIndex p index with
  | Some el =>
      if isContentEditable (props el) then (tt, p)
      else if streq (toLowerCase (tagName (props el))) (lit "input") then
        let p1 := updateElement (nid (props el)) (setValue text) p in
        let p2 := dispatchEvent (lit "input") el p1 in
        (tt, dispatchEvent (lit "change") el p2)
      else (tt, p)
  | None => (tt, p)
  end.

Definition ensureIndexed : M bool :=
  stamped ← evaluate HasStamps (λ p, (hasStamps p, p));
  if negb stamped
  then _ ← evaluate (Elements None) (ELEMENTS_JS None); mret true
  else mret false.

Definition cmdClick (index : option nat) : M jsstr :=
  match index with
  | None => mret (lit "Usage: click <index>")
  | Some index =>
      _ ← ensureIndexed;
      info ← evaluate (ClickInfo index) (runClickInfo index);
      match info with
      | inl error => mret error
      | inr info =>
          _ ← send (InputDispatchMouseEvent mousePressed (c_x info) (c_y info));
          _ ← send (InputDispatchMouseEvent mouseReleased (c_x info) (c_y info));
          mret (lit "Clicked: (" ++ c_label info ++ lit ") " ++ c_desc info)
      end
  end.

(** The fallback of [cmdType]: one key-down/key-up pair per character. *)
Fixpoint typeChars (chars : list jsstr) : M unit :=
  match chars with
  | [] => mret tt
  | char :: rest =>
      _ ← send (InputDispatchKeyEvent keyDown char);
      _ ← send (InputDispatchKeyEvent keyUp char);
      typeChars rest
  end.

Definition insertText (text : jsstr) : M unit :=
  λ s, if insertTextRejected (page s) text
       then typeChars (codePoints text)
              {| page := page s; sent := sent s ++ [InputInsertText text] |}
       else send (InputInsertText text) s.

Definition cmdType (index : option nat) (text : jsstr) : M jsstr :=
  match index with
  | None => mret (lit "Usage: type <index> <text>")
  | Some index =>
      if negb (truthy text) then mret (lit "Usage: type <index> <text>")
      else
        _ ← ensureIndexed;
        info ← evaluate (TypeInfo index) (runTypeInfo index);
        match info with
        | inl error => mret error
        | inr info =>
            _ ← send (InputDispatchMouseEvent mousePressed (t_x info) (t_y info));
            _ ← send (InputDispatchMouseEvent mouseReleased (t_x info) (t_y info));
            _ ← (if t_ce info then
                   _ ← evaluate (SelectContents index) (runSelectContents index);
                   _ ← send (InputDispatchKeyEvent keyDown (lit "Backspace"));
                   send (InputDispatchKeyEvent keyUp (lit "Backspace"))
                 else evaluate (ClearValue index) (runClearValue index));
            _ ← insertText text;
            _ ← (if negb (t_ce info)
                 then evaluate (SetValue index text) (runSetValue index text)
                 else mret tt);
            mret (lit "Typed into [" ++ ofNat index ++ lit "] (" ++ t_tag info
                    ++ (if t_ce info then lit ", contenteditable" else [])
                    ++ lit ")")
        end
  end.

End Browser.

End Commands.
Export Commands.

(** ** Notions the properties are stated with *)

Module Notions.

(** The ancestor chain under which the children of a query root are
    matched. *)
Definition baseOf (r : Root) : list Element :=
  match r with
  | Fragment _ => []
  | Within ancs n => props n :: ancs
  end.

(** [below base kids ancs n]: the element [n], whose ancestor chain in
    its own tree is [ancs], lies under the children [kids] (themselves
    under the chain [base]): it is one of them, or lies under one of
    them, or lies in the shadow tree of one of them; shadow boundaries
    are crossed at any depth. *)
Inductive below : list Element → list Child → list Element → Node → Prop :=
| below_here base kids n :
    inr n ∈ kids → below base kids base n
| below_light base kids m ancs n :
    inr m ∈ kids →
    below (props m :: base) (childNodes m) ancs n →
    below base kids ancs n
| below_shadow base kids m s ancs n :
    inr m ∈ kids →
    shadowRoot m = Some s →
    below [] s ancs n →
    below base kids ancs n.

(** The order in which the walker meets the elements under [kids]:
    first the tree of [kids] itself in document order, then, host by
    host in document order, the content of each shadow tree. *)
Fixpoint shadowWalk (n : Node) : list (list Element * Node) :=
  match n with
  | Elem _ kids sh =>
      match sh with
      | Some s =>
          flat_map (onElem (subtree [])) s ++ flat_map (onElem shadowWalk) s
      | None => []
      end ++ flat_map (onElem shadowWalk) kids
  end.

Definition walk (r : Root) : list (list Element * Node) :=
  descendants r ++ flat_map (onElem shadowWalk) (kidsOf r).

(** Object identities are unique throughout the page. *)
Definition uniqueIds (doc : list Child) : Prop :=
  NoDup ((nid ∘ props ∘ snd) <$> walk (Fragment doc)).

(** No element of the page, shadow trees included, carries a stamp. *)
Definition unstamped (doc : list Child) : Prop :=
  ∀ ancs n, (ancs, n) ∈ walk (Fragment doc) →
            getAttribute (props n) stampAttr = None.

(** The same relation with the shadow tree of the root element itself
    included: everything reachable from a scan root. *)
Definition reachable (r : Root) (ancs : list Element) (n : Node) : Prop :=
  below (baseOf r) (kidsOf r) ancs n
  ∨ match r with
    | Fragment _ => False
    | Within _ host =>
        ∃ s, shadowRoot host = Some s ∧ below [] s ancs n
    end.

(** The nodes the scan loop keeps, given the keys already seen. *)
Fixpoint keptFrom (top : option Node) (seen : gset jsstr) (l : list Node)
  : list Node :=
  match l with
  | [] => []
  | el :: l' =>
      if skipped el then keptFrom top seen l'
      else if bool_decide (keyOf top el ∈ seen) then keptFrom top seen l'
      else el :: keptFrom top ({[ keyOf top el ]} ∪ seen) l'
  end.

(** The keys seen once the loop has gone through [l]. *)
Definition seenAfter (top : option Node) (seen : gset jsstr) (l : list Node)
  : gset jsstr :=
  foldl (λ s el,
           if skipped el then s
           else if bool_decide (keyOf top el ∈ s) then s
           else {[ keyOf top el ]} ∪ s) seen l.

(** The candidates of a scan in the order the loop visits them, and the
    nodes that receive an index (the i-th one receives index i). *)
Definition candidates (selector : option Selector) (p : Page) : list Node :=
  let doc := deepClearStamps (document p) in
  match scanRoot selector doc with
  | Some root => sorted (topDialog doc) (deepQueryAll root interactiveSelectors)
  | None => []
  end.

Definition activeDialog (p : Page) : option Node :=
  topDialog (deepClearStamps (document p)).

Definition indexed (selector : option Selector) (p : Page) : list Node :=
  keptFrom (activeDialog p) ∅ (candidates selector p).

(** The comparator of the sort. *)
Definition byRank (top : option Node) (a b : Node) : Z :=
  (dialogRank top a - dialogRank top b)%Z.

(** An update of the elements in place, seen on an entry of the walk. *)
Definition liftCtx (f : Element → Element) (cn : list Element * Node)
  : list Element * Node :=
  (f <$> fst cn, mapNode f (snd cn)).

(** A selector that only matches elements carrying a stamp. *)
Definition needsStamp (sel : Selector) : Prop :=
  ∀ ancs e, matches sel ancs e = true → is_Some (getAttribute e stampAttr).

(** The session after the scan that [ensureIndexed] triggers. *)
Definition scanned (s : Session) : Session :=
  {| page := snd (ELEMENTS_JS None (page s));
     sent := sent s ++ [RuntimeEvaluate HasStamps; RuntimeEvaluate (Elements None)] |}.

(** The session when the probe of [ensureIndexed] finds a stamp. *)
Definition probed (s : Session) : Session :=
  {| page := page s; sent := sent s ++ [RuntimeEvaluate HasStamps] |}.

(** The commands [cmdType] sends to clear its target. *)
Definition clearing (index : nat) (ce : bool) : list Command :=
  if ce
  then [RuntimeEvaluate (SelectContents index);
        InputDispatchKeyEvent keyDown (lit "Backspace");
        InputDispatchKeyEvent keyUp (lit "Backspace")]
  else [RuntimeEvaluate (ClearValue index)].

End Notions.
Export Notions.

(** ** The specification's wording, as definitions *)

Module Spec.

(** The last element of [l] that satisfies [f]. *)
Definition lastWhere {A} (f : A → bool) (l : list A) : option A :=
  foldl (λ acc x, if f x then Some x else acc) None l.

Definition hasRole (r : string) (n : Node) : bool :=
  attrIs (props n) "role" (lit r).

Definition ariaModal (n : Node) : bool :=
  attrIs (props n) "aria-modal" (lit "true").

(** Every element of the document's own tree, in document order. *)
Definition inDocumentOrder (doc : list Child) : list Node :=
  snd <$> descendants (Fragment doc).

(** Section 4.3: the last rendered node whose role is [dialog] or whose
    [aria-modal] is true; failing that, the last rendered node of role
    [presentation]; failing that, none. *)
Definition resolveDialog (doc : list Child) : option Node :=
  match
    lastWhere (λ d, rendered d && (hasRole "dialog" d || ariaModal d))
              (inDocumentOrder doc)
  with
  | Some d => Some d
  | None =>
      lastWhere (λ d, rendered d && hasRole "presentation" d)
                (inDocumentOrder doc)
  end.

(** The first non-empty string of a list, the empty string if none. *)
Definition firstNonEmpty (l : list jsstr) : jsstr :=
  default [] (List.find truthy l).

(** What the description starts from: aria-label, text, placeholder,
    name, in this priority. *)
Definition baseDesc (el : Node) : jsstr :=
  firstNonEmpty [ attrOr (props el) "aria-label"; textOf el;
                  el_placeholder (props el); el_name (props el) ].

(** Section 4.2, as worded: the value is appended in brackets unless
    the description already contains it, every anchor gets its
    shortened href after an arrow, the whole is cut at 120. *)
Definition descriptionAsStated (el : Node) : jsstr :=
  let value := valueOf (props el) in
  let withValue :=
    if includes (baseDesc el) value then baseDesc el
    else baseDesc el ++ lit " [" ++ value ++ lit "]" in
  let withHref :=
    if streq (tagOf (props el)) (lit "a")
    then withValue ++ arrow ++ shortHref (el_href (props el))
    else withValue in
  slice0 120 withHref.


(** The part the value contributes to the description. *)
Definition valuePart (el : Node) : jsstr :=
  let value := valueOf (props el) in
  if negb (truthy value) then []
  else if includes (baseDesc el) value then []
  else if truthy (baseDesc el) then lit " [" ++ value ++ lit "]"
  else value.

(** An anchor whose href is shown. *)
Definition linked (el : Node) : bool :=
  streq (tagOf (props el)) (lit "a")
  && truthy (el_href (props el))
  && negb (startsWith (el_href (props el)) (lit "javascript:")).

(** The part the href contributes, after the description [before]. *)
Definition hrefPart (el : Node) (before : jsstr) : jsstr :=
  if negb (linked el) then []
  else if truthy before then arrow ++ shortHref (el_href (props el))
  else shortHref (el_href (props el)).

(** White space is collapsed in [s]: a white unit is a single space
    and is not followed by another white unit. *)
Fixpoint collapsed (s : jsstr) : bool :=
  match s with
  | [] => true
  | c :: s' =>
      (negb (isWhite c)
       || ((c =? 32) && match s' with d :: _ => negb (isWhite d) | [] => true end))
      && collapsed s'
  end.

(** A node the dialog selectors of the script match. *)
Definition dialogish (n : Node) : bool :=
  hasRole "dialog" n || hasRole "presentation" n || ariaModal n.

(** The document without its shadow trees. *)
Fixpoint lightNode (n : Node) : Node :=
  match n with
  | Elem e kids _ =>
      Elem e
        (List.map (λ c, match c with inl t => inl t | inr k => inr (lightNode k) end)
                  kids)
        None
  end.

Definition lightChild (c : Child) : Child :=
  match c with inl t => inl t | inr k => inr (lightNode k) end.

Definition lightDocument (doc : list Child) : list Child :=
  List.map lightChild doc.

Definition liftLight (cn : list Element * Node) : list Element * Node :=
  (fst cn, lightNode (snd cn)).

End Spec.
Export Spec.

(** ** Sample pages *)

Module Samples.

(** A rendered element with the given identity, tag and attributes. *)
Definition element (i : nat) (tag : string) (attrs : list (string * string)) : Element :=
  {| nid := i; tagName := lit tag;
     attributes := list_to_map (prod_map (λ a, a) lit <$> attrs);
     el_disabled := false; el_type := []; el_placeholder := [];
     el_href := []; el_name := []; el_value := [];
     isContentEditable := false; offsetParent := Some 0%nat;
     position := lit "static" |}.

Definition withHref (h : string) (e : Element) : Element :=
  {| nid := nid e; tagName := tagName e; attributes := attributes e;
     el_disabled := el_disabled e; el_type := el_type e;
     el_placeholder := el_placeholder e; el_href := lit h;
     el_name := el_name e; el_value := el_value e;
     isContentEditable := isContentEditable e;
     offsetParent := offsetParent e; position := position e |}.

Definition withType (t : string) (e : Element) : Element :=
  {| nid := nid e; tagName := tagName e; attributes := attributes e;
     el_disabled := el_disabled e; el_type := lit t;
     el_placeholder := el_placeholder e; el_href := el_href e;
     el_name := el_name e; el_value := el_value e;
     isContentEditable := isContentEditable e;
     offsetParent := offsetParent e; position := position e |}.

Definition leaf (e : Element) (text : string) : Node :=
  Elem e [inl (lit text)] None.

Definition body (kids : list Node) : list Child :=
  [inr (Elem (element 0 "BODY" []) (inr <$> kids) None)].

Definition fresh (doc : list Child) : Page :=
  {| document := doc; bjsDeepQuery := false |}.

(** The end-to-end page of the specification: an anchor and a button
    inside the shadow root of the custom element [c1]. *)
Definition anchorA : Node :=
  leaf (withHref "https://x/a" (element 1 "A" [("href", "https://x/a")])) "A".
Definition buttonGo : Node := leaf (element 3 "BUTTON" []) "Go".
Definition hostC1 : Node :=
  Elem (element 2 "C1" []) [] (Some [inr anchorA; inr buttonGo]).
Definition shadowPage : Page := fresh (body [hostC1]).

(** A button three shadow roots deep, and the same button at top level. *)
Definition deepHost (i : nat) (inner : Node) : Node :=
  Elem (element i "X-HOST" []) [] (Some [inr inner]).
Definition deepPage : Page :=
  fresh (body [deepHost 10 (deepHost 11 (deepHost 12 buttonGo))]).
Definition flatPage : Page := fresh (body [buttonGo]).

(** A page-level button and a look-alike inside an open dialog. *)
Definition pageSave : Node := leaf (element 5 "BUTTON" []) "Save".
Definition modalSave : Node := leaf (element 7 "BUTTON" []) "Save".
Definition modalSaveAgain : Node := leaf (element 8 "BUTTON" []) "Save".
Definition dialog : Node :=
  Elem (element 6 "DIV" [("role", "dialog")])
       [inr modalSave; inr modalSaveAgain] None.
Definition modalPage : Page := fresh (body [pageSave; dialog]).


(** An anchor with a script href, and an input that only has a value. *)
Definition scriptAnchor : Node :=
  leaf (withHref "javascript:void(0)"
          (element 20 "A" [("href", "javascript:void(0)")])) "Menu".
Definition valueInput : Node :=
  Elem (setValue (lit "hello") (withType "text" (element 21 "INPUT" []))) [] None.
Definition submitInput : Node :=
  Elem (withType "submit" (element 22 "INPUT" [("type", "submit")])) [] None.

(** A dialog that lives in a shadow root, next to a page-level button. *)
Definition shadowDialog : Node :=
  Elem (element 31 "DIV" [("role", "dialog")]) [inr modalSave] None.
Definition shadowDialogPage : Page :=
  fresh (body [pageSave; Elem (element 30 "X-MODAL" []) [] (Some [inr shadowDialog])]).

Definition stillLayout (p : Page) (n : Node) : Rect :=
  {| rx := 0; ry := 0; rwidth := 10; rheight := 10 |}.
Definition inert (c : Command) (p : Page) : Page := p.
Definition noHandlers (type : jsstr) (n : Node) (p : Page) : Page := p.
Definition insertTextAccepted (p : Page) (text : jsstr) : bool := false.

Definition start (p : Page) : Session := {| page := p; sent := [] |}.

Definition inputPage : Page := fresh (body [submitInput]).

(** The node [n] once a scan has given it the index [idx]. *)
Definition stamped (idx : nat) (n : Node) : Node :=
  mapNode (forElement (nid (props n)) (setAttribute stampAttr (ofNat idx))) n.

(** The commands in a browser that stands still. *)
Definition clickIn (p : Page) (index : nat) : jsstr * Session :=
  cmdClick stillLayout inert (Some index) (start p).
Definition typeIn (p : Page) (index : nat) (text : string) : jsstr * Session :=
  cmdType stillLayout inert noHandlers insertTextAccepted
    (Some index) (lit text) (start p).

End Samples.
Export Samples.

(** ** Further notions: stamps after a scan *)

Module Stamping.

(** The number a string of decimal digits stands for. *)
Fixpoint decimalValue (s : jsstr) : nat :=
  match s with
  | [] => 0
  | c :: s' => (N.to_nat c - 48) * 10 ^ length s' + decimalValue s'
  end.

(** The live tree after the loop has stamped the nodes [kept], the
    first of them with [start]. *)
Fixpoint stampAll (start : nat) (kept : list Node) (doc : list Child) : list Child :=
  match kept with
  | [] => doc
  | a :: rest => stampAll (S start) rest (setStamp (nid (props a)) start doc)
  end.

(** What these stampings do to one element. *)
Fixpoint stampFn (start : nat) (kept : list Node) (e : Element) : Element :=
  match kept with
  | [] => e
  | a :: rest =>
      stampFn (S start) rest
        (forElement (nid (props a)) (setAttribute stampAttr (ofNat start)) e)
  end.

(** The page a scan leaves behind. *)
Definition scannedPage (selector : option Selector) (p : Page) : Page :=
  snd (ELEMENTS_JS selector p).

End Stamping.
Export Stamping.

(** ** Further notions: typing key by key *)

Module Keys.

(** A high surrogate followed by a low one. *)
Definition surrogatePair (c d : N) : bool :=
  (55296 <=? c) && (c <=? 56319) && (56320 <=? d) && (d <=? 57343).

(** One iteration value of [for (const char of text)]: a single code
    unit, or a surrogate pair. *)
Definition isChar (ch : jsstr) : Prop :=
  match ch with
  | [c] => True
  | [c; d] => surrogatePair c d = true
  | _ => False
  end.

(** The two key events the fallback sends for a character. *)
Definition keyPair (ch : jsstr) : list Command :=
  [InputDispatchKeyEvent keyDown ch; InputDispatchKeyEvent keyUp ch].

Definition keyDowns (evs : list Command) : list jsstr :=
  omap (λ c, match c with
             | InputDispatchKeyEvent keyDown ch => Some ch
             | _ => None
             end) evs.

End Keys.
Export Keys.

(** ** The text command: the script of [cmdText] *)

Module Text.

Definition MAX : nat := N.to_nat 8000.

(** [chunks] and [totalLen] of the script. *)
Record Collected := {
  chunks : list jsstr;
  totalLen : nat
}.

Definition unreadTags : list jsstr :=
  [lit "SCRIPT"; lit "STYLE"; lit "NOSCRIPT"; lit "SVG"].

(** [chunks.push(t); totalLen += t.length] *)
Definition push (t : jsstr) (st : Collected) : Collected :=
  {| chunks := chunks st ++ [t]; totalLen := totalLen st + length t |}.

(** [extractText] on a text node; [parent] is its [parentElement],
    which a text node placed directly in a shadow root does not have. *)
Definition extractTextNode (parent : option Element) (textContent : jsstr)
    (st : Collected) : Collected :=
  if (MAX <=? totalLen st)%nat then st
  else
    let t := trim textContent in
    if (0 <? length t)%nat then
      match parent with
      | Some parent =>
          if bool_decide (tagName parent ∈ unreadTags) then st
          else if bool_decide (offsetParent parent = None)
                  && negb (streq (position parent) (lit "fixed")) then st
          else push t st
      | None => push t st
      end
    else st.

(** [extractText] on an element: its shadow tree first, then its own
    child nodes. *)
Fixpoint extractText (node : Node) (st : Collected) : Collected :=
  if (MAX <=? totalLen st)%nat then st
  else
    match node with
    | Elem e kids sh =>
        let child (parent : option Element) (st : Collected) (c : Child) :=
          match c with
          | inl t => extractTextNode parent t st
          | inr k => extractText k st
          end in
        let st := match sh with
                  | Some s => foldl (child None) st s
                  | None => st
                  end in
        foldl (child (Some e)) st kids
    end.

Definition extractChild (parent : option Element) (st : Collected) (c : Child)
  : Collected :=
  match c with
  | inl t => extractTextNode parent t st
  | inr k => extractText k st
  end.

(** [chunks.join(' ')] *)
Definition joinSpace (l : list jsstr) : jsstr :=
  match l with
  | [] => []
  | t :: l' => t ++ flat_map (λ u, 32 :: u) l'
  end.

(** What the script returns: the selector matched nothing, or a text. *)
Inductive TextOutput :=
| TextNotFound (sel : option Selector)
| TextFound (text : jsstr).

Definition finishText (st : Collected) : jsstr :=
  let text := trim (collapseWhite (joinSpace (chunks st))) in
  let text := if (MAX <? length text)%nat
              then slice0 MAX text ++ lit "... (truncated)" else text in
  or_else text (lit "(empty page)").

(** [sel ? document.querySelector(sel) : document.body]; the body is
    the one the browser reports for the document. *)
Definition textRoot (body : option Node) (selector : option Selector) (p : Page)
  : option Node :=
  match selector with
  | Some sel => querySelector (Fragment (document p)) sel
  | None => body
  end.

Definition textScript (body : option Node) (selector : option Selector) (p : Page)
  : TextOutput :=
  match textRoot body selector p with
  | None => TextNotFound selector
  | Some root =>
      TextFound (finishText (extractText root {| chunks := []; totalLen := 0 |}))
  end.

(** *** Notions for the properties *)

(** A text node is read when its trimmed text is not empty and its
    parent element, if it has one, is neither a script-like element
    nor without a rendered box. *)
Definition readable (parent : option Element) (t : jsstr) : bool :=
  negb (bool_decide (trim t = []))
  && match parent with
     | Some p =>
         negb (bool_decide (tagName p ∈ unreadTags))
         && (bool_decide (is_Some (offsetParent p))
             || streq (position p) (lit "fixed"))
     | None => true
     end.

(** The trimmed readable texts of an element in the order of the
    visit, without any limit. *)
Fixpoint textsOf (n : Node) : list jsstr :=
  match n with
  | Elem e kids sh =>
      let child (parent : option Element) (c : Child) :=
        match c with
        | inl t => if readable parent t then [trim t] else []
        | inr k => textsOf k
        end in
      match sh with
      | Some s => flat_map (child None) s
      | None => []
      end ++ flat_map (child (Some e)) kids
  end.

Definition textsOfChild (parent : option Element) (c : Child) : list jsstr :=
  match c with
  | inl t => if readable parent t then [trim t] else []
  | inr k => textsOf k
  end.

(** Pushing texts until the limit is reached. *)
Fixpoint collect (st : Collected) (l : list jsstr) : Collected :=
  match l with
  | [] => st
  | t :: l' => if (MAX <=? totalLen st)%nat then st else collect (push t st) l'
  end.

(** [textIn n parent t]: the text node [t], whose parent element is
    [parent], lies in the tree of [n] or in a shadow tree under it,
    that of [n] itself included. *)
Inductive textIn : Node → option Element → jsstr → Prop :=
| textIn_child n t :
    inl t ∈ childNodes n → textIn n (Some (props n)) t
| textIn_shadow n s t :
    shadowRoot n = Some s → inl t ∈ s → textIn n None t
| textIn_light n k parent t :
    inr k ∈ childNodes n → textIn k parent t → textIn n parent t
| textIn_deep n s k parent t :
    shadowRoot n = Some s → inr k ∈ s → textIn k parent t → textIn n parent t.

Definition sumLengths (l : list jsstr) : nat := sum_list_with length l.

(** The state the script starts the visit in. *)
Definition nothing : Collected := {| chunks := []; totalLen := 0 |}.

End Text.
Export Text.

(** ** The scan with what the engine may refuse

    The scanning script once more, with the two ways in which a run can
    fail: a spread of too many elements into the arguments of a call,
    and a property that is not the string the script takes it for. *)

Module Guarded.

(** What the evaluation of a script gives: its value, or an exception. *)
Inductive ScriptResult :=
| Value (out : ScanOutput)
| Exception.

(** The scan loop: still running, or stopped by an exception with the
    live document as the earlier iterations left it. *)
Inductive Run :=
| Running (st : LoopState)
| Thrown (live : list Child).

Section Engine.

(** [results.push(...list)] passes the elements of [list] as the
    arguments of one call; the engine raises a RangeError when it
    cannot take that many.  Which lists it refuses is its own
    matter. *)
Variable spreadThrows : list Node → bool.

(** [el.href] of an SVG anchor is an SVGAnimatedString object, not a
    string: [href.startsWith] is not a function on it. *)
Variable animatedHref : Element → bool.

(** [try { results.push(...found); } catch(e) {}] *)
Definition tryPush (found : list Node) : list Node :=
  if spreadThrows found then [] else found.

(** [results.push(...found)] outside any [try]; [None] is the
    RangeError, which ends the script. *)
Definition pushAll (found : list Node) : option (list Node) :=
  if spreadThrows found then None else Some found.

(** The results of [f] on the elements among [l], in order, put
    together; an exception in one of them ends everything. *)
Definition gather (f : Node → option (list Node))
  : list Child → option (list Node) :=
  fix gather (l : list Child) : option (list Node) :=
    match l with
    | [] => Some []
    | inl _ :: l' => gather l'
    | inr k :: l' =>
        match f k with
        | Some found =>
            match gather l' with
            | Some rest => Some (found ++ rest)
            | None => None
            end
        | None => None
        end
    end.

(** The [for (const el of allEls)] loop of [deepQueryAll] restricted
    to [n] and its descendants: for each element with a shadow root,
    in document order, the result of [deepQueryAll(el.shadowRoot)]
    is spread into one call of [push]. *)
Fixpoint shadowQueryAll (sel : Selector) (n : Node) : option (list Node) :=
  match n with
  | Elem _ kids sh =>
      match
        match sh with
        | Some s =>
            match gather (shadowQueryAll sel) s with
            | Some inner =>
                pushAll (tryPush (querySelectorAll (Fragment s) sel) ++ inner)
            | None => None
            end
        | None => Some []
        end
      with
      | Some own =>
          match gather (shadowQueryAll sel) kids with
          | Some rest => Some (own ++ rest)
          | None => None
          end
      | None => None
      end
  end.

Definition shadowHosts (sel : Selector) (l : list Child) : option (list Node) :=
  gather (shadowQueryAll sel) l.

Definition deepQueryAll (root : Root) (sel : Selector) : option (list Node) :=
  match shadowHosts sel (kidsOf root) with
  | Some inner => Some (tryPush (querySelectorAll root sel) ++ inner)
  | None => None
  end.

(** One iteration of [for (const el of sorted)]: on an anchor whose
    [href] is no string the test [href.startsWith('javascript:')]
    throws, before anything is written. *)
Definition visit (top : option Node) (r : Run) (el : Node) : Run :=
  match r with
  | Thrown doc => Thrown doc
  | Running st =>
      if skipped el then Running st
      else if streq (tagOf (props el)) (lit "a") && animatedHref (props el)
      then Thrown (live st)
      else Running (Scan.visit top st el)
  end.

Definition scanLoop (top : option Node) (l : list Node) (st : LoopState) : Run :=
  foldl (visit top) (Running st) l.

(** The script that [ELEMENTS_JS(selector)] generates, run in the
    page: its value or an exception, and the page it leaves. *)
Definition ELEMENTS_JS (selector : option Selector) (p : Page)
  : ScriptResult * Page :=
  let doc := deepClearStamps (document p) in
  match scanRoot selector doc with
  | None =>
      (Value (SelectorNotFound (default [] selector)),
       {| document := doc; bjsDeepQuery := true |})
  | Some root =>
      match deepQueryAll root interactiveSelectors with
      | None => (Exception, {| document := doc; bjsDeepQuery := true |})
      | Some interactive =>
          let top := topDialog doc in
          match scanLoop top (sorted top interactive)
                  {| seen := ∅; results := []; live := doc |} with
          | Running st =>
              (Value (ScanResults (results st)),
               {| document := live st; bjsDeepQuery := true |})
          | Thrown live =>
              (Exception, {| document := live; bjsDeepQuery := true |})
          end
      end
  end.

End Engine.

(** *** Notions for the properties *)

(** The elements a scan from [root] is after: those under the children
    of the root, in its own tree or in the shadow tree of one of its
    descendants at any depth, that match the selectors. *)
Definition sought (root : Root) (sel : Selector) (x : Node) : Prop :=
  ∃ ancs, below (baseOf root) (kidsOf root) ancs x
          ∧ matches sel ancs (props x) = true.

(** The engine takes every call with up to [n] arguments. *)
Definition takes (spreadThrows : list Node → bool) (n : nat) : Prop :=
  ∀ l, (length l ≤ n)%nat → spreadThrows l = false.

(** The sought elements as the walk meets them, each once. *)
Definition soughtIn (root : Root) (sel : Selector) : list (list Element * Node) :=
  List.filter (selects sel) (walk root).

(** The engine takes a call with as many arguments as there are
    sought elements, and any shorter one. *)
Definition spreadsFit (spreadThrows : list Node → bool)
    (root : Root) (sel : Selector) : Prop :=
  takes spreadThrows (length (soughtIn root sel)).

(** No sought element has an [href] that is not a string. *)
Definition plainHrefs (animatedHref : Element → bool)
    (root : Root) (sel : Selector) : Prop :=
  ∀ x, sought root sel x → animatedHref (props x) = false.

(** An engine that refuses nothing, a page without SVG anchors. *)
Definition neverThrows (l : list Node) : bool := false.
Definition noAnimated (e : Element) : bool := false.

(** An engine that takes no more than [n] arguments. *)
Definition takesAtMost (n : nat) (l : list Node) : bool := (n <? length l)%nat.

(** A page on which the elements named [a] are SVG anchors. *)
Definition svgAnchors (e : Element) : bool := streq (tagName e) (lit "a").

(** A button, and a link drawn in SVG next to it. *)
Definition svgLink : Node :=
  leaf (element 51 "a" [("href", "/more")]) "More".
Definition svgPage : Page := fresh (body [buttonGo; svgLink]).

End Guarded.

(** ** The elements command: [cmdElements] *)

Module Listing.

(** [lines.join("\n")] *)
Definition joinLines (l : list jsstr) : jsstr :=
  match l with
  | [] => []
  | t :: l' => t ++ flat_map (λ u, 10 :: u) l'
  end.

(** [`[${i}] (${e.label}) ${e.desc}`] *)
Definition elementLine (i : nat) (e : Descriptor) : jsstr :=
  lit "[" ++ ofNat i ++ lit "] (" ++ d_label e ++ lit ") " ++ d_desc e.

(** The reply of the command: the error of the script, which names the
    selector; a text; or, when the script ended in an exception and
    left no value to parse, an error of the command itself. *)
Inductive ElementsReply :=
| ElementsError (sel : Selector)
| ElementsText (text : jsstr)
| ElementsThrows.

Definition noElements : jsstr := lit "No interactive elements found.".

Definition cmdElements (spreadThrows : list Node → bool)
    (animatedHref : Element → bool)
    (selector : option Selector) (p : Page) : ElementsReply * Page :=
  let '(result, p') :=
    Guarded.ELEMENTS_JS spreadThrows animatedHref selector p in
  (match result with
   | Guarded.Exception => ElementsThrows
   | Guarded.Value (SelectorNotFound sel) => ElementsError sel
   | Guarded.Value (ScanResults elements) =>
       if (length elements =? 0)%nat then ElementsText noElements
       else ElementsText (joinLines (imap elementLine elements))
   end, p').

End Listing.
Export Listing.

(** ** The protocol session: [CDPSession] *)

Module Cdp.

(** A message from the browser: the reply to a request carries its
    [id] and an error or a result; an event carries no [id]. *)
Record Message := {
  m_id : option nat;
  m_error : option jsstr;          (* msg.error.message *)
  m_result : jsstr
}.

(** How a promise ends. *)
Inductive Outcome :=
| Resolved (result : jsstr)
| Rejected (message : jsstr).

(** The session: [this.id]; [this.pending], where the callbacks stored
    under an id are those of the promise that the call of [send]
    created, named here by the number of that call, counted from 0;
    the requests written to the socket; and the promises settled so
    far with their outcome, latest last. *)
Record CDPSession := {
  next : nat;
  pending : gmap nat nat;
  written : list (nat * jsstr);
  settled : list (nat * Outcome)
}.

(** [new CDPSession(ws)] *)
Definition connect : CDPSession :=
  {| next := 1; pending := ∅; written := []; settled := [] |}.

(** [send(method, params)] up to the point where the promise waits. *)
Definition sendRequest (method : jsstr) (c : CDPSession) : CDPSession :=
  let promise := length (written c) in
  let id := next c in
  {| next := S (next c);
     pending := <[id := promise]> (pending c);
     written := written c ++ [(id, method)];
     settled := settled c |}.

Definition outcomeOf (msg : Message) : Outcome :=
  match m_error msg with
  | Some message => Rejected message
  | None => Resolved (m_result msg)
  end.

(** The [message] handler the constructor installs. *)
Definition onMessage (msg : Message) (c : CDPSession) : CDPSession :=
  match m_id msg with
  | Some id =>
      if negb (id =? 0)%nat then
        match pending c !! id with
        | Some promise =>
            {| next := next c;
               pending := delete id (pending c);
               written := written c;
               settled := settled c ++ [(promise, outcomeOf msg)] |}
        | None => c
        end
      else c
  | None => c
  end.

(** What happens to a session: a request is sent or a message comes. *)
Inductive Event :=
| Sends (method : jsstr)
| Receives (msg : Message).

Definition step (c : CDPSession) (ev : Event) : CDPSession :=
  match ev with
  | Sends method => sendRequest method c
  | Receives msg => onMessage msg c
  end.

Definition run (evs : list Event) : CDPSession := foldl step connect evs.

(** The invariant of a session. *)
Record sound (evs : list Event) (c : CDPSession) : Prop := {
  sound_next : next c = S (length (written c));
  sound_written : ∀ k id method,
    written c !! k = Some (id, method) → id = S k;
  sound_pending : ∀ id k,
    pending c !! id = Some k → id = S k ∧ (k < length (written c))%nat;
  sound_once : NoDup ((settled c).*1);
  sound_settled : ∀ k o,
    (k, o) ∈ settled c →
    (k < length (written c))%nat ∧ pending c !! S k = None
    ∧ ∃ msg, Receives msg ∈ evs ∧ m_id msg = Some (S k) ∧ o = outcomeOf msg;
  sound_kept : ∀ k,
    (k < length (written c))%nat →
    k ∈ (settled c).*1 ∨ pending c !! S k = Some k
}.

End Cdp.
Export Cdp.

(** ** Tabs: [getCurrentTarget], [getTargetByIndex], [cmdTabs] *)

Module Tabs.

(** An entry of [/json/list]. *)
Record Target := {
  target_id : jsstr;
  target_type : jsstr;
  title : jsstr;
  url : jsstr
}.

(** [targets.filter(t => t.type === "page")] *)
Definition pagesOf (targets : list Target) : list Target :=
  List.filter (λ t, streq (target_type t) (lit "page")) targets.

(** A call that returns a value or throws an error with a message. *)
Inductive Completion (A : Type) :=
| Returns (a : A)
| Throws (message : jsstr).
Arguments Returns {A} a.
Arguments Throws {A} message.

Definition getCurrentTarget (targets : list Target) : Completion Target :=
  let pages := pagesOf targets in
  match pages with
  | [] => Throws (lit "No page tabs open")
  | first :: _ => Returns first
  end.

(** What [parseInt] gives: [NaN], an integer, or an infinity (when
    the digits go beyond every finite number). *)
Inductive ParsedInt :=
| NotANumber
| Integer (z : Z)
| Infinite (negative : bool).

(** The decimal digits of an integer. *)
Definition ofZ (z : Z) : jsstr :=
  if (z <? 0)%Z then lit "-" ++ ofNat (Z.abs_nat z) else ofNat (Z.abs_nat z).

Section Numbers.

(** [String(z)] beyond 2^53, where not every integer is a number and
    the digits printed are the shortest that read back as the same
    number, in exponent notation from 10^21 on: left to the engine. *)
Variable beyond : Z → jsstr.

(** [String(z)] for an integer: up to 2^53 in absolute value, every
    integer is a number and prints as its decimal digits. *)
Definition numberToString (z : Z) : jsstr :=
  if (Z.abs z <=? 2 ^ 53)%Z then ofZ z else beyond z.

Definition outOfRange (index : jsstr) (pages : list Target) : jsstr :=
  lit "Tab index " ++ index ++ lit " out of range (0-"
    ++ ofZ (Z.of_nat (length pages) - 1) ++ lit ")".

(** The value returned is [pages[index]], [None] for [undefined];
    [NaN] passes both comparisons and indexes nothing. *)
Definition getTargetByIndex (index : ParsedInt) (targets : list Target)
  : Completion (option Target) :=
  let pages := pagesOf targets in
  match index with
  | NotANumber => Returns None
  | Integer i =>
      if (i <? 0)%Z || (Z.of_nat (length pages) <=? i)%Z
      then Throws (outOfRange (numberToString i) pages)
      else Returns (pages !! Z.to_nat i)
  | Infinite negative =>
      Throws (outOfRange (if negative then lit "-Infinity" else lit "Infinity")
                         pages)
  end.

End Numbers.

(** [' — '] *)
Definition dash : jsstr := [32; 8212; 32].

Definition tabLine (i : nat) (t : Target) : jsstr :=
  lit "[" ++ ofNat i ++ lit "] " ++ or_else (title t) (lit "(untitled)")
    ++ dash ++ url t.

Definition cmdTabs (targets : list Target) : jsstr :=
  let pages := pagesOf targets in
  if (length pages =? 0)%nat then lit "No tabs open."
  else joinLines (imap tabLine pages).

End Tabs.
Export Tabs.

(** ** Further notions: what a scan leaves as it was *)

Module Untouched.

(** [e'] is [e] but for the stamp attribute. *)
Definition sameButStamp (e e' : Element) : Prop :=
  nid e' = nid e ∧ tagName e' = tagName e
  ∧ el_disabled e' = el_disabled e ∧ el_type e' = el_type e
  ∧ el_placeholder e' = el_placeholder e ∧ el_href e' = el_href e
  ∧ el_name e' = el_name e ∧ el_value e' = el_value e
  ∧ isContentEditable e' = isContentEditable e
  ∧ offsetParent e' = offsetParent e ∧ position e' = position e
  ∧ ∀ a, a ≠ stampAttr → getAttribute e' a = getAttribute e a.

(** What a scan does to an element: the old stamp goes, and a node
    that is listed receives its index. *)
Definition restamp (selector : option Selector) (p : Page) (e : Element) : Element :=
  match scanRoot selector (deepClearStamps (document p)) with
  | Some _ => stampFn 0 (indexed selector p) (removeAttribute stampAttr e)
  | None => removeAttribute stampAttr e
  end.

End Untouched.
Export Untouched.

(** * Properties *)


(** ** Lists *)

Section Lists.

Context {A B : Type}.

Lemma filter_flat_map (f : B → bool) (g : A → list B) (l : list A) :
  List.filter f (flat_map g l) = flat_map (λ x, List.filter f (g x)) l.
Proof.
  induction l as [|x l IH]; [done|]. simpl. by rewrite filter_app, IH.
Qed.

Lemma fmap_flat_map {C} (h : B → C) (g : A → list B) (l : list A) :
  h <$> flat_map g l = flat_map (λ x, h <$> g x) l.
Proof.
  induction l as [|x l IH]; [done|]. simpl. by rewrite fmap_app, IH.
Qed.

Lemma filter_fmap (f : B → bool) (h : A → B) (l : list A) :
  List.filter f (h <$> l) = h <$> List.filter (λ x, f (h x)) l.
Proof.
  induction l as [|x l IH]; [done|]. rewrite fmap_cons. simpl.
  destruct (f (h x)); rewrite ?fmap_cons; by rewrite IH.
Qed.

Lemma filter_filter (f g : A → bool) (l : list A) :
  List.filter f (List.filter g l) = List.filter (λ x, g x && f x) l.
Proof.
  induction l as [|x l IH]; [done|]. simpl.
  destruct (g x); simpl; [destruct (f x)|]; by rewrite IH.
Qed.

Lemma filter_none (f : A → bool) (l : list A) :
  (∀ x, In x l → f x = false) → List.filter f l = [].
Proof.
  induction l as [|x l IH]; intros Hl; [done|]. simpl.
  rewrite (Hl x) by (by left). apply IH. intros z Hz. apply Hl. by right.
Qed.

Lemma flat_map_onElem_ext (f g : Node → list B) (kids : list Child) :
  Forall (onChild (λ k, f k = g k)) kids →
  flat_map (onElem f) kids = flat_map (onElem g) kids.
Proof.
  induction 1 as [|c l Hc _ IH]; [done|]. simpl. rewrite IH.
  destruct c; simpl in *; [done | by rewrite Hc].
Qed.

Lemma head_flat_map (g : A → list B) (l : list A) :
  head (flat_map g l) = firstSome (λ x, head (g x)) l.
Proof.
  induction l as [|x l IH]; [done|]. simpl.
  destruct (g x) as [|y r]; simpl; [exact IH | done].
Qed.

End Lists.

(** ** The shadow-piercing walker *)

Section Walker.

Lemma subtree_self ancs n : (ancs, n) ∈ subtree ancs n.
Proof. destruct n; simpl. apply list_elem_of_here. Qed.

Lemma in_onElem {B} (f : Node → list B) (kids : list Child) (x : B) :
  x ∈ flat_map (onElem f) kids ↔ ∃ m, inr m ∈ kids ∧ x ∈ f m.
Proof.
  rewrite list_elem_of_In, in_flat_map. split.
  - intros [[t | m] [Hin Hx]]; simpl in Hx; [destruct Hx|].
    exists m. by rewrite !list_elem_of_In.
  - intros [m [Hin Hx]]. exists (inr m). by rewrite <- !list_elem_of_In.
Qed.

Lemma subtree_inv ancs n x :
  x ∈ subtree ancs n ↔
  x = (ancs, n) ∨ x ∈ flat_map (onElem (subtree (props n :: ancs))) (childNodes n).
Proof. destruct n as [e kids sh]; simpl. apply elem_of_cons. Qed.

Lemma shadowWalk_in m x :
  x ∈ shadowWalk m ↔
  (∃ s, shadowRoot m = Some s ∧ x ∈ walk (Fragment s))
  ∨ x ∈ flat_map (onElem shadowWalk) (childNodes m).
Proof.
  destruct m as [e kids [s|]]; simpl.
  - rewrite elem_of_app. split; (intros [H|H]; [left|by right]).
    + by exists s.
    + by destruct H as [s' [[= <-] H]].
  - split; [by right|]. intros [H|H]; [|done].
    by destruct H as [s' [[=] _]].
Qed.

(** Everything below the children of a root is met on the walk. *)
Lemma below_walk base kids ancs n :
  below base kids ancs n →
  (ancs, n) ∈ flat_map (onElem (subtree base)) kids
  ∨ (ancs, n) ∈ flat_map (onElem shadowWalk) kids.
Proof.
  induction 1 as [base kids n Hin
                 | base kids m ancs n Hin _ IH
                 | base kids m s ancs n Hin Hs _ IH].
  - left. apply in_onElem. exists n. split; [done | apply subtree_self].
  - destruct IH as [Hl | Hd].
    + left. apply in_onElem. exists m. split; [done|].
      apply subtree_inv. by right.
    + right. apply in_onElem. exists m. split; [done|].
      apply shadowWalk_in. by right.
  - right. apply in_onElem. exists m. split; [done|].
    apply shadowWalk_in. left. exists s. split; [done|].
    unfold walk. simpl. apply elem_of_app. destruct IH; [by left | by right].
Qed.

Lemma subtree_below m : ∀ base kids ancs n,
  inr m ∈ kids → (ancs, n) ∈ subtree base m → below base kids ancs n.
Proof.
  induction m as [e mk sh IHm _] using Node_ind.
  intros base kids ancs n Hm Hin.
  apply subtree_inv in Hin as [[= -> ->] | Hin]; [by apply below_here|].
  simpl in Hin. apply in_onElem in Hin as [m' [Hm' Hin]].
  apply below_light with (Elem e mk sh); [done|]. simpl.
  unfold onChildren in IHm. rewrite Forall_forall in IHm.
  apply (IHm (inr m')); [by apply list_elem_of_In | done | done].
Qed.

Lemma light_below base kids ancs n :
  (ancs, n) ∈ flat_map (onElem (subtree base)) kids → below base kids ancs n.
Proof.
  intros Hin. apply in_onElem in Hin as [m [Hm Hin]]. by apply subtree_below with m.
Qed.

Lemma shadowWalk_below m : ∀ base kids ancs n,
  inr m ∈ kids → (ancs, n) ∈ shadowWalk m → below base kids ancs n.
Proof.
  induction m as [e mk sh IHk IHs] using Node_ind.
  intros base kids ancs n Hm Hn.
  unfold onChildren in IHk. rewrite Forall_forall in IHk.
  apply shadowWalk_in in Hn as [[s [Hs Hn]] | Hn]; simpl in *.
  - subst sh. unfold onChildren in IHs. rewrite Forall_forall in IHs.
    apply below_shadow with (Elem e mk (Some s)) s; [done | done |].
    unfold walk in Hn. simpl in Hn.
    apply elem_of_app in Hn as [Hn | Hn]; [by apply light_below|].
    apply in_onElem in Hn as [m' [Hm' Hn]].
    by apply (IHs (inr m') (proj1 (list_elem_of_In _ _) Hm')).
  - apply in_onElem in Hn as [m' [Hm' Hn]].
    apply below_light with (Elem e mk sh); [done|].
    by apply (IHk (inr m') (proj1 (list_elem_of_In _ _) Hm')).
Qed.

(** The walk meets exactly the elements below the root, across shadow
    boundaries at any depth. *)
Lemma walk_below root ancs n :
  (ancs, n) ∈ walk root ↔ below (baseOf root) (kidsOf root) ancs n.
Proof.
  unfold walk. rewrite elem_of_app. split.
  - intros [Hn | Hn].
    + apply light_below. by destruct root as [kids | a [e kids sh]].
    + apply in_onElem in Hn as [m [Hm Hn]]. by apply shadowWalk_below with m.
  - intros Hb. apply below_walk in Hb.
    by destruct root as [kids | a [e kids sh]].
Qed.

Variable sel : Selector.

Lemma select_onElem (f : Node → list (list Element * Node)) kids :
  snd <$> List.filter (selects sel) (flat_map (onElem f) kids)
  = flat_map (onElem (λ n, snd <$> List.filter (selects sel) (f n))) kids.
Proof.
  induction kids as [|c l IH]; [done|]. simpl.
  rewrite filter_app, fmap_app, IH. by destruct c.
Qed.

(** The recursion of the source: the loop over the hosts appends the
    whole of [deepQueryAll(el.shadowRoot)]. *)
Lemma shadowQueryAll_unfold e kids sh :
  shadowQueryAll sel (Elem e kids sh) =
  match sh with
  | Some s => deepQueryAll (Fragment s) sel
  | None => []
  end ++ flat_map (onElem (shadowQueryAll sel)) kids.
Proof. reflexivity. Qed.

(** The results are the elements met on the walk that match, in the
    order of the walk. *)
Lemma shadowQueryAll_walk n :
  shadowQueryAll sel n = snd <$> List.filter (selects sel) (shadowWalk n).
Proof.
  induction n as [e kids sh IHk IHs] using Node_ind. simpl.
  rewrite filter_app, fmap_app. f_equal.
  - destruct sh as [s|]; [|done].
    rewrite filter_app, fmap_app. f_equal.
    rewrite select_onElem. by apply flat_map_onElem_ext.
  - rewrite select_onElem. by apply flat_map_onElem_ext.
Qed.

Lemma deepQueryAll_walk root :
  deepQueryAll root sel = snd <$> List.filter (selects sel) (walk root).
Proof.
  unfold deepQueryAll, walk, querySelectorAll, querySelectorAllCtx.
  rewrite filter_app, fmap_app, select_onElem. f_equal.
  apply flat_map_onElem_ext, Forall_forall. intros [t|k] _; simpl; [done|].
  apply shadowQueryAll_walk.
Qed.

Lemma deepQueryAll_in root n :
  n ∈ deepQueryAll root sel ↔
  ∃ ancs, below (baseOf root) (kidsOf root) ancs n
          ∧ matches sel ancs (props n) = true.
Proof.
  rewrite deepQueryAll_walk, list_elem_of_fmap. split.
  - intros [[ancs m] [-> Hin]]. exists ancs.
    apply list_elem_of_In, filter_In in Hin as [Hin Hsel].
    split; [by apply walk_below, list_elem_of_In | exact Hsel].
  - intros [ancs [Hb Hsel]]. exists (ancs, n). split; [done|].
    apply list_elem_of_In, filter_In.
    split; [by apply list_elem_of_In, walk_below | exact Hsel].
Qed.

(** Coverage: a matching node below the scan root, in its own tree or
    in a shadow tree nested at any depth under a descendant, is among
    the results of [deepQueryAll]. *)
Lemma deepQueryAll_complete root ancs n :
  below (baseOf root) (kidsOf root) ancs n →
  matches sel ancs (props n) = true →
  n ∈ deepQueryAll root sel.
Proof. intros Hb Hsel. apply deepQueryAll_in. by exists ancs. Qed.

Lemma firstSome_onElem_ext {B} (f g : Node → option B) (kids : list Child) :
  Forall (onChild (λ k, f k = g k)) kids →
  firstSome (onElemOpt f) kids = firstSome (onElemOpt g) kids.
Proof.
  induction 1 as [|c l Hc _ IH]; [done|]. simpl. rewrite IH.
  destruct c; simpl in *; [done | by rewrite Hc].
Qed.

Lemma head_onElem {B} (f : Node → list B) (kids : list Child) :
  head (flat_map (onElem f) kids) = firstSome (onElemOpt (λ n, head (f n))) kids.
Proof.
  rewrite head_flat_map. induction kids as [|c l IH]; [done|]. simpl.
  rewrite IH. by destruct c.
Qed.

End Walker.

(** [deepQueryStamp] returns the first result [deepQueryAll] would give
    for the stamp selector: both follow the same walk. *)
Lemma shadowQueryStamp_head idx n :
  shadowQueryStamp idx n = head (shadowQueryAll (stampSelector idx) n).
Proof.
  induction n as [e kids sh IHk IHs] using Node_ind. simpl.
  rewrite head_app, head_onElem.
  rewrite (firstSome_onElem_ext _ _ kids IHk).
  destruct sh as [s|]; [|done].
  rewrite head_app, head_onElem.
  by rewrite (firstSome_onElem_ext _ _ s IHs).
Qed.

Lemma deepQueryStamp_head root idx :
  deepQueryStamp root idx = head (deepQueryAll root (stampSelector idx)).
Proof.
  unfold deepQueryStamp, deepQueryAll. rewrite head_app, head_onElem.
  unfold querySelector.
  destruct (head (querySelectorAll root (stampSelector idx))); [done|].
  apply firstSome_onElem_ext, Forall_forall. intros [t|k] _; simpl; [done|].
  apply shadowQueryStamp_head.
Qed.

(** ** The scan loop: visibility and de-duplication *)

Section ScanLoop.

Variable top : option Node.

Lemma scanLoop_results l : ∀ st,
  results (scanLoop top l st)
  = results st ++ (describe <$> keptFrom top (seen st) l).
Proof.
  induction l as [|el l IH]; intros st; simpl.
  - by rewrite app_nil_r.
  - unfold scanLoop in *. simpl. unfold visit at 2.
    destruct (skipped el); [apply IH|].
    destruct (bool_decide (keyOf top el ∈ seen st)); [apply IH|].
    rewrite IH. simpl. by rewrite <- app_assoc.
Qed.

Lemma scanLoop_seen l : ∀ st,
  seen (scanLoop top l st) = seenAfter top (seen st) l.
Proof.
  induction l as [|el l IH]; intros st; [done|].
  unfold scanLoop, seenAfter in *. simpl. rewrite IH. unfold visit.
  destruct (skipped el); [done|].
  by destruct (bool_decide (keyOf top el ∈ seen st)).
Qed.

Lemma keptFrom_app l1 : ∀ seen l2,
  keptFrom top seen (l1 ++ l2)
  = keptFrom top seen l1 ++ keptFrom top (seenAfter top seen l1) l2.
Proof.
  induction l1 as [|el l1 IH]; intros seen l2; [done|]. simpl.
  destruct (skipped el); [apply IH|].
  destruct (bool_decide (keyOf top el ∈ seen)); [apply IH|].
  simpl. by rewrite IH.
Qed.


Lemma keptFrom_elem l : ∀ seen a, a ∈ keptFrom top seen l → a ∈ l.
Proof.
  induction l as [|el l IH]; intros seen a; simpl; [done|].
  destruct (skipped el); [intros ?%IH; by apply list_elem_of_further|].
  destruct (bool_decide (keyOf top el ∈ seen));
    [intros ?%IH; by apply list_elem_of_further|].
  intros [-> | Ha]%elem_of_cons;
    [apply list_elem_of_here | apply list_elem_of_further; by apply IH in Ha].
Qed.

Lemma keptFrom_fresh l : ∀ seen a,
  a ∈ keptFrom top seen l → skipped a = false ∧ keyOf top a ∉ seen.
Proof.
  induction l as [|el l IH]; intros seen a; simpl.
  - by intros ?%elem_of_nil.
  - destruct (skipped el) eqn:Hs; [apply IH|].
    destruct (bool_decide (keyOf top el ∈ seen)) eqn:Hk; [apply IH|].
    apply bool_decide_eq_false in Hk.
    intros [-> | Ha]%elem_of_cons; [done|].
    apply IH in Ha as [? Ha]. split; [done|].
    intros Hin. apply Ha, elem_of_union. by right.
Qed.

(** No two kept nodes share a key. *)
Lemma keptFrom_keys_NoDup l : ∀ seen,
  NoDup (keyOf top <$> keptFrom top seen l).
Proof.
  induction l as [|el l IH]; intros seen; simpl; [constructor|].
  destruct (skipped el); [apply IH|].
  destruct (bool_decide (keyOf top el ∈ seen)); [apply IH|].
  rewrite fmap_cons. apply NoDup_cons_2; [|apply IH].
  intros [b [Hb Hin]]%list_elem_of_fmap.
  apply keptFrom_fresh in Hin as [_ Hin]. rewrite Hb in Hin.
  apply Hin, elem_of_union. left. by apply elem_of_singleton.
Qed.


Lemma lit_modal : lit "modal" = [109; 111; 100; 97; 108].
Proof. reflexivity. Qed.

Lemma lit_page : lit "page" = [112; 97; 103; 101].
Proof. reflexivity. Qed.



End ScanLoop.

(** ** The stable sort by dialog membership *)

Section Sorting.

Variable top : option Node.

Lemma insertBy_inside x l :
  inDialog top x = true → insertBy (byRank top) x l = x :: l.
Proof.
  intros Hx. destruct l as [|y l]; [done|]. simpl.
  unfold byRank, dialogRank. rewrite Hx.
  by destruct (inDialog top y).
Qed.

Lemma insertBy_outside x l1 l2 :
  inDialog top x = false →
  Forall (λ y, inDialog top y = true) l1 →
  Forall (λ y, inDialog top y = false) l2 →
  insertBy (byRank top) x (l1 ++ l2) = l1 ++ x :: l2.
Proof.
  intros Hx H1 H2. induction H1 as [|y l1 Hy _ IH]; simpl.
  - destruct H2 as [|z l2 Hz _]; [done|]. simpl.
    unfold byRank, dialogRank. by rewrite Hx, Hz.
  - unfold byRank at 1, dialogRank. rewrite Hx, Hy. simpl. by rewrite IH.
Qed.

(** The sort moves the nodes inside the dialog to the front and keeps
    the order of the walk within each group. *)
Lemma sorted_partition l :
  sorted top l
  = List.filter (inDialog top) l ++ List.filter (λ x, negb (inDialog top x)) l.
Proof.
  unfold sorted, sortBy. fold (byRank top).
  induction l as [|x l IH]; [done|]. simpl. rewrite IH.
  destruct (inDialog top x) eqn:Hx; simpl.
  - by apply insertBy_inside.
  - apply insertBy_outside; [done | |]; apply Forall_forall; intros y Hy;
      apply filter_In in Hy as [_ Hy]; [done | by apply negb_true_iff].
Qed.

End Sorting.

(** ** The modal-scope resolver *)

Section Resolver.

Lemma lastWhere_snoc {A} (f : A → bool) l x :
  lastWhere f (l ++ [x]) = if f x then Some x else lastWhere f l.
Proof. unfold lastWhere. by rewrite foldl_app. Qed.

(** [l[l.length - 1]] on a filtered list is the last element that
    passes the filter. *)
Lemma lookup_last_filter {A} (f : A → bool) (l : list A) :
  List.filter f l !! (length (List.filter f l) - 1)%nat = lastWhere f l.
Proof.
  induction l as [|x l IH] using rev_ind; [done|].
  rewrite lastWhere_snoc, filter_app. simpl. destruct (f x).
  - apply list_lookup_middle. rewrite length_app. simpl. lia.
  - by rewrite app_nil_r.
Qed.

Lemma selects_dialog cn : selects dialogSelectors cn = dialogish (snd cn).
Proof.
  unfold selects, matches, dialogSelectors, roleSel, matchComplex, dialogish,
    hasRole, ariaModal. simpl.
  by rewrite !andb_true_r, orb_false_r, orb_assoc.
Qed.

Lemma allDialogs_filter doc :
  allDialogs doc
  = List.filter (λ d, dialogish d && rendered d) (inDocumentOrder doc).
Proof.
  unfold allDialogs, querySelectorAll, querySelectorAllCtx, inDocumentOrder.
  rewrite <- filter_filter. f_equal.
  rewrite filter_fmap. f_equal. apply filter_ext. intros cn. apply selects_dialog.
Qed.

Lemma realDialogs_filter doc :
  realDialogs doc
  = List.filter (λ d, rendered d && (hasRole "dialog" d || ariaModal d))
                (inDocumentOrder doc).
Proof.
  unfold realDialogs. rewrite allDialogs_filter, filter_filter.
  apply filter_ext. intros d. unfold dialogish, isRealDialog, hasRole, ariaModal.
  destruct (attrIs (props d) "role" (lit "dialog")),
    (attrIs (props d) "role" (lit "presentation")),
    (attrIs (props d) "aria-modal" (lit "true")), (rendered d); reflexivity.
Qed.

(** The resolver of the script is the resolver of section 4.3. *)
Lemma topDialog_resolve doc : topDialog doc = resolveDialog doc.
Proof.
  unfold topDialog, resolveDialog.
  pose proof (lookup_last_filter
    (λ d, rendered d && (hasRole "dialog" d || ariaModal d)) (inDocumentOrder doc)) as HR.
  rewrite <- realDialogs_filter in HR. rewrite <- HR.
  destruct (realDialogs doc) as [|d ds] eqn:Hreal.
  - simpl. rewrite allDialogs_filter.
    rewrite <- (lookup_last_filter (λ d, rendered d && hasRole "presentation" d)).
    rewrite realDialogs_filter in Hreal.
    assert (List.filter (λ d, dialogish d && rendered d) (inDocumentOrder doc)
            = List.filter (λ d, rendered d && hasRole "presentation" d)
                (inDocumentOrder doc)) as ->; [|done].
    apply filter_ext_in. intros d Hd.
    assert (rendered d && (hasRole "dialog" d || ariaModal d) = false) as Hnot.
    { apply not_true_is_false. intros Ht.
      assert (In d []) as [].
      rewrite <- Hreal. apply filter_In. by split. }
    unfold dialogish.
    destruct (hasRole "dialog" d), (hasRole "presentation" d), (ariaModal d),
      (rendered d); simpl in *; congruence.
  - assert ((0 <? length (d :: ds))%nat = true) as -> by (apply Nat.ltb_lt; simpl; lia).
    destruct (lookup_lt_is_Some_2 (d :: ds) (length (d :: ds) - 1)%nat) as [x Hx];
      [simpl; lia|]. by rewrite Hx.
Qed.

End Resolver.

(** ** Updates of the live tree *)

Section TreeUpdates.

Lemma mapChild_compose (f g : Element → Element) (kids : list Child) :
  Forall (onChild (λ k, mapNode f (mapNode g k) = mapNode (f ∘ g) k)) kids →
  List.map (mapChild f) (List.map (mapChild g) kids)
  = List.map (mapChild (f ∘ g)) kids.
Proof.
  induction 1 as [|c l Hc _ IH]; [done|]. simpl. rewrite IH.
  destruct c; simpl in *; [done | by rewrite Hc].
Qed.

Lemma mapNode_compose (f g : Element → Element) n :
  mapNode f (mapNode g n) = mapNode (f ∘ g) n.
Proof.
  induction n as [e kids sh IHk IHs] using Node_ind. simpl.
  change (List.map _ (List.map _ kids))
    with (List.map (mapChild f) (List.map (mapChild g) kids)).
  rewrite (mapChild_compose f g kids IHk). f_equal.
  destruct sh as [s|]; [|done].
  change (List.map _ (List.map _ s))
    with (List.map (mapChild f) (List.map (mapChild g) s)).
  by rewrite (mapChild_compose f g s IHs).
Qed.

Lemma mapChild_ext (f g : Element → Element) (kids : list Child) :
  Forall (onChild (λ k, mapNode f k = mapNode g k)) kids →
  List.map (mapChild f) kids = List.map (mapChild g) kids.
Proof.
  induction 1 as [|c l Hc _ IH]; [done|]. simpl. rewrite IH.
  destruct c; simpl in *; [done | by rewrite Hc].
Qed.

Lemma mapNode_ext (f g : Element → Element) n :
  (∀ e, f e = g e) → mapNode f n = mapNode g n.
Proof.
  intros Hfg. induction n as [e kids sh IHk IHs] using Node_ind. simpl.
  change (List.map _ kids) with (List.map (mapChild f) kids) at 1.
  rewrite (mapChild_ext f g kids IHk), Hfg. f_equal.
  destruct sh as [s|]; [|done].
  change (List.map _ s) with (List.map (mapChild f) s) at 1.
  by rewrite (mapChild_ext f g s IHs).
Qed.

Lemma mapDocument_compose (f g : Element → Element) (doc : list Child) :
  List.map (mapChild f) (List.map (mapChild g) doc)
  = List.map (mapChild (f ∘ g)) doc.
Proof.
  apply mapChild_compose, Forall_forall. intros [t|k] _; simpl; [done|].
  apply mapNode_compose.
Qed.

Lemma mapDocument_ext (f g : Element → Element) (doc : list Child) :
  (∀ e, f e = g e) →
  List.map (mapChild f) doc = List.map (mapChild g) doc.
Proof.
  intros Hfg. apply mapChild_ext, Forall_forall. intros [t|k] _; simpl; [done|].
  by apply mapNode_ext.
Qed.

Lemma remove_set a v e :
  removeAttribute a (setAttribute a v e) = removeAttribute a e.
Proof. unfold removeAttribute, setAttribute. simpl. by rewrite delete_insert_eq. Qed.

Lemma remove_remove a e :
  removeAttribute a (removeAttribute a e) = removeAttribute a e.
Proof. unfold removeAttribute. simpl. by rewrite delete_delete_eq. Qed.

Lemma attrOr_set_other a v e a' :
  a ≠ a' → attrOr (setAttribute a v e) a' = attrOr e a'.
Proof.
  intros Hne. unfold attrOr, getAttribute, setAttribute. simpl.
  by rewrite lookup_insert_ne.
Qed.

(** Clearing removes whatever stamp a scan has written. *)
Lemma clear_setStamp id idx doc :
  deepClearStamps (setStamp id idx doc) = deepClearStamps doc.
Proof.
  unfold deepClearStamps, setStamp. rewrite mapDocument_compose.
  apply mapDocument_ext. intros e. unfold compose, forElement.
  case_bool_decide; [apply remove_set | done].
Qed.

Lemma clear_clear doc :
  deepClearStamps (deepClearStamps doc) = deepClearStamps doc.
Proof.
  unfold deepClearStamps. rewrite mapDocument_compose.
  apply mapDocument_ext. intros e. apply remove_remove.
Qed.

Lemma clear_scanLoop top l : ∀ st,
  deepClearStamps (live (scanLoop top l st)) = deepClearStamps (live st).
Proof.
  induction l as [|el l IH]; intros st; [done|].
  unfold scanLoop in *. simpl. rewrite IH. unfold visit.
  destruct (skipped el); [done|].
  destruct (bool_decide (keyOf top el ∈ seen st)); [done|].
  apply clear_setStamp.
Qed.

Lemma clear_ELEMENTS_JS selector p :
  deepClearStamps (document (snd (ELEMENTS_JS selector p)))
  = deepClearStamps (document p).
Proof.
  unfold ELEMENTS_JS.
  destruct (scanRoot selector (deepClearStamps (document p))); simpl.
  - rewrite clear_scanLoop. simpl. apply clear_clear.
  - apply clear_clear.
Qed.

(** A scan reads the page only after it has cleared the stamps. *)
Lemma ELEMENTS_JS_cleared selector p q :
  deepClearStamps (document p) = deepClearStamps (document q) →
  ELEMENTS_JS selector p = ELEMENTS_JS selector q.
Proof. unfold ELEMENTS_JS. by intros ->. Qed.

Lemma flat_map_mapChild {A B} (f : Element → Element)
    (g' : Node → list B) (g : Node → list A) (h : A → B) (kids : list Child) :
  Forall (onChild (λ k, g' (mapNode f k) = h <$> g k)) kids →
  flat_map (onElem g') (List.map (mapChild f) kids)
  = h <$> flat_map (onElem g) kids.
Proof.
  induction 1 as [|c l Hc _ IH]; [done|]. simpl. rewrite IH, fmap_app.
  destruct c; simpl in *; [done | by rewrite Hc].
Qed.

Lemma subtree_map f n : ∀ ancs,
  subtree (f <$> ancs) (mapNode f n) = liftCtx f <$> subtree ancs n.
Proof.
  induction n as [e kids sh IHk _] using Node_ind. intros ancs.
  cbn [subtree mapNode]. rewrite fmap_cons. f_equal.
  change (List.map _ kids) with (List.map (mapChild f) kids).
  apply flat_map_mapChild. eapply Forall_impl; [|exact IHk].
  intros [t|k]; simpl; [done|]. intros Hk. apply (Hk (e :: ancs)).
Qed.

Lemma shadowWalk_map f n :
  shadowWalk (mapNode f n) = liftCtx f <$> shadowWalk n.
Proof.
  induction n as [e kids sh IHk IHs] using Node_ind. simpl.
  rewrite fmap_app. f_equal.
  - destruct sh as [s|]; [|done]. rewrite fmap_app.
    change (List.map _ s) with (List.map (mapChild f) s). f_equal.
    + apply flat_map_mapChild, Forall_forall. intros [t|k] _; simpl; [done|].
      apply (subtree_map f k []).
    + by apply flat_map_mapChild.
  - change (List.map _ kids) with (List.map (mapChild f) kids).
    by apply flat_map_mapChild.
Qed.

Lemma walk_map f doc :
  walk (Fragment (List.map (mapChild f) doc))
  = liftCtx f <$> walk (Fragment doc).
Proof.
  unfold walk. simpl. rewrite fmap_app. f_equal.
  - apply flat_map_mapChild, Forall_forall. intros [t|k] _; simpl; [done|].
    apply (subtree_map f k []).
  - apply flat_map_mapChild, Forall_forall. intros [t|k] _; simpl; [done|].
    apply shadowWalk_map.
Qed.

Lemma props_mapNode f n : props (mapNode f n) = f (props n).
Proof. by destruct n. Qed.

(** After clearing, nothing on the page carries a stamp. *)
Lemma unstamped_clear doc : unstamped (deepClearStamps doc).
Proof.
  intros ancs n Hn. unfold deepClearStamps in Hn. rewrite walk_map in Hn.
  apply list_elem_of_fmap in Hn as [[a m] [[= -> ->] _]]. simpl.
  rewrite props_mapNode. unfold getAttribute, removeAttribute. simpl.
  apply lookup_delete_eq.
Qed.

End TreeUpdates.

(** ** The scan as a whole *)

Lemma ELEMENTS_JS_results selector p :
  fst (ELEMENTS_JS selector p) =
  match scanRoot selector (deepClearStamps (document p)) with
  | Some _ => ScanResults (describe <$> indexed selector p)
  | None => SelectorNotFound (default [] selector)
  end.
Proof.
  unfold ELEMENTS_JS, indexed, candidates, activeDialog.
  destruct (scanRoot selector (deepClearStamps (document p))); [|done].
  simpl. by rewrite scanLoop_results.
Qed.

(** * The properties of the specification *)

(** The shadow root of the query root itself plays no part in the result
    of [deepQueryAll]: only the descendants of the root are asked for
    their shadow roots. *)
Lemma deepQueryAll_root_shadow ancs e kids sh sh' sel :
  deepQueryAll (Within ancs (Elem e kids sh)) sel
  = deepQueryAll (Within ancs (Elem e kids sh')) sel.
Proof. reflexivity. Qed.

(** C1, at the input where the code departs from it.  Scoping the scan to
    the shadow host [c1] of the end-to-end page: the button in the host's
    shadow root is reachable from the scan root and matches the
    interactive selectors, yet [deepQueryAll] does not return it and the
    scan reports no element at all, because the walker looks for shadow
    roots on the descendants of its root and never on the root itself. *)
Theorem scoped_host_shadow_unreached :
  ∃ root ancs,
    scanRoot (Some [tagSel "c1"]) (deepClearStamps (document shadowPage)) = Some root
    ∧ reachable root ancs buttonGo
    ∧ matches interactiveSelectors ancs (props buttonGo) = true
    ∧ (buttonGo ∉ deepQueryAll root interactiveSelectors)
    ∧ fst (ELEMENTS_JS (Some [tagSel "c1"]) shadowPage) = ScanResults [].
Proof.
  exists (Within [element 0 "BODY" []] hostC1), [].
  split; [by vm_compute|]. split; [|split; [by vm_compute|split]].
  - right. exists [inr anchorA; inr buttonGo]. split; [done|].
    apply below_here. apply list_elem_of_further, list_elem_of_here.
  - assert (deepQueryAll (Within [element 0 "BODY" []] hostC1) interactiveSelectors = [])
      as Hnone by (vm_compute; reflexivity).
    rewrite Hnone. apply not_elem_of_nil.
  - by vm_compute.
Qed.

(** The document-rooted scan of the same page does find both controls of
    the shadow root, and a button three shadow roots deep is listed
    exactly like the same button at top level. *)
Example shadow_page_scan :
  fst (ELEMENTS_JS None shadowPage)
  = ScanResults [ {| d_label := lit "link";
                     d_desc := lit "A" ++ arrow ++ lit "https://x/a" |};
                  {| d_label := lit "button"; d_desc := lit "Go" |} ].
Proof. vm_compute. reflexivity. Qed.

Example three_levels_deep :
  fst (ELEMENTS_JS None deepPage) = fst (ELEMENTS_JS None flatPage)
  ∧ fst (ELEMENTS_JS None deepPage)
    = ScanResults [ {| d_label := lit "button"; d_desc := lit "Go" |} ]
  ∧ (props <$> lookupIndex (snd (ELEMENTS_JS None deepPage)) 0)
    = (props <$> lookupIndex (snd (ELEMENTS_JS None flatPage)) 0).
Proof. vm_compute. auto. Qed.




(** On the sample page the two look-alike buttons of the dialog collapse
    to one entry, and the page-level button of the same label and text
    keeps its own entry after it. *)
Example modal_page_scan :
  candidates None modalPage = [modalSave; modalSaveAgain; pageSave]
  ∧ indexed None modalPage = [modalSave; pageSave]
  ∧ fst (ELEMENTS_JS None modalPage)
    = ScanResults [ {| d_label := lit "button"; d_desc := lit "Save" |};
                    {| d_label := lit "button"; d_desc := lit "Save" |} ].
Proof. vm_compute. auto. Qed.

(** C3.  The active dialog of a scan is the one section 4.3 describes,
    resolved in the document order of the document's own tree, on the
    document as the scan sees it (stamps cleared); the candidates are
    visited with those the dialog contains first, each group in the order
    of the walk; the result lists the kept nodes in that order, the i-th
    under index i; hence a node inside the dialog always receives a lower
    index than a node outside it. *)
Theorem modal_bias selector p root :
  scanRoot selector (deepClearStamps (document p)) = Some root →
  activeDialog p = resolveDialog (deepClearStamps (document p))
  ∧ fst (ELEMENTS_JS selector p) = ScanResults (describe <$> indexed selector p)
  ∧ candidates selector p
    = List.filter (inDialog (activeDialog p))
        (deepQueryAll root interactiveSelectors)
      ++ List.filter (λ el, negb (inDialog (activeDialog p) el))
           (deepQueryAll root interactiveSelectors)
  ∧ (∀ i j a b,
       indexed selector p !! i = Some a →
       indexed selector p !! j = Some b →
       inDialog (activeDialog p) a = true →
       inDialog (activeDialog p) b = false →
       (i < j)%nat).
Proof.
  intros Hroot.
  assert (candidates selector p
    = List.filter (inDialog (activeDialog p))
        (deepQueryAll root interactiveSelectors)
      ++ List.filter (λ el, negb (inDialog (activeDialog p) el))
           (deepQueryAll root interactiveSelectors)) as Hcands.
  { unfold candidates. rewrite Hroot. apply sorted_partition. }
  split; [apply topDialog_resolve|].
  split; [by rewrite ELEMENTS_JS_results, Hroot|]. split; [exact Hcands|].
  intros i j a b Ha Hb Hin Hout. unfold indexed in Ha, Hb.
  rewrite Hcands, keptFrom_app in Ha, Hb.
  apply lookup_app_Some in Ha as [Ha | [_ Ha]].
  - apply lookup_app_Some in Hb as [Hb | [Hj _]].
    + apply list_elem_of_lookup_2, keptFrom_elem, list_elem_of_In, filter_In in Hb.
      destruct Hb as [_ Hb]. congruence.
    + apply lookup_lt_Some in Ha. lia.
  - apply list_elem_of_lookup_2, keptFrom_elem, list_elem_of_In, filter_In in Ha.
    destruct Ha as [_ Ha]. rewrite Hin in Ha. discriminate.
Qed.

Lemma modal_bias_witness :
  activeDialog modalPage = resolveDialog (deepClearStamps (document modalPage))
  ∧ fst (ELEMENTS_JS None modalPage)
    = ScanResults (describe <$> indexed None modalPage)
  ∧ candidates None modalPage
    = List.filter (inDialog (activeDialog modalPage))
        (deepQueryAll (Fragment (deepClearStamps (document modalPage)))
           interactiveSelectors)
      ++ List.filter (λ el, negb (inDialog (activeDialog modalPage) el))
           (deepQueryAll (Fragment (deepClearStamps (document modalPage)))
              interactiveSelectors)
  ∧ (∀ i j a b,
       indexed None modalPage !! i = Some a →
       indexed None modalPage !! j = Some b →
       inDialog (activeDialog modalPage) a = true →
       inDialog (activeDialog modalPage) b = false →
       (i < j)%nat).
Proof.
  apply (modal_bias None modalPage
           (Fragment (deepClearStamps (document modalPage)))).
  reflexivity.
Defined.

(** C7.  A second scan of the page the first scan left behind starts
    from the same stamp-free document as the first (every stamp written
    by the first run is removed before anything is read), returns the
    same descriptors in the same order and leaves the same page. *)
Theorem scan_idempotent selector p :
  deepClearStamps (document (snd (ELEMENTS_JS selector p)))
    = deepClearStamps (document p)
  ∧ unstamped (deepClearStamps (document (snd (ELEMENTS_JS selector p))))
  ∧ fst (ELEMENTS_JS selector (snd (ELEMENTS_JS selector p)))
    = fst (ELEMENTS_JS selector p)
  ∧ snd (ELEMENTS_JS selector (snd (ELEMENTS_JS selector p)))
    = snd (ELEMENTS_JS selector p).
Proof.
  pose proof (clear_ELEMENTS_JS selector p) as Hclear.
  split; [exact Hclear|]. split; [apply unstamped_clear|].
  by rewrite (ELEMENTS_JS_cleared selector _ p Hclear).
Qed.

(** ** Dialogs and shadow trees *)

Section LightDocument.

Lemma flat_map_lightChild {A B}
    (g' : Node → list B) (g : Node → list A) (h : A → B) (kids : list Child) :
  Forall (onChild (λ k, g' (lightNode k) = h <$> g k)) kids →
  flat_map (onElem g') (List.map lightChild kids)
  = h <$> flat_map (onElem g) kids.
Proof.
  induction 1 as [|c l Hc _ IH]; [done|]. simpl. rewrite IH, fmap_app.
  destruct c; simpl in *; [done | by rewrite Hc].
Qed.

Lemma subtree_light n : ∀ ancs,
  subtree ancs (lightNode n) = liftLight <$> subtree ancs n.
Proof.
  induction n as [e kids sh IHk _] using Node_ind. intros ancs.
  cbn [subtree lightNode]. rewrite fmap_cons. f_equal.
  change (List.map _ kids) with (List.map lightChild kids).
  apply flat_map_lightChild. eapply Forall_impl; [|exact IHk].
  intros [t|k]; simpl; [done|]. intros Hk. apply (Hk (e :: ancs)).
Qed.

Lemma props_lightNode n : props (lightNode n) = props n.
Proof. by destruct n. Qed.

Lemma descendants_light doc :
  descendants (Fragment (lightDocument doc))
  = liftLight <$> descendants (Fragment doc).
Proof.
  simpl. apply flat_map_lightChild, Forall_forall.
  intros [t|k] _; simpl; [done|]. apply subtree_light.
Qed.

Lemma querySelectorAll_light doc sel :
  querySelectorAll (Fragment (lightDocument doc)) sel
  = lightNode <$> querySelectorAll (Fragment doc) sel.
Proof.
  unfold querySelectorAll, querySelectorAllCtx.
  rewrite descendants_light, filter_fmap, <- !list_fmap_compose.
  f_equal. apply filter_ext. intros [a n]. unfold selects. simpl.
  by rewrite props_lightNode.
Qed.

Lemma allDialogs_light doc :
  allDialogs (lightDocument doc) = lightNode <$> allDialogs doc.
Proof.
  unfold allDialogs. rewrite querySelectorAll_light, filter_fmap.
  f_equal. apply filter_ext. intros n. unfold rendered.
  by rewrite props_lightNode.
Qed.

Lemma realDialogs_light doc :
  realDialogs (lightDocument doc) = lightNode <$> realDialogs doc.
Proof.
  unfold realDialogs. rewrite allDialogs_light, filter_fmap.
  f_equal. apply filter_ext. intros n. unfold isRealDialog.
  by rewrite props_lightNode.
Qed.

Lemma topDialog_light doc :
  topDialog (lightDocument doc) = lightNode <$> topDialog doc.
Proof.
  unfold topDialog.
  rewrite realDialogs_light, allDialogs_light, !length_fmap, !list_lookup_fmap.
  by destruct (0 <? length (realDialogs doc))%nat.
Qed.

Lemma contains_light d el : contains (lightNode d) el = contains d el.
Proof.
  unfold contains. rewrite subtree_light, <- list_fmap_compose.
  apply bool_decide_ext. erewrite (list_fmap_ext _ (nid ∘ props ∘ snd)); [done|].
  intros i [a n] _. simpl. by rewrite props_lightNode.
Qed.

Lemma topDialog_queried doc d :
  topDialog doc = Some d → d ∈ querySelectorAll (Fragment doc) dialogSelectors.
Proof.
  unfold topDialog, realDialogs.
  destruct (0 <? length _)%nat; intros Hd%list_elem_of_lookup_2.
  - apply list_elem_of_In, filter_In in Hd as [Hd _].
    apply filter_In in Hd as [Hd _]. by apply list_elem_of_In.
  - apply list_elem_of_In, filter_In in Hd as [Hd _]. by apply list_elem_of_In.
Qed.

End LightDocument.

(** C8.  The active dialog is taken from the results of the plain query
    on the document; where identities are unique, no node met inside a
    shadow tree is ever the active dialog; the active dialog is the one
    the same document would give with every shadow tree removed, and so
    is the dialog membership of every node, on which ordering and
    de-duplication scope rest: what a shadow tree contains never takes
    part. *)
Theorem dialog_from_document_only doc :
  match topDialog doc with
  | Some d => d ∈ querySelectorAll (Fragment doc) dialogSelectors
  | None => True
  end
  ∧ (∀ ancs n,
       uniqueIds doc →
       (ancs, n) ∈ flat_map (onElem shadowWalk) doc →
       topDialog doc ≠ Some n)
  ∧ topDialog (lightDocument doc) = lightNode <$> topDialog doc
  ∧ (∀ el, inDialog (topDialog doc) el
           = inDialog (topDialog (lightDocument doc)) el)
  ∧ (∀ el, scopeOf (topDialog doc) el
           = scopeOf (topDialog (lightDocument doc)) el)
  ∧ (∀ l, sorted (topDialog doc) l = sorted (topDialog (lightDocument doc)) l).
Proof.
  assert (∀ el, inDialog (topDialog doc) el
                = inDialog (topDialog (lightDocument doc)) el) as Hin.
  { intros el. rewrite topDialog_light.
    destruct (topDialog doc) as [d|]; simpl; [|done]. by rewrite contains_light. }
  split; [|split; [|split; [apply topDialog_light|split; [exact Hin|split]]]].
  - destruct (topDialog doc) as [d|] eqn:Hd; [|done]. by apply topDialog_queried.
  - intros ancs n Hu Hshadow Htop.
    apply topDialog_queried, list_elem_of_fmap in Htop as [[a m] [Hn Hq]].
    simpl in Hn. subst m.
    apply list_elem_of_In, filter_In in Hq as [Hq _]. apply list_elem_of_In in Hq.
    unfold uniqueIds, walk in Hu. rewrite fmap_app in Hu.
    apply list.NoDup_app in Hu as [_ [Hsep _]].
    apply (Hsep (nid (props n))).
    + by apply (list_elem_of_fmap_2 (nid ∘ props ∘ snd) _ (a, n)).
    + by apply (list_elem_of_fmap_2 (nid ∘ props ∘ snd) _ (ancs, n)).
  - intros el. unfold scopeOf. by rewrite Hin.
  - intros l. rewrite !sorted_partition. f_equal; apply filter_ext; intros el;
      by rewrite Hin.
Qed.

(** A dialog inside a shadow root is not the active dialog: the button
    it holds is listed after the page-level button, in the page scope. *)
Example shadow_dialog_ignored :
  activeDialog shadowDialogPage = None
  ∧ candidates None shadowDialogPage = [pageSave; modalSave]
  ∧ indexed None shadowDialogPage = [pageSave].
Proof. vm_compute. auto. Qed.

(** ** Descriptions *)

Section Descriptions.

Lemma collapseFrom_length b s : (length (collapseFrom b s) ≤ length s)%nat.
Proof.
  revert b. induction s as [|c s IH]; intros b; simpl; [lia|].
  destruct (isWhite c); [destruct b|]; simpl;
    [pose proof (IH true) | pose proof (IH true) | pose proof (IH false)]; lia.
Qed.

Lemma collapseFrom_true_head s :
  match collapseFrom true s with d :: _ => negb (isWhite d) | [] => true end = true.
Proof.
  induction s as [|c s IH]; simpl; [done|].
  destruct (isWhite c) eqn:Hc; [exact IH|]. simpl. by rewrite Hc.
Qed.

Lemma collapseFrom_collapsed s : ∀ b, collapsed (collapseFrom b s) = true.
Proof.
  induction s as [|c s IH]; intros b; simpl; [done|].
  destruct (isWhite c) eqn:Hc.
  - destruct b; [apply IH|]. simpl.
    rewrite collapseFrom_true_head, IH. reflexivity.
  - simpl. by rewrite Hc, IH.
Qed.

Lemma textOf_length el : (length (textOf el) ≤ 80)%nat.
Proof.
  unfold textOf, collapseWhite, slice0.
  etransitivity; [apply collapseFrom_length|]. rewrite length_take. lia.
Qed.

Lemma valueOf_length e : (length (valueOf e) ≤ 40)%nat.
Proof.
  unfold valueOf, slice0.
  destruct (_ || _); [rewrite length_take|simpl]; lia.
Qed.

Lemma shortHref_length h : (length (shortHref h) ≤ 60)%nat.
Proof.
  unfold shortHref, slice0. destruct (60 <? length h)%nat eqn:Hh.
  - rewrite length_app, length_take.
    change (length (lit "...")) with 3%nat. lia.
  - apply Nat.ltb_ge in Hh. lia.
Qed.

(** The chain of [||] picks the first non-empty string. *)
Lemma or_else_first el :
  or_else (attrOr (props el) "aria-label")
    (or_else (textOf el)
       (or_else (el_placeholder (props el)) (or_else (el_name (props el)) [])))
  = baseDesc el.
Proof.
  unfold baseDesc, firstNonEmpty, or_else. simpl.
  destruct (truthy (attrOr (props el) "aria-label")); [done|].
  destruct (truthy (textOf el)); [done|].
  destruct (truthy (el_placeholder (props el))); [done|].
  destruct (el_name (props el)); done.
Qed.

Lemma descOf_parts el :
  descOf el
  = baseDesc el ++ valuePart el ++ hrefPart el (baseDesc el ++ valuePart el).
Proof.
  unfold descOf. rewrite or_else_first.
  assert ((if truthy (valueOf (props el))
              && negb (includes (baseDesc el) (valueOf (props el)))
           then baseDesc el
                ++ (if truthy (baseDesc el)
                    then lit " [" ++ valueOf (props el) ++ lit "]"
                    else valueOf (props el))
           else baseDesc el)
          = baseDesc el ++ valuePart el) as ->.
  { unfold valuePart.
    destruct (truthy (valueOf (props el))); simpl; [|by rewrite app_nil_r].
    destruct (includes (baseDesc el) (valueOf (props el))); simpl;
      [by rewrite app_nil_r | done]. }
  unfold hrefPart, linked, tagOf.
  destruct (streq _ (lit "a") && truthy (el_href (props el))
            && negb (startsWith (el_href (props el)) (lit "javascript:")));
    simpl.
  - by rewrite <- app_assoc.
  - by rewrite app_nil_r.
Qed.

End Descriptions.

(** C6, as the code has it.  The description is the first non-empty of
    aria-label, text (trimmed, cut at 80 units, white space collapsed),
    placeholder and name; then the value of an input, select or textarea
    (its first 40 units), when it is non-empty and not already contained,
    in brackets after a non-empty description and bare after an empty
    one; then, for an anchor whose href is non-empty and does not start
    with [javascript:], the href shortened to at most 60 units, after an
    arrow when something precedes it; the entry holds the first 120
    units of the whole. *)
Theorem description_derivation el :
  descOf el
    = baseDesc el ++ valuePart el ++ hrefPart el (baseDesc el ++ valuePart el)
  ∧ d_desc (describe el) = slice0 120 (descOf el)
  ∧ (length (textOf el) ≤ 80)%nat
  ∧ collapsed (textOf el) = true
  ∧ (length (valueOf (props el)) ≤ 40)%nat
  ∧ (length (shortHref (el_href (props el))) ≤ 60)%nat
  ∧ (length (d_desc (describe el)) ≤ 120)%nat.
Proof.
  split; [apply descOf_parts|]. split; [done|].
  split; [apply textOf_length|].
  split; [apply collapseFrom_collapsed|].
  split; [apply valueOf_length|].
  split; [apply shortHref_length|].
  change (d_desc (describe el)) with (slice0 120 (descOf el)).
  unfold slice0. rewrite length_take. lia.
Qed.

(** C6, as stated, fails on an anchor with a script href, which gets no
    href suffix, and on an input that has nothing but a value, which is
    described by the bare value. *)
Lemma description_as_stated_fails :
  d_desc (describe scriptAnchor) = lit "Menu"
  ∧ d_desc (describe scriptAnchor) ≠ descriptionAsStated scriptAnchor
  ∧ d_desc (describe valueInput) = lit "hello"
  ∧ d_desc (describe valueInput) ≠ descriptionAsStated valueInput.
Proof.
  split; [by vm_compute|]. split; [by vm_compute|].
  split; [by vm_compute|]. by vm_compute.
Qed.

(** ** Stamps on the page *)

Section Stamps.

Lemma needsStamp_any : needsStamp [([HasAttr stampAttr], [])].
Proof.
  intros ancs e. unfold matches, matchComplex. simpl.
  rewrite !andb_true_r, orb_false_r. apply bool_decide_eq_true.
Qed.

Lemma needsStamp_idx idx : needsStamp (stampSelector idx).
Proof.
  intros ancs e. unfold matches, matchComplex, stampSelector. simpl.
  rewrite !andb_true_r, orb_false_r. unfold attrIs.
  intros H%bool_decide_eq_true. by rewrite H.
Qed.

Lemma unstamped_deepQueryAll doc sel :
  unstamped doc → needsStamp sel → deepQueryAll (Fragment doc) sel = [].
Proof.
  intros Hdoc Hsel. rewrite deepQueryAll_walk.
  destruct (List.filter (selects sel) (walk (Fragment doc))) as [|[a n] l] eqn:Hf;
    [done|].
  assert (In (a, n) (List.filter (selects sel) (walk (Fragment doc)))) as Hin
    by (rewrite Hf; by left).
  apply filter_In in Hin as [Hin Hm]. apply list_elem_of_In, Hdoc in Hin.
  apply Hsel in Hm. simpl in Hm. rewrite Hin in Hm. by destruct Hm.
Qed.

Lemma unstamped_querySelector doc sel :
  unstamped doc → needsStamp sel → querySelector (Fragment doc) sel = None.
Proof.
  intros Hdoc Hsel. pose proof (unstamped_deepQueryAll doc sel Hdoc Hsel) as Hd.
  unfold deepQueryAll in Hd. apply app_eq_nil in Hd as [Hd _].
  unfold querySelector. by rewrite Hd.
Qed.

(** The probe of [ensureIndexed] finds nothing on a page without stamps. *)
Lemma unstamped_hasStamps p : unstamped (document p) → hasStamps p = false.
Proof.
  intros Hdoc. unfold hasStamps.
  rewrite (unstamped_querySelector _ _ Hdoc needsStamp_any).
  rewrite deepQueryStamp_head, (unstamped_deepQueryAll _ _ Hdoc (needsStamp_idx 0)).
  simpl. by destruct (bjsDeepQuery p).
Qed.

Lemma filter_unique {A K} `{EqDecision K} (k : A → K) (l : list A) (x : A) :
  NoDup (k <$> l) → x ∈ l →
  List.filter (λ y, bool_decide (k y = k x)) l = [x].
Proof.
  induction l as [|y l IH]; intros Hnd Hx; [by apply elem_of_nil in Hx|].
  rewrite fmap_cons in Hnd. apply NoDup_cons_1_1 in Hnd as Hy.
  apply NoDup_cons_1_2 in Hnd.
  assert (∀ z, z ∈ l → k z ≠ k y) as Hfresh.
  { intros z Hz Heq. apply Hy. rewrite <- Heq. by apply list_elem_of_fmap_2. }
  simpl. apply elem_of_cons in Hx as [-> | Hx].
  - rewrite bool_decide_eq_true_2 by done. f_equal.
    apply filter_none. intros z Hz.
    apply bool_decide_eq_false_2, Hfresh. by apply list_elem_of_In.
  - rewrite bool_decide_eq_false_2; [by apply IH|].
    intros Heq. by apply (Hfresh x).
Qed.

Lemma textContent_mapNode f n : textContent (mapNode f n) = textContent n.
Proof.
  induction n as [e kids sh IHk _] using Node_ind. simpl.
  induction IHk as [|c l Hc _ IH]; [done|]. simpl. rewrite IH.
  destruct c; simpl in *; [done | by rewrite Hc].
Qed.

Lemma uniqueIds_clear doc : uniqueIds doc → uniqueIds (deepClearStamps doc).
Proof.
  unfold uniqueIds, deepClearStamps. rewrite walk_map, <- list_fmap_compose.
  intros Hu. erewrite list_fmap_ext; [exact Hu|].
  intros i [a n] _. simpl. by rewrite props_mapNode.
Qed.

Lemma scanLoop_visible top l : ∀ st,
  scanLoop top l st
  = scanLoop top (List.filter (λ el, negb (skipped el)) l) st.
Proof.
  induction l as [|el l IH]; intros st; [done|].
  unfold scanLoop in *. simpl. destruct (skipped el) eqn:Hs; simpl.
  - unfold visit at 2. rewrite Hs. apply IH.
  - apply IH.
Qed.

Lemma sorted_elem top l x : x ∈ sorted top l → x ∈ l.
Proof.
  rewrite sorted_partition, elem_of_app, !list_elem_of_In, !filter_In. tauto.
Qed.

(** A candidate of a scan of the whole document is met on the walk of
    the cleared document. *)
Lemma candidates_walk p b :
  b ∈ candidates None p →
  ∃ a, (a, b) ∈ walk (Fragment (deepClearStamps (document p))).
Proof.
  unfold candidates. simpl. intros Hb%sorted_elem.
  rewrite deepQueryAll_walk in Hb.
  apply list_elem_of_fmap in Hb as [[a n] [-> Hin]]. exists a.
  apply list_elem_of_In, filter_In in Hin as [Hin _]. by apply list_elem_of_In.
Qed.

(** On a stamp-free page with unique identities, after one element has
    been stamped, the stamp selector finds that element and no other. *)
Lemma stamped_alone doc a b idx :
  uniqueIds doc → unstamped doc → (a, b) ∈ walk (Fragment doc) →
  deepQueryAll (Fragment (setStamp (nid (props b)) idx doc)) (stampSelector idx)
  = [mapNode (forElement (nid (props b)) (setAttribute stampAttr (ofNat idx))) b].
Proof.
  intros Hu Hun Hb. rewrite deepQueryAll_walk. unfold setStamp.
  rewrite walk_map, filter_fmap, <- list_fmap_compose.
  rewrite (filter_ext_in _
    (λ cn, bool_decide ((nid ∘ props ∘ snd) cn = (nid ∘ props ∘ snd) (a, b)))).
  - by rewrite (filter_unique _ _ (a, b) Hu Hb).
  - intros [a' n] Hn%list_elem_of_In. apply Hun in Hn. simpl.
    unfold selects, matches, matchComplex, stampSelector. simpl.
    rewrite props_mapNode, !andb_true_r, orb_false_r.
    unfold attrIs, forElement, getAttribute in *.
    destruct (bool_decide (nid (props n) = nid (props b))); simpl.
    + apply bool_decide_eq_true_2, lookup_insert_eq.
    + apply bool_decide_eq_false_2. by rewrite Hn.
Qed.

End Stamps.

(** ** The commands *)

Section CommandFacts.

Variable getBoundingClientRect : Page → Node → Rect.
Variable react : Command → Page → Page.
Variable dispatchEvent : jsstr → Node → Page → Page.
Variable insertTextRejected : Page → jsstr → bool.

Local Abbreviation click := (cmdClick getBoundingClientRect react).
Local Abbreviation type :=
  (cmdType getBoundingClientRect react dispatchEvent insertTextRejected).

Lemma ensureIndexed_eq s :
  ensureIndexed s
  = if hasStamps (page s) then (false, probed s) else (true, scanned s).
Proof.
  unfold ensureIndexed, mbind, M_bind, evaluate, mret, M_ret, scanned, probed.
  simpl. destruct (hasStamps (page s)); simpl; [done|].
  destruct (ELEMENTS_JS None (page s)) as [o p']. simpl.
  by rewrite <- app_assoc.
Qed.

Lemma ensureIndexed_unstamped s :
  unstamped (document (page s)) → ensureIndexed s = (true, scanned s).
Proof. intros Hs. by rewrite ensureIndexed_eq, unstamped_hasStamps. Qed.

(** [ensureIndexed] sends scripts only, after what was already sent. *)
Lemma ensureIndexed_sent s :
  ∃ evs, sent (snd (ensureIndexed s)) = sent s ++ evs
         ∧ List.filter isInput evs = [].
Proof.
  rewrite ensureIndexed_eq. destruct (hasStamps (page s)); simpl; eauto.
Qed.

Lemma typeChars_sent chars : ∀ s,
  ∃ rest, sent (snd (typeChars react chars s)) = sent s ++ rest.
Proof.
  induction chars as [|c chars IH]; intros s; simpl.
  - exists []. by rewrite app_nil_r.
  - unfold mbind, M_bind, send. simpl.
    edestruct IH as [rest Hrest]. rewrite Hrest. simpl.
    rewrite <- !app_assoc. eauto.
Qed.

Lemma insertText_sent text s :
  ∃ rest, sent (snd (insertText react insertTextRejected text s))
          = sent s ++ InputInsertText text :: rest.
Proof.
  unfold insertText. destruct (insertTextRejected (page s) text).
  - edestruct typeChars_sent as [rest Hrest]. rewrite Hrest. simpl.
    rewrite <- app_assoc. eauto.
  - simpl. eauto.
Qed.

(** The outcome of [cmdClick] in terms of the indexed session. *)
Lemma cmdClick_eq index s :
  click (Some index) s =
  let s1 := snd (ensureIndexed s) in
  let s2 := {| page := page s1;
               sent := sent s1 ++ [RuntimeEvaluate (ClickInfo index)] |} in
  match lookupIndex (page s1) index with
  | None =>
      (lit "Element not found at index " ++ ofNat index ++ lit ". Try: elements", s2)
  | Some el =>
      let x := centerX (getBoundingClientRect (page s1) el) in
      let y := centerY (getBoundingClientRect (page s1) el) in
      (lit "Clicked: (" ++ clickLabel el ++ lit ") " ++ clickDesc el,
       {| page := react (InputDispatchMouseEvent mouseReleased x y)
                    (react (InputDispatchMouseEvent mousePressed x y) (page s1));
          sent := sent s1 ++ [RuntimeEvaluate (ClickInfo index);
                              InputDispatchMouseEvent mousePressed x y;
                              InputDispatchMouseEvent mouseReleased x y] |})
  end.
Proof.
  unfold cmdClick, mbind, M_bind.
  destruct (ensureIndexed s) as [b s1]. simpl.
  unfold evaluate, runClickInfo.
  destruct (lookupIndex (page s1) index) as [el|]; simpl; [|done].
  by rewrite <- !app_assoc.
Qed.

Lemma cmdType_rejected index text s el :
  truthy text = true →
  lookupIndex (page (snd (ensureIndexed s))) index = Some el →
  typeable el = false →
  type (Some index) text s
  = (lit "Element [" ++ ofNat index ++ lit "] is a "
       ++ toLowerCase (tagName (props el))
       ++ lit ", not a text input. Run elements to re-index.",
     {| page := page (snd (ensureIndexed s));
        sent := sent (snd (ensureIndexed s))
                  ++ [RuntimeEvaluate (TypeInfo index)] |}).
Proof.
  intros Htext Hel Hno. unfold cmdType, mbind, M_bind. rewrite Htext. simpl.
  destruct (ensureIndexed s) as [b s1]. simpl in *.
  unfold evaluate, runTypeInfo. by rewrite Hel, Hno.
Qed.

Lemma mbind_eq {A B} (f : A → M B) (m : M A) s :
  (m ≫= f) s = f (fst (m s)) (snd (m s)).
Proof. unfold mbind, M_bind. by destruct (m s). Qed.

Lemma evaluate_eq {A} sc (run : Page → A * Page) s :
  evaluate sc run s
  = (fst (run (page s)),
     {| page := snd (run (page s)); sent := sent s ++ [RuntimeEvaluate sc] |}).
Proof. unfold evaluate. by destruct (run (page s)). Qed.

Lemma cmdType_proceeds index text s el :
  truthy text = true →
  lookupIndex (page (snd (ensureIndexed s))) index = Some el →
  typeable el = true →
  ∃ rest,
    fst (type (Some index) text s)
    = lit "Typed into [" ++ ofNat index ++ lit "] ("
        ++ toLowerCase (tagName (props el))
        ++ (if isContentEditable (props el) then lit ", contenteditable" else [])
        ++ lit ")"
    ∧ sent (snd (type (Some index) text s))
      = sent (snd (ensureIndexed s))
          ++ [RuntimeEvaluate (TypeInfo index);
              InputDispatchMouseEvent mousePressed
                (centerX (getBoundingClientRect (page (snd (ensureIndexed s))) el))
                (centerY (getBoundingClientRect (page (snd (ensureIndexed s))) el));
              InputDispatchMouseEvent mouseReleased
                (centerX (getBoundingClientRect (page (snd (ensureIndexed s))) el))
                (centerY (getBoundingClientRect (page (snd (ensureIndexed s))) el))]
          ++ clearing index (isContentEditable (props el))
          ++ InputInsertText text :: rest.
Proof.
  intros Htext Hel Hyes. unfold cmdType. rewrite Htext. cbn [negb].
  rewrite mbind_eq. cbn beta. rewrite mbind_eq, evaluate_eq.
  unfold runTypeInfo. rewrite Hel, Hyes.
  cbn [fst snd page sent t_x t_y t_ce t_tag].
  set (s1 := snd (ensureIndexed s)).
  unfold clearing. destruct (isContentEditable (props el)); cbn [negb];
    repeat first [ rewrite mbind_eq | rewrite evaluate_eq
                 | progress unfold send, mret, M_ret, runSelectContents
                 | progress cbn [fst snd page sent] ];
    match goal with
    | |- context [insertText react insertTextRejected text ?s'] =>
        destruct (insertText_sent text s') as [rest Hrest]
    end;
    cbn [fst snd page sent] in Hrest.
  - exists rest. split; [done|].
    rewrite Hrest. by rewrite <- !app_assoc.
  - exists (rest ++ [RuntimeEvaluate (SetValue index text)]). split; [done|].
    rewrite Hrest. by rewrite <- !app_assoc.
Qed.

(** C5.  When the node the index resolves to is not a text-entry
    shape, [cmdType] returns the wrong-element-kind message; besides
    the probe of [ensureIndexed] and the scan it may trigger, the only
    command sent is the script that looks the element up, which
    changes nothing on the page: no mouse event, no clearing script,
    no key event and no text insertion. *)
Theorem type_rejects_non_text index text s el :
  truthy text = true →
  lookupIndex (page (snd (ensureIndexed s))) index = Some el →
  typeable el = false →
  fst (type (Some index) text s)
    = lit "Element [" ++ ofNat index ++ lit "] is a "
        ++ toLowerCase (tagName (props el))
        ++ lit ", not a text input. Run elements to re-index."
  ∧ snd (type (Some index) text s)
    = {| page := page (snd (ensureIndexed s));
         sent := sent (snd (ensureIndexed s))
                   ++ [RuntimeEvaluate (TypeInfo index)] |}
  ∧ (snd (ensureIndexed s) = probed s ∨ snd (ensureIndexed s) = scanned s)
  ∧ ∃ evs, sent (snd (type (Some index) text s)) = sent s ++ evs
           ∧ List.filter isInput evs = []
           ∧ Forall (λ c, ∀ i t, c ≠ RuntimeEvaluate (ClearValue i)
                                 ∧ c ≠ RuntimeEvaluate (SelectContents i)
                                 ∧ c ≠ RuntimeEvaluate (SetValue i t)) evs.
Proof.
  intros Htext Hel Hno.
  rewrite (cmdType_rejected index text s el Htext Hel Hno). cbn [fst snd sent].
  split; [done|]. split; [done|].
  rewrite ensureIndexed_eq. destruct (hasStamps (page s)); cbn [snd sent].
  - split; [by left|].
    exists [RuntimeEvaluate HasStamps; RuntimeEvaluate (TypeInfo index)].
    unfold probed. cbn [sent]. rewrite <- app_assoc.
    split; [done|]. split; [done|].
    repeat constructor; discriminate.
  - split; [by right|].
    exists [RuntimeEvaluate HasStamps; RuntimeEvaluate (Elements None);
            RuntimeEvaluate (TypeInfo index)].
    unfold scanned. cbn [sent]. rewrite <- app_assoc.
    split; [done|]. split; [done|].
    repeat constructor; discriminate.
Qed.

(** C9.  An element whose tag is [input] passes the text-entry check
    whatever its type: [cmdType] clicks it, clears it and inserts the
    text. *)
Theorem type_accepts_any_input index text s el :
  truthy text = true →
  lookupIndex (page (snd (ensureIndexed s))) index = Some el →
  toLowerCase (tagName (props el)) = lit "input" →
  typeable el = true
  ∧ ∃ rest,
      fst (type (Some index) text s)
      = lit "Typed into [" ++ ofNat index ++ lit "] (" ++ lit "input"
          ++ (if isContentEditable (props el) then lit ", contenteditable" else [])
          ++ lit ")"
      ∧ sent (snd (type (Some index) text s))
        = sent (snd (ensureIndexed s))
            ++ [RuntimeEvaluate (TypeInfo index);
                InputDispatchMouseEvent mousePressed
                  (centerX (getBoundingClientRect (page (snd (ensureIndexed s))) el))
                  (centerY (getBoundingClientRect (page (snd (ensureIndexed s))) el));
                InputDispatchMouseEvent mouseReleased
                  (centerX (getBoundingClientRect (page (snd (ensureIndexed s))) el))
                  (centerY (getBoundingClientRect (page (snd (ensureIndexed s))) el))]
            ++ clearing index (isContentEditable (props el))
            ++ InputInsertText text :: rest.
Proof.
  intros Htext Hel Htag.
  assert (typeable el = true) as Hyes by (unfold typeable; by rewrite Htag).
  split; [exact Hyes|].
  destruct (cmdType_proceeds index text s el Htext Hel Hyes) as [rest [Hmsg Hsent]].
  exists rest. rewrite Htag in Hmsg. by split.
Qed.

(** C10.  The confirmation of a click is built from the element as it
    is at click time: its role attribute or else its lower-cased tag
    name, and its aria-label or else its text content, trimmed and cut
    at 80 units.  For an anchor without a role this label is [a], not
    the [link] of the scan's descriptor. *)
Theorem click_reports_recomputed index s el :
  lookupIndex (page (snd (ensureIndexed s))) index = Some el →
  fst (click (Some index) s)
    = lit "Clicked: ("
        ++ or_else (attrOr (props el) "role") (toLowerCase (tagName (props el)))
        ++ lit ") "
        ++ slice0 80 (trim (or_else (attrOr (props el) "aria-label")
                                    (or_else (textContent el) [])))
  ∧ (toLowerCase (tagName (props el)) = lit "a" →
     attrOr (props el) "role" = [] →
     fst (click (Some index) s) = lit "Clicked: (a) " ++ clickDesc el
     ∧ (d_label (describe el) = lit "link"
        ∨ d_label (describe el) = lit "link:disabled")
     ∧ d_label (describe el) ≠ clickLabel el).
Proof.
  intros Hel. rewrite cmdClick_eq. cbn zeta. rewrite Hel. cbn [fst].
  split; [done|]. intros Htag Hrole.
  assert (clickLabel el = lit "a") as Hlabel
    by (unfold clickLabel; by rewrite Hrole, Htag).
  assert (d_label (describe el) = lit "link"
          ∨ d_label (describe el) = lit "link:disabled") as Hscan.
  { cbn [d_label describe]. unfold labelOf, tagOf. rewrite Htag.
    destruct (isDisabled (props el)); [by right | by left]. }
  split; [|split; [exact Hscan|]].
  - rewrite Hlabel. reflexivity.
  - rewrite Hlabel. destruct Hscan as [-> | ->]; by vm_compute.
Qed.

Lemma cmdType_sent index text s :
  truthy text = true →
  ∃ rest, sent (snd (type (Some index) text s))
          = sent (snd (ensureIndexed s)) ++ RuntimeEvaluate (TypeInfo index) :: rest.
Proof.
  intros Htext.
  destruct (lookupIndex (page (snd (ensureIndexed s))) index) as [el|] eqn:Hel.
  - destruct (typeable el) eqn:Hty.
    + destruct (cmdType_proceeds index text s el Htext Hel Hty) as [rest [_ Hsent]].
      rewrite Hsent. simpl. eauto.
    + rewrite (cmdType_rejected index text s el Htext Hel Hty). simpl. eauto.
  - unfold cmdType. rewrite Htext. cbn [negb].
    rewrite mbind_eq. cbn beta. rewrite mbind_eq, evaluate_eq.
    unfold runTypeInfo. rewrite Hel. cbn [fst snd page sent]. eauto.
Qed.

(** The scan of a page whose visible candidates are the single node
    [b]: one descriptor, and [b] stamped with index 0. *)
Lemma one_candidate_scan p b :
  List.filter (λ el, negb (skipped el)) (candidates None p) = [b] →
  ELEMENTS_JS None p
  = (ScanResults [describe b],
     {| document := setStamp (nid (props b)) 0 (deepClearStamps (document p));
        bjsDeepQuery := true |}).
Proof.
  intros Hb. unfold ELEMENTS_JS. cbn [scanRoot].
  unfold candidates in Hb. cbn [scanRoot] in Hb.
  rewrite scanLoop_visible, Hb.
  assert (skipped b = false) as Hs.
  { assert (In b [b]) as Hin by (by left).
    rewrite <- Hb in Hin. apply filter_In in Hin as [_ Hin].
    by apply negb_true_iff. }
  unfold scanLoop. cbn [foldl]. unfold visit. rewrite Hs. cbn [seen results live].
  rewrite bool_decide_eq_false_2 by apply not_elem_of_empty. reflexivity.
Qed.

(** C4.  On a page where no element carries a stamp, [ensureIndexed]
    runs the full scan with no selector, and [cmdClick] and [cmdType]
    go on with the look-up on the scanned page.  If in addition the
    identities are unique and the only visible candidate is the node
    [b], the scan lists [b] alone, index 0 resolves to [b] with its
    stamp, and [cmdClick 0] presses and releases on it and confirms
    with its label and description. *)
Theorem auto_index s :
  unstamped (document (page s)) →
  ensureIndexed s = (true, scanned s)
  ∧ (∀ index,
       click (Some index) s
       = let s2 := {| page := page (scanned s);
                      sent := sent (scanned s) ++ [RuntimeEvaluate (ClickInfo index)] |} in
         match lookupIndex (page (scanned s)) index with
         | None =>
             (lit "Element not found at index " ++ ofNat index
                ++ lit ". Try: elements", s2)
         | Some el =>
             let x := centerX (getBoundingClientRect (page (scanned s)) el) in
             let y := centerY (getBoundingClientRect (page (scanned s)) el) in
             (lit "Clicked: (" ++ clickLabel el ++ lit ") " ++ clickDesc el,
              {| page := react (InputDispatchMouseEvent mouseReleased x y)
                           (react (InputDispatchMouseEvent mousePressed x y)
                              (page (scanned s)));
                 sent := sent (scanned s)
                           ++ [RuntimeEvaluate (ClickInfo index);
                               InputDispatchMouseEvent mousePressed x y;
                               InputDispatchMouseEvent mouseReleased x y] |})
         end)
  ∧ (∀ index text,
       truthy text = true →
       ∃ rest, sent (snd (type (Some index) text s))
               = sent (scanned s) ++ RuntimeEvaluate (TypeInfo index) :: rest)
  ∧ (∀ b,
       uniqueIds (document (page s)) →
       List.filter (λ el, negb (skipped el)) (candidates None (page s)) = [b] →
       fst (ELEMENTS_JS None (page s)) = ScanResults [describe b]
       ∧ ∃ b',
           lookupIndex (page (scanned s)) 0 = Some b'
           ∧ props b' = setAttribute stampAttr (ofNat 0) (props b)
           ∧ fst (click (Some 0%nat) s)
             = lit "Clicked: (" ++ clickLabel b ++ lit ") " ++ clickDesc b
           ∧ sent (snd (click (Some 0%nat) s))
             = sent s
                 ++ [RuntimeEvaluate HasStamps; RuntimeEvaluate (Elements None);
                     RuntimeEvaluate (ClickInfo 0);
                     InputDispatchMouseEvent mousePressed
                       (centerX (getBoundingClientRect (page (scanned s)) b'))
                       (centerY (getBoundingClientRect (page (scanned s)) b'));
                     InputDispatchMouseEvent mouseReleased
                       (centerX (getBoundingClientRect (page (scanned s)) b'))
                       (centerY (getBoundingClientRect (page (scanned s)) b'))]).
Proof.
  intros Hun. pose proof (ensureIndexed_unstamped s Hun) as Hens.
  split; [exact Hens|]. split; [|split].
  - intros index. rewrite cmdClick_eq, Hens. reflexivity.
  - intros index text Htext.
    destruct (cmdType_sent index text s Htext) as [rest Hrest].
    rewrite Hens in Hrest. eauto.
  - intros b Hu Hb. pose proof (one_candidate_scan (page s) b Hb) as Hscan.
    split; [by rewrite Hscan|].
    assert (b ∈ candidates None (page s)) as Hcand.
    { assert (In b [b]) as Hin by (by left).
      rewrite <- Hb in Hin. apply filter_In in Hin as [Hin _].
      by apply list_elem_of_In. }
    apply candidates_walk in Hcand as [a Hwalk].
    pose proof (stamped_alone _ a b 0 (uniqueIds_clear _ Hu)
                  (unstamped_clear _) Hwalk) as Hfound.
    set (b' := mapNode (forElement (nid (props b))
                          (setAttribute stampAttr (ofNat 0))) b) in *.
    assert (lookupIndex (page (scanned s)) 0 = Some b') as Hlook.
    { unfold scanned, lookupIndex. cbn [page]. rewrite Hscan. cbn [snd bjsDeepQuery document].
      by rewrite deepQueryStamp_head, Hfound. }
    assert (props b' = setAttribute stampAttr (ofNat 0) (props b)) as Hprops.
    { unfold b'. rewrite props_mapNode. unfold forElement.
      by rewrite bool_decide_eq_true_2. }
    assert (clickLabel b' = clickLabel b) as Hlabel.
    { unfold clickLabel. rewrite Hprops. by rewrite attrOr_set_other. }
    assert (clickDesc b' = clickDesc b) as Hdesc.
    { unfold clickDesc. rewrite Hprops, attrOr_set_other by done.
      unfold b'. by rewrite textContent_mapNode. }
    exists b'. split; [exact Hlook|]. split; [exact Hprops|].
    rewrite cmdClick_eq, Hens. cbn zeta. cbn [snd]. rewrite Hlook.
    cbn [fst snd sent]. rewrite Hlabel, Hdesc. split; [done|].
    unfold scanned. cbn [sent page]. by rewrite <- app_assoc.
Qed.

End CommandFacts.

(** ** The commands on the sample pages *)

Lemma unstamped_check doc :
  forallb (λ cn, bool_decide (getAttribute (props (snd cn)) stampAttr = None))
          (walk (Fragment doc)) = true →
  unstamped doc.
Proof.
  intros Hall ancs n Hn. rewrite forallb_forall in Hall.
  apply list_elem_of_In, Hall in Hn. by apply bool_decide_eq_true in Hn.
Qed.

Lemma auto_index_witness :
  unstamped (document (page (start flatPage)))
  ∧ ensureIndexed (start flatPage) = (true, scanned (start flatPage))
  ∧ fst (clickIn flatPage 0) = lit "Clicked: (button) Go".
Proof.
  assert (unstamped (document (page (start flatPage)))) as Hun.
  { apply unstamped_check. vm_compute. reflexivity. }
  split; [exact Hun|].
  pose proof (auto_index stillLayout inert noHandlers insertTextAccepted
                (start flatPage) Hun) as [Hens [_ [_ Hone]]].
  split; [exact Hens|].
  destruct (Hone buttonGo) as [_ [b' [_ [_ [Hmsg _]]]]].
  - unfold uniqueIds. apply (@bool_decide_unpack _ (NoDup_dec _)).
    vm_compute. exact I.
  - vm_compute. reflexivity.
  - exact Hmsg.
Defined.

Lemma type_rejects_non_text_witness :
  truthy (lit "hi") = true
  ∧ lookupIndex (page (snd (ensureIndexed (start shadowPage)))) 1
    = Some (stamped 1 buttonGo)
  ∧ typeable (stamped 1 buttonGo) = false
  ∧ fst (typeIn shadowPage 1 "hi")
    = lit "Element [1] is a button, not a text input. Run elements to re-index."
  ∧ List.filter isInput (sent (snd (typeIn shadowPage 1 "hi"))) = [].
Proof.
  assert (truthy (lit "hi") = true) as Htext by reflexivity.
  assert (lookupIndex (page (snd (ensureIndexed (start shadowPage)))) 1
          = Some (stamped 1 buttonGo)) as Hel by (vm_compute; reflexivity).
  assert (typeable (stamped 1 buttonGo) = false) as Hno by (vm_compute; reflexivity).
  split; [exact Htext|]. split; [exact Hel|]. split; [exact Hno|].
  destruct (type_rejects_non_text stillLayout inert noHandlers insertTextAccepted
              1 (lit "hi") (start shadowPage) (stamped 1 buttonGo) Htext Hel Hno)
    as [Hmsg [_ [_ [evs [Hsent [Hnone _]]]]]].
  split; [exact Hmsg|].
  unfold typeIn. rewrite Hsent. exact Hnone.
Defined.

Lemma type_accepts_any_input_witness :
  truthy (lit "go") = true
  ∧ lookupIndex (page (snd (ensureIndexed (start inputPage)))) 0
    = Some (stamped 0 submitInput)
  ∧ toLowerCase (tagName (props (stamped 0 submitInput))) = lit "input"
  ∧ el_type (props (stamped 0 submitInput)) = lit "submit"
  ∧ typeable (stamped 0 submitInput) = true.
Proof.
  assert (truthy (lit "go") = true) as Htext by reflexivity.
  assert (lookupIndex (page (snd (ensureIndexed (start inputPage)))) 0
          = Some (stamped 0 submitInput)) as Hel by (vm_compute; reflexivity).
  assert (toLowerCase (tagName (props (stamped 0 submitInput))) = lit "input")
    as Htag by (vm_compute; reflexivity).
  split; [exact Htext|]. split; [exact Hel|]. split; [exact Htag|].
  split; [reflexivity|].
  exact (proj1 (type_accepts_any_input stillLayout inert noHandlers
                  insertTextAccepted 0 (lit "go") (start inputPage)
                  (stamped 0 submitInput) Htext Hel Htag)).
Defined.

Lemma click_reports_recomputed_witness :
  lookupIndex (page (snd (ensureIndexed (start shadowPage)))) 0
    = Some (stamped 0 anchorA)
  ∧ fst (clickIn shadowPage 0) = lit "Clicked: (a) A"
  ∧ d_label (describe (stamped 0 anchorA)) = lit "link".
Proof.
  assert (lookupIndex (page (snd (ensureIndexed (start shadowPage)))) 0
          = Some (stamped 0 anchorA)) as Hel by (vm_compute; reflexivity).
  split; [exact Hel|].
  destruct (click_reports_recomputed stillLayout inert 0 (start shadowPage)
              (stamped 0 anchorA) Hel) as [Hmsg _].
  split; [|reflexivity].
  unfold clickIn. rewrite Hmsg. vm_compute. reflexivity.
Defined.

(** The end-to-end scenario of the specification: after the scan lists
    the link and the button, [type 1] is refused without any input
    being sent, and [click 1] confirms the button and sends one press
    and one release at its centre. *)
Example end_to_end :
  fst (typeIn shadowPage 1 "hi")
    = lit "Element [1] is a button, not a text input. Run elements to re-index."
  ∧ List.filter isInput (sent (snd (typeIn shadowPage 1 "hi"))) = []
  ∧ fst (clickIn shadowPage 1) = lit "Clicked: (button) Go"
  ∧ List.filter isInput (sent (snd (clickIn shadowPage 1)))
    = [ InputDispatchMouseEvent mousePressed
          (centerX (stillLayout shadowPage buttonGo))
          (centerY (stillLayout shadowPage buttonGo));
        InputDispatchMouseEvent mouseReleased
          (centerX (stillLayout shadowPage buttonGo))
          (centerY (stillLayout shadowPage buttonGo)) ].
Proof. vm_compute. auto. Qed.

(** [type] against a submit input is not refused: it clicks the input,
    clears its value, inserts the text and sets the value. *)
Example type_into_submit :
  fst (typeIn inputPage 0 "go") = lit "Typed into [0] (input)"
  ∧ sent (snd (typeIn inputPage 0 "go"))
    = [ RuntimeEvaluate HasStamps; RuntimeEvaluate (Elements None);
        RuntimeEvaluate (TypeInfo 0);
        InputDispatchMouseEvent mousePressed
          (centerX (stillLayout inputPage submitInput))
          (centerY (stillLayout inputPage submitInput));
        InputDispatchMouseEvent mouseReleased
          (centerX (stillLayout inputPage submitInput))
          (centerY (stillLayout inputPage submitInput));
        RuntimeEvaluate (ClearValue 0);
        InputInsertText (lit "go");
        RuntimeEvaluate (SetValue 0 (lit "go")) ].
Proof. vm_compute. auto. Qed.

(** * Further properties of the code *)

(** ** Decimal indices *)

Section Decimal.

Lemma digit_value d : (d < 10)%nat → (N.to_nat (digit d) - 48 = d)%nat.
Proof. intros Hd. unfold digit. lia. Qed.

Lemma decimalFuel_value fuel : ∀ n acc,
  (n < fuel)%nat →
  decimalValue (decimalFuel fuel n acc)
  = (n * 10 ^ length acc + decimalValue acc)%nat.
Proof.
  induction fuel as [|fuel IH]; intros n acc Hn; [lia|]. cbn [decimalFuel].
  pose proof (Nat.mod_upper_bound n 10 ltac:(lia)) as Hmod.
  pose proof (Nat.div_mod_eq n 10) as Hdiv.
  destruct (n <? 10)%nat eqn:Hlt.
  - apply Nat.ltb_lt in Hlt. cbn [decimalValue]. rewrite digit_value by done.
    rewrite Nat.mod_small by done. reflexivity.
  - apply Nat.ltb_ge in Hlt.
    rewrite IH by (apply Nat.Div0.div_lt_upper_bound; lia).
    cbn [decimalValue length]. rewrite digit_value by done.
    rewrite Nat.pow_succ_r'. nia.
Qed.

(** [String(n)] reads back as [n]: distinct indices are stamped with
    distinct attribute values. *)
Lemma ofNat_value n : decimalValue (ofNat n) = n.
Proof.
  unfold ofNat. rewrite decimalFuel_value by lia.
  cbn [decimalValue length]. rewrite Nat.pow_0_r. lia.
Qed.

Lemma ofNat_inj n m : ofNat n = ofNat m → n = m.
Proof. intros H. by rewrite <- (ofNat_value n), H, ofNat_value. Qed.

End Decimal.

(** ** The stamps a scan leaves on the page *)

Section AfterScan.

Lemma mapChild_id (kids : list Child) :
  Forall (onChild (λ k, mapNode (λ e, e) k = k)) kids →
  List.map (mapChild (λ e, e)) kids = kids.
Proof.
  induction 1 as [|c l Hc _ IH]; [done|]. simpl. rewrite IH.
  destruct c; simpl in *; [done | by rewrite Hc].
Qed.

Lemma mapNode_id n : mapNode (λ e, e) n = n.
Proof.
  induction n as [e kids sh IHk IHs] using Node_ind. simpl.
  change (List.map _ kids) with (List.map (mapChild (λ e, e)) kids).
  rewrite (mapChild_id kids IHk). f_equal.
  destruct sh as [s|]; [|done].
  change (List.map _ s) with (List.map (mapChild (λ e, e)) s).
  by rewrite (mapChild_id s IHs).
Qed.

Lemma mapDocument_id (doc : list Child) :
  List.map (mapChild (λ e, e)) doc = doc.
Proof.
  apply mapChild_id, Forall_forall. intros [t|k] _; simpl; [done|].
  apply mapNode_id.
Qed.

(** The stampings of the loop amount to one pass over the tree. *)
Lemma stampAll_map kept : ∀ start doc,
  stampAll start kept doc = List.map (mapChild (stampFn start kept)) doc.
Proof.
  induction kept as [|a kept IH]; intros start doc; simpl.
  - symmetry. apply mapDocument_id.
  - rewrite IH. unfold setStamp. rewrite mapDocument_compose.
    by apply mapDocument_ext.
Qed.

Lemma live_scanLoop top l : ∀ st,
  live (scanLoop top l st)
  = stampAll (length (results st)) (keptFrom top (seen st) l) (live st).
Proof.
  induction l as [|el l IH]; intros st; [done|].
  unfold scanLoop in *. simpl. rewrite IH. unfold visit.
  destruct (skipped el); [done|].
  destruct (bool_decide (keyOf top el ∈ seen st)); [done|].
  simpl. rewrite length_app. simpl.
  by replace (length (results st) + 1)%nat with (S (length (results st))) by lia.
Qed.

(** The page after a scan: the cleared document with the kept nodes
    stamped 0, 1, 2, ... in the order of the result. *)
Lemma scannedPage_document selector p root :
  scanRoot selector (deepClearStamps (document p)) = Some root →
  scannedPage selector p
  = {| document := stampAll 0 (indexed selector p) (deepClearStamps (document p));
       bjsDeepQuery := true |}.
Proof.
  intros Hroot. unfold scannedPage, ELEMENTS_JS, indexed, candidates, activeDialog.
  rewrite Hroot. simpl. by rewrite live_scanLoop.
Qed.

Lemma set_set a v w e :
  setAttribute a v (setAttribute a w e) = setAttribute a v e.
Proof. unfold setAttribute. simpl. by rewrite insert_insert_eq. Qed.

(** A stamped element is the element itself or the element with a
    stamp set: nothing else about it changes. *)
Lemma stampFn_shape kept : ∀ start e,
  stampFn start kept e = e
  ∨ ∃ v, stampFn start kept e = setAttribute stampAttr v e.
Proof.
  induction kept as [|a kept IH]; intros start e; simpl; [by left|].
  unfold forElement. case_bool_decide; [|apply IH].
  destruct (IH (S start) (setAttribute stampAttr (ofNat start) e)) as [-> | [v ->]].
  - right. eauto.
  - right. exists v. apply set_set.
Qed.

Lemma stampFn_absent kept : ∀ start e,
  (∀ a, a ∈ kept → nid (props a) ≠ nid e) →
  stampFn start kept e = e.
Proof.
  induction kept as [|a kept IH]; intros start e Hne; simpl; [done|].
  unfold forElement. rewrite bool_decide_eq_false_2.
  - apply IH. intros b Hb. apply Hne. by apply list_elem_of_further.
  - intros Heq. apply (Hne a); [apply list_elem_of_here | done].
Qed.

Lemma stampFn_present kept : ∀ start e j a,
  NoDup ((nid ∘ props) <$> kept) →
  kept !! j = Some a →
  nid (props a) = nid e →
  stampFn start kept e = setAttribute stampAttr (ofNat (start + j)) e.
Proof.
  induction kept as [|b kept IH]; intros start e j a Hnd Hj Ha; [done|].
  rewrite fmap_cons in Hnd. apply list.NoDup_cons in Hnd as [Hb Hnd].
  simpl. unfold forElement. destruct j as [|j]; simpl in Hj.
  - injection Hj as ->. rewrite bool_decide_eq_true_2 by done.
    rewrite Nat.add_0_r. apply stampFn_absent.
    intros c Hc Heq. apply Hb. simpl in Heq.
    assert ((nid ∘ props) a = (nid ∘ props) c) as -> by (simpl; congruence).
    by apply (list_elem_of_fmap_2 (nid ∘ props)).
  - rewrite bool_decide_eq_false_2.
    + rewrite (IH (S start) e j a Hnd Hj Ha). f_equal. f_equal. lia.
    + intros Heq. apply Hb.
      assert ((nid ∘ props) b = (nid ∘ props) a) as -> by (simpl; congruence).
      by apply (list_elem_of_fmap_2 (nid ∘ props)), list_elem_of_lookup_2 with j.
Qed.

Lemma below_trans base kids ancs n a m :
  below base kids ancs n →
  below (props n :: ancs) (childNodes n) a m →
  below base kids a m.
Proof.
  induction 1 as [base kids n Hin
                 | base kids k ancs n Hin _ IH
                 | base kids k s ancs n Hin Hs _ IH]; intros Hm.
  - by apply below_light with n.
  - apply below_light with k; [done | by apply IH].
  - apply below_shadow with k s; [done | done | by apply IH].
Qed.

(** Whatever the scan root, the walk stays inside the document. *)
Lemma scanRoot_walk selector doc root cn :
  scanRoot selector doc = Some root →
  cn ∈ walk root → cn ∈ walk (Fragment doc).
Proof.
  destruct selector as [sel|]; simpl; [|by intros [= <-]].
  destruct (querySelectorCtx (Fragment doc) sel) as [[ancs n]|] eqn:Hq; [|done].
  intros [= <-]. destruct cn as [a m]. rewrite !walk_below. simpl.
  apply below_trans.
  unfold querySelectorCtx, querySelectorAllCtx in Hq.
  apply head_Some_elem_of, list_elem_of_In, filter_In in Hq as [Hq _].
  apply light_below. by apply list_elem_of_In.
Qed.

Lemma indexed_walk selector p root a :
  scanRoot selector (deepClearStamps (document p)) = Some root →
  a ∈ indexed selector p →
  ∃ c, (c, a) ∈ walk (Fragment (deepClearStamps (document p))).
Proof.
  intros Hroot Ha. unfold indexed in Ha. apply keptFrom_elem in Ha.
  unfold candidates in Ha. rewrite Hroot in Ha. apply sorted_elem in Ha.
  rewrite deepQueryAll_walk in Ha.
  apply list_elem_of_fmap in Ha as [[c n] [-> Hin]]. exists c.
  apply list_elem_of_In, filter_In in Hin as [Hin _].
  apply (scanRoot_walk _ _ _ _ Hroot). by apply list_elem_of_In.
Qed.

Lemma NoDup_fmap_inj_on {A B} (f : A → B) (l : list A) x y :
  NoDup (f <$> l) → x ∈ l → y ∈ l → f x = f y → x = y.
Proof.
  induction l as [|z l IH]; intros Hnd Hx Hy Hf; [by apply elem_of_nil in Hx|].
  rewrite fmap_cons in Hnd. apply list.NoDup_cons in Hnd as [Hz Hnd].
  apply elem_of_cons in Hx as [-> | Hx]; apply elem_of_cons in Hy as [-> | Hy].
  - done.
  - exfalso. apply Hz. rewrite Hf. by apply list_elem_of_fmap_2.
  - exfalso. apply Hz. rewrite <- Hf. by apply list_elem_of_fmap_2.
  - by apply IH.
Qed.

(** The nodes that receive an index have pairwise distinct identities. *)
Lemma indexed_ids_NoDup selector p root :
  uniqueIds (document p) →
  scanRoot selector (deepClearStamps (document p)) = Some root →
  NoDup ((nid ∘ props) <$> indexed selector p).
Proof.
  intros Hu Hroot. apply uniqueIds_clear in Hu.
  apply NoDup_fmap_2_strong.
  - intros a b Ha Hb Hid.
    destruct (indexed_walk _ _ _ _ Hroot Ha) as [ca Hca].
    destruct (indexed_walk _ _ _ _ Hroot Hb) as [cb Hcb].
    assert ((ca, a) = (cb, b)) as Heq
      by (apply (NoDup_fmap_inj_on (nid ∘ props ∘ snd) _ _ _ Hu Hca Hcb); exact Hid).
    by injection Heq.
  - apply (NoDup_fmap_1 (keyOf (activeDialog p))). apply keptFrom_keys_NoDup.
Qed.

Lemma getAttribute_set a v e : getAttribute (setAttribute a v e) a = Some v.
Proof. unfold getAttribute, setAttribute. simpl. apply lookup_insert_eq. Qed.

(** On an element that had no stamp, the stamp after the loop is [i]
    exactly when the element is the [i]-th kept node. *)
Lemma stamp_after kept e i :
  NoDup ((nid ∘ props) <$> kept) →
  getAttribute e stampAttr = None →
  getAttribute (stampFn 0 kept e) stampAttr = Some (ofNat i)
  ↔ ∃ a, kept !! i = Some a ∧ nid (props a) = nid e.
Proof.
  intros Hnd Hnone. split.
  - intros Hattr.
    destruct (decide (nid e ∈ (nid ∘ props) <$> kept)) as [Hin | Hout].
    + apply list_elem_of_fmap in Hin as [b [Hid Hb]].
      apply list_elem_of_lookup in Hb as [j Hj]. simpl in Hid.
      rewrite (stampFn_present kept 0 e j b Hnd Hj (eq_sym Hid)) in Hattr.
      rewrite getAttribute_set in Hattr. injection Hattr as Hij.
      apply ofNat_inj in Hij. simpl in Hij. subst j. eauto.
    + rewrite stampFn_absent in Hattr; [congruence|].
      intros b Hb Heq. apply Hout. rewrite <- Heq.
      by apply (list_elem_of_fmap_2 (nid ∘ props)).
  - intros [a [Hi Ha]].
    rewrite (stampFn_present kept 0 e i a Hnd Hi Ha). apply getAttribute_set.
Qed.

Lemma selects_stamp idx f cn :
  selects (stampSelector idx) (liftCtx f cn)
  = bool_decide (getAttribute (f (props (snd cn))) stampAttr = Some (ofNat idx)).
Proof.
  unfold selects, matches, matchComplex, stampSelector, liftCtx. simpl.
  by rewrite props_mapNode, !andb_true_r, orb_false_r.
Qed.

(** What the stamp selector finds, in the document and in every shadow
    tree, on the page a scan leaves behind: the node listed under the
    index, and nothing when the index is not in the list. *)
Lemma resolve_index selector p root i :
  uniqueIds (document p) →
  scanRoot selector (deepClearStamps (document p)) = Some root →
  deepQueryAll (Fragment (document (scannedPage selector p))) (stampSelector i)
  = match indexed selector p !! i with
    | Some a => [mapNode (stampFn 0 (indexed selector p)) a]
    | None => []
    end.
Proof.
  intros Hu Hroot. pose proof (indexed_ids_NoDup _ _ _ Hu Hroot) as Hnd.
  rewrite (scannedPage_document _ _ _ Hroot). cbn [document].
  rewrite stampAll_map, deepQueryAll_walk, walk_map, filter_fmap,
    <- list_fmap_compose.
  destruct (indexed selector p !! i) as [a|] eqn:Hi.
  - destruct (indexed_walk _ _ _ a Hroot (list_elem_of_lookup_2 _ _ _ Hi))
      as [c Hc].
    rewrite (filter_ext_in _
      (λ cn, bool_decide ((nid ∘ props ∘ snd) cn = (nid ∘ props ∘ snd) (c, a)))).
    + by rewrite (filter_unique _ _ (c, a) (uniqueIds_clear _ Hu) Hc).
    + intros [c' n] Hn%list_elem_of_In. rewrite selects_stamp. simpl.
      apply bool_decide_ext.
      rewrite (stamp_after _ _ i Hnd (unstamped_clear _ _ _ Hn)).
      rewrite Hi. split.
      * by intros [b [[= <-] Hb]].
      * intros Hid. eauto.
  - rewrite filter_none; [done|].
    intros [c' n] Hn%list_elem_of_In. rewrite selects_stamp. simpl.
    apply bool_decide_eq_false_2.
    rewrite (stamp_after _ _ i Hnd (unstamped_clear _ _ _ Hn)), Hi.
    by intros [b [[=] _]].
Qed.

(** Index look-up on the scanned page. *)
Lemma lookupIndex_scanned selector p root i :
  uniqueIds (document p) →
  scanRoot selector (deepClearStamps (document p)) = Some root →
  lookupIndex (scannedPage selector p) i
  = mapNode (stampFn 0 (indexed selector p)) <$> indexed selector p !! i.
Proof.
  intros Hu Hroot. pose proof (resolve_index _ _ _ i Hu Hroot) as Hres.
  unfold lookupIndex.
  assert (bjsDeepQuery (scannedPage selector p) = true) as ->
    by (by rewrite (scannedPage_document _ _ _ Hroot)).
  rewrite deepQueryStamp_head, Hres.
  destruct (indexed selector p !! i) as [a|]; [done|]. simpl.
  unfold deepQueryAll in Hres. apply app_eq_nil in Hres as [Hres _].
  unfold querySelector. by rewrite Hres.
Qed.

End AfterScan.

(** ** Descriptors do not depend on stamps *)

Section StampInvariance.

Variable f : Element → Element.
Hypothesis f_shape : ∀ e, f e = e ∨ ∃ v, f e = setAttribute stampAttr v e.

Lemma attrOr_shape e a : a ≠ stampAttr → attrOr (f e) a = attrOr e a.
Proof.
  intros Ha. destruct (f_shape e) as [-> | [v ->]]; [done|].
  by apply attrOr_set_other.
Qed.

Lemma attrIs_shape e a v : a ≠ stampAttr → attrIs (f e) a v = attrIs e a v.
Proof.
  intros Ha. destruct (f_shape e) as [-> | [w ->]]; [done|].
  unfold attrIs, getAttribute, setAttribute. simpl.
  by rewrite lookup_insert_ne.
Qed.

Lemma fields_shape e :
  nid (f e) = nid e ∧ tagName (f e) = tagName e
  ∧ el_disabled (f e) = el_disabled e ∧ el_type (f e) = el_type e
  ∧ el_placeholder (f e) = el_placeholder e ∧ el_href (f e) = el_href e
  ∧ el_name (f e) = el_name e ∧ el_value (f e) = el_value e
  ∧ isContentEditable (f e) = isContentEditable e
  ∧ offsetParent (f e) = offsetParent e ∧ position (f e) = position e.
Proof. destruct (f_shape e) as [-> | [v ->]]; repeat split; reflexivity. Qed.

Lemma labelOf_shape e : labelOf (f e) = labelOf e.
Proof.
  destruct (fields_shape e) as (_ & Htag & Hdis & Hty & _).
  unfold labelOf, isDisabled, tagOf.
  rewrite Htag, Hdis, Hty, attrOr_shape, attrIs_shape by done. reflexivity.
Qed.

Lemma descOf_shape n : descOf (mapNode f n) = descOf n.
Proof.
  destruct (fields_shape (props n))
    as (_ & Htag & _ & _ & Hph & Hhref & Hname & Hval & _).
  unfold descOf, valueOf, tagOf, textOf.
  rewrite props_mapNode, textContent_mapNode.
  rewrite Htag, Hph, Hhref, Hname, Hval, attrOr_shape by done. reflexivity.
Qed.

Lemma describe_shape n : describe (mapNode f n) = describe n.
Proof.
  unfold describe. by rewrite props_mapNode, labelOf_shape, descOf_shape.
Qed.

Lemma clickLabel_shape n : clickLabel (mapNode f n) = clickLabel n.
Proof.
  destruct (fields_shape (props n)) as (_ & Htag & _).
  unfold clickLabel. by rewrite props_mapNode, Htag, attrOr_shape.
Qed.

Lemma clickDesc_shape n : clickDesc (mapNode f n) = clickDesc n.
Proof.
  unfold clickDesc. by rewrite props_mapNode, textContent_mapNode, attrOr_shape.
Qed.

Lemma typeable_shape n : typeable (mapNode f n) = typeable n.
Proof.
  destruct (fields_shape (props n)) as (_ & Htag & _ & _ & _ & _ & _ & _ & Hce & _).
  unfold typeable. by rewrite props_mapNode, Htag, Hce, attrOr_shape.
Qed.

End StampInvariance.

(** ** Indices and the nodes they resolve to *)

(** X1.  Stamp consistency: on the page a scan leaves behind, the index
    of every entry of the result resolves, through the document and
    every shadow tree, to the very node the entry describes, which now
    carries that index as its stamp and still has the label and the
    description of the entry. *)
Theorem stamp_consistency selector p root i a :
  uniqueIds (document p) →
  scanRoot selector (deepClearStamps (document p)) = Some root →
  indexed selector p !! i = Some a →
  ∃ rs a',
    fst (ELEMENTS_JS selector p) = ScanResults rs
    ∧ rs !! i = Some (describe a)
    ∧ lookupIndex (scannedPage selector p) i = Some a'
    ∧ nid (props a') = nid (props a)
    ∧ getAttribute (props a') stampAttr = Some (ofNat i)
    ∧ describe a' = describe a.
Proof.
  intros Hu Hroot Hi.
  exists (describe <$> indexed selector p),
         (mapNode (stampFn 0 (indexed selector p)) a).
  pose proof (indexed_ids_NoDup _ _ _ Hu Hroot) as Hnd.
  split; [by rewrite ELEMENTS_JS_results, Hroot|].
  split; [by rewrite list_lookup_fmap, Hi|].
  split; [by rewrite (lookupIndex_scanned _ _ _ _ Hu Hroot), Hi|].
  rewrite props_mapNode.
  rewrite (stampFn_present _ 0 (props a) i a Hnd Hi eq_refl).
  split; [done|]. split; [apply getAttribute_set|].
  apply describe_shape, stampFn_shape.
Qed.

Lemma uniqueIds_modalPage : uniqueIds (document modalPage).
Proof.
  unfold uniqueIds. apply (@bool_decide_unpack _ (NoDup_dec _)).
  vm_compute. exact I.
Defined.

Lemma stamp_consistency_witness :
  ∃ rs a',
    fst (ELEMENTS_JS None modalPage) = ScanResults rs
    ∧ rs !! 1%nat = Some (describe pageSave)
    ∧ lookupIndex (scannedPage None modalPage) 1 = Some a'
    ∧ nid (props a') = nid (props pageSave)
    ∧ getAttribute (props a') stampAttr = Some (ofNat 1)
    ∧ describe a' = describe pageSave.
Proof.
  apply (stamp_consistency None modalPage
           (Fragment (deepClearStamps (document modalPage)))).
  - exact uniqueIds_modalPage.
  - reflexivity.
  - vm_compute. reflexivity.
Defined.

(** X2.  Two different indices never resolve to the same element, and an
    index beyond the last entry resolves to nothing. *)
Theorem indices_resolve_apart selector p root :
  uniqueIds (document p) →
  scanRoot selector (deepClearStamps (document p)) = Some root →
  (∀ i j a b,
     lookupIndex (scannedPage selector p) i = Some a →
     lookupIndex (scannedPage selector p) j = Some b →
     i ≠ j → nid (props a) ≠ nid (props b))
  ∧ (∀ i, (length (indexed selector p) ≤ i)%nat →
          lookupIndex (scannedPage selector p) i = None)
  ∧ (∀ i, (i < length (indexed selector p))%nat →
          is_Some (lookupIndex (scannedPage selector p) i)).
Proof.
  intros Hu Hroot. pose proof (indexed_ids_NoDup _ _ _ Hu Hroot) as Hnd.
  split; [|split].
  - intros i j a b Ha Hb Hij Hid.
    rewrite (lookupIndex_scanned _ _ _ _ Hu Hroot) in Ha.
    rewrite (lookupIndex_scanned _ _ _ _ Hu Hroot) in Hb.
    destruct (indexed selector p !! i) as [a0|] eqn:Hi; [|done].
    destruct (indexed selector p !! j) as [b0|] eqn:Hj; [|done].
    simpl in Ha, Hb. injection Ha as <-. injection Hb as <-.
    rewrite !props_mapNode in Hid.
    rewrite (stampFn_present _ 0 (props a0) i a0 Hnd Hi eq_refl) in Hid.
    rewrite (stampFn_present _ 0 (props b0) j b0 Hnd Hj eq_refl) in Hid.
    simpl in Hid. apply Hij.
    apply (NoDup_lookup _ i j (nid (props a0)) Hnd).
    + by rewrite list_lookup_fmap, Hi.
    + rewrite list_lookup_fmap, Hj. simpl. by rewrite Hid.
  - intros i Hi. rewrite (lookupIndex_scanned _ _ _ _ Hu Hroot).
    by rewrite (lookup_ge_None_2 _ _ Hi).
  - intros i Hi. rewrite (lookupIndex_scanned _ _ _ _ Hu Hroot).
    destruct (lookup_lt_is_Some_2 _ _ Hi) as [a ->]. by eexists.
Qed.

Lemma indices_resolve_apart_witness :
  lookupIndex (scannedPage None modalPage) 2 = None
  ∧ is_Some (lookupIndex (scannedPage None modalPage) 1).
Proof.
  destruct (indices_resolve_apart None modalPage
              (Fragment (deepClearStamps (document modalPage)))
              uniqueIds_modalPage eq_refl) as [_ [Hout Hin]].
  split.
  - apply Hout. vm_compute. lia.
  - apply Hin. vm_compute. lia.
Defined.

(** X3.  The stamps on the scanned page are exactly the indices of the
    result: an element met anywhere on the page carries a stamp only if
    it is one of the listed nodes, the stamp is then its position in the
    list, and the node was visible to the scan; every other element is
    left without a stamp. *)
Theorem stamps_are_indices selector p root c n v :
  uniqueIds (document p) →
  scanRoot selector (deepClearStamps (document p)) = Some root →
  (c, n) ∈ walk (Fragment (document (scannedPage selector p))) →
  getAttribute (props n) stampAttr = Some v →
  ∃ i a,
    indexed selector p !! i = Some a
    ∧ nid (props a) = nid (props n)
    ∧ v = ofNat i
    ∧ skipped a = false
    ∧ a ∈ deepQueryAll root interactiveSelectors.
Proof.
  intros Hu Hroot Hn Hv.
  pose proof (indexed_ids_NoDup _ _ _ Hu Hroot) as Hnd.
  rewrite (scannedPage_document _ _ _ Hroot) in Hn. cbn [document] in Hn.
  rewrite stampAll_map, walk_map in Hn.
  apply list_elem_of_fmap in Hn as [[c0 n0] [[= -> ->] Hn0]].
  rewrite props_mapNode in Hv.
  pose proof (unstamped_clear _ _ _ Hn0) as Hnone.
  destruct (decide (nid (props n0) ∈ (nid ∘ props) <$> indexed selector p))
    as [Hin | Hout].
  - apply list_elem_of_fmap in Hin as [a [Hid Ha]].
    apply list_elem_of_lookup in Ha as [i Hi]. simpl in Hid.
    rewrite (stampFn_present _ 0 (props n0) i a Hnd Hi (eq_sym Hid)) in Hv.
    rewrite getAttribute_set in Hv. injection Hv as <-.
    exists i, a. split; [done|]. rewrite props_mapNode.
    rewrite (stampFn_present _ 0 (props n0) i a Hnd Hi (eq_sym Hid)).
    split; [by simpl|]. split; [done|].
    pose proof (list_elem_of_lookup_2 _ _ _ Hi) as Ha.
    split.
    + unfold indexed in Ha. by apply keptFrom_fresh in Ha as [Hs _].
    + unfold indexed in Ha. apply keptFrom_elem in Ha.
      unfold candidates in Ha. rewrite Hroot in Ha. by apply sorted_elem in Ha.
  - rewrite stampFn_absent in Hv; [congruence|].
    intros b Hb Heq. apply Hout. rewrite <- Heq.
    by apply (list_elem_of_fmap_2 (nid ∘ props)).
Qed.

Lemma stamps_are_indices_witness :
  ∃ i a,
    indexed None modalPage !! i = Some a
    ∧ nid (props a) = nid (props (stamped 0 modalSave))
    ∧ ofNat 0 = ofNat i
    ∧ skipped a = false
    ∧ a ∈ deepQueryAll (Fragment (deepClearStamps (document modalPage)))
            interactiveSelectors.
Proof.
  apply (stamps_are_indices None modalPage
           (Fragment (deepClearStamps (document modalPage)))
           [element 6 "DIV" [("role", "dialog")]; element 0 "BODY" []]
           (stamped 0 modalSave) (ofNat 0)).
  - exact uniqueIds_modalPage.
  - reflexivity.
  - apply (list_elem_of_lookup_2 _ 3%nat). vm_compute. reflexivity.
  - vm_compute. reflexivity.
Defined.

(** ** A click after a scan *)

Section ClickAfterScan.

Variable getBoundingClientRect : Page → Node → Rect.
Variable react : Command → Page → Page.

Local Abbreviation click := (cmdClick getBoundingClientRect react).

(** A scan that lists at least one node leaves a page on which the
    probe of [ensureIndexed] succeeds. *)
Lemma hasStamps_scanned selector p root a :
  uniqueIds (document p) →
  scanRoot selector (deepClearStamps (document p)) = Some root →
  indexed selector p !! 0%nat = Some a →
  hasStamps (scannedPage selector p) = true.
Proof.
  intros Hu Hroot Ha. unfold hasStamps.
  assert (bjsDeepQuery (scannedPage selector p) = true) as ->
    by (by rewrite (scannedPage_document _ _ _ Hroot)).
  rewrite deepQueryStamp_head, (resolve_index _ _ _ 0 Hu Hroot), Ha.
  cbn [head andb]. apply orb_true_iff. right.
  apply bool_decide_eq_true_2. by eexists.
Qed.

Lemma indexed_first selector p i a :
  indexed selector p !! i = Some a → is_Some (indexed selector p !! 0%nat).
Proof.
  intros Hi. apply lookup_lt_is_Some_2.
  apply lookup_lt_Some in Hi. lia.
Qed.

(** X4.  A click on an index of the list just printed needs no second
    scan: the probe finds the stamps, the element listed under the
    index is the one clicked, at the centre of its box, with exactly
    one press and one release, and the message names its role or tag
    and its text. *)
Theorem click_after_scan selector p root i a before :
  uniqueIds (document p) →
  scanRoot selector (deepClearStamps (document p)) = Some root →
  indexed selector p !! i = Some a →
  let q := scannedPage selector p in
  let el := mapNode (stampFn 0 (indexed selector p)) a in
  let x := centerX (getBoundingClientRect q el) in
  let y := centerY (getBoundingClientRect q el) in
  nid (props el) = nid (props a)
  ∧ click (Some i) {| page := q; sent := before |}
    = (lit "Clicked: (" ++ clickLabel a ++ lit ") " ++ clickDesc a,
       {| page := react (InputDispatchMouseEvent mouseReleased x y)
                    (react (InputDispatchMouseEvent mousePressed x y) q);
          sent := before ++ [RuntimeEvaluate HasStamps;
                             RuntimeEvaluate (ClickInfo i);
                             InputDispatchMouseEvent mousePressed x y;
                             InputDispatchMouseEvent mouseReleased x y] |}).
Proof.
  intros Hu Hroot Hi. cbv zeta.
  pose proof (indexed_ids_NoDup _ _ _ Hu Hroot) as Hnd.
  split.
  - rewrite props_mapNode.
    by rewrite (stampFn_present _ 0 (props a) i a Hnd Hi eq_refl).
  - destruct (indexed_first _ _ _ _ Hi) as [a0 Ha0].
    pose proof (hasStamps_scanned _ _ _ _ Hu Hroot Ha0) as Hst.
    pose proof (lookupIndex_scanned _ _ _ i Hu Hroot) as Hlk.
    rewrite Hi in Hlk. cbn [fmap option_fmap option_map] in Hlk.
    rewrite cmdClick_eq, ensureIndexed_eq. cbn [page].
    rewrite Hst. cbn [snd probed page sent]. rewrite Hlk.
    rewrite clickLabel_shape, clickDesc_shape by apply stampFn_shape.
    by rewrite <- app_assoc.
Qed.

(** X5.  An index beyond the list just printed is refused: the reply
    is the not-found message and no mouse event is dispatched. *)
Theorem click_out_of_range selector p root i before :
  uniqueIds (document p) →
  scanRoot selector (deepClearStamps (document p)) = Some root →
  (0 < length (indexed selector p) ≤ i)%nat →
  click (Some i) {| page := scannedPage selector p; sent := before |}
  = (lit "Element not found at index " ++ ofNat i ++ lit ". Try: elements",
     {| page := scannedPage selector p;
        sent := before ++ [RuntimeEvaluate HasStamps;
                           RuntimeEvaluate (ClickInfo i)] |}).
Proof.
  intros Hu Hroot [Hpos Hi].
  destruct (lookup_lt_is_Some_2 _ _ Hpos) as [a0 Ha0].
  rewrite cmdClick_eq, ensureIndexed_eq. cbn [page].
  rewrite (hasStamps_scanned _ _ _ _ Hu Hroot Ha0).
  cbn [snd probed page sent].
  rewrite (lookupIndex_scanned _ _ _ _ Hu Hroot).
  rewrite (lookup_ge_None_2 _ _ Hi). cbn [fmap option_fmap option_map].
  by rewrite <- app_assoc.
Qed.

End ClickAfterScan.

Lemma click_after_scan_witness :
  nid (props (mapNode (stampFn 0 (indexed None modalPage)) pageSave)) = 5%nat
  ∧ fst (cmdClick stillLayout inert (Some 1%nat)
           (start (scannedPage None modalPage)))
    = lit "Clicked: (button) Save".
Proof.
  destruct (click_after_scan stillLayout inert None modalPage
              (Fragment (deepClearStamps (document modalPage))) 1 pageSave []
              uniqueIds_modalPage eq_refl) as [Hid Hclick].
  - vm_compute. reflexivity.
  - split; [exact Hid|].
    unfold start. rewrite Hclick. vm_compute. reflexivity.
Defined.

Lemma click_out_of_range_witness :
  fst (cmdClick stillLayout inert (Some 7%nat)
         (start (scannedPage None modalPage)))
  = lit "Element not found at index 7. Try: elements".
Proof.
  unfold start.
  rewrite (click_out_of_range stillLayout inert None modalPage
             (Fragment (deepClearStamps (document modalPage))) 7 []
             uniqueIds_modalPage eq_refl).
  - vm_compute. reflexivity.
  - vm_compute. lia.
Defined.

(** ** A scan that lists nothing *)

Section EmptyScan.

Variable getBoundingClientRect : Page → Node → Rect.
Variable react : Command → Page → Page.

Lemma scannedPage_empty selector p :
  indexed selector p = [] →
  scannedPage selector p
  = {| document := deepClearStamps (document p); bjsDeepQuery := true |}.
Proof.
  intros Hnone.
  destruct (scanRoot selector (deepClearStamps (document p))) as [root|] eqn:Hroot.
  - by rewrite (scannedPage_document _ _ _ Hroot), Hnone.
  - unfold scannedPage, ELEMENTS_JS. by rewrite Hroot.
Qed.

Lemma unstamped_lookupIndex p i : unstamped (document p) → lookupIndex p i = None.
Proof.
  intros Hdoc. unfold lookupIndex.
  rewrite deepQueryStamp_head, (unstamped_deepQueryAll _ _ Hdoc (needsStamp_idx i)).
  rewrite (unstamped_querySelector _ _ Hdoc (needsStamp_idx i)).
  by destruct (bjsDeepQuery p).
Qed.

(** X6.  A scan that lists nothing, because its selector matches no
    element or because nothing interactive is visible under it, still
    removes every stamp of the page: no index of an earlier list
    resolves any more, and the next [ensureIndexed] scans again, the
    whole document this time, whatever the selector was. *)
Theorem empty_scan_rescans selector p before :
  indexed selector p = [] →
  let q := scannedPage selector p in
  unstamped (document q)
  ∧ (∀ i, lookupIndex q i = None)
  ∧ ensureIndexed {| page := q; sent := before |}
    = (true, {| page := scannedPage None p;
                sent := before ++ [RuntimeEvaluate HasStamps;
                                   RuntimeEvaluate (Elements None)] |}).
Proof.
  intros Hnone. cbv zeta. rewrite (scannedPage_empty _ _ Hnone).
  pose proof (unstamped_clear (document p)) as Hclear.
  split; [done|]. split; [intros i; by apply unstamped_lookupIndex|].
  rewrite ensureIndexed_unstamped by done.
  unfold scanned, scannedPage. cbn [page sent]. do 3 f_equal.
  apply ELEMENTS_JS_cleared. cbn [document]. apply clear_clear.
Qed.

End EmptyScan.

Lemma empty_scan_rescans_witness :
  lookupIndex (scannedPage None modalPage) 0 = Some (stamped 0 modalSave)
  ∧ lookupIndex
      (scannedPage (Some [tagSel "table"]) (scannedPage None modalPage)) 0 = None
  ∧ ensureIndexed
      (start (scannedPage (Some [tagSel "table"]) (scannedPage None modalPage)))
    = (true, {| page := scannedPage None modalPage;
                sent := [RuntimeEvaluate HasStamps;
                         RuntimeEvaluate (Elements None)] |}).
Proof.
  destruct (empty_scan_rescans (Some [tagSel "table"])
              (scannedPage None modalPage) []) as (_ & Hgone & Hagain).
  - vm_compute. reflexivity.
  - split; [vm_compute; reflexivity|]. split; [apply Hgone|].
    unfold start. rewrite Hagain. vm_compute. reflexivity.
Defined.

(** ** What the de-duplication keeps and what it merges *)

Section Coverage.

Variable top : option Node.

(** Whatever the loop goes through is either kept or has the key of
    something seen or kept before it. *)
Lemma keptFrom_covers l : ∀ seen a,
  a ∈ l → skipped a = false →
  keyOf top a ∈ seen
  ∨ ∃ b, b ∈ keptFrom top seen l ∧ keyOf top b = keyOf top a.
Proof.
  induction l as [|el l IH]; intros seen a Ha Hs; [by apply elem_of_nil in Ha|].
  apply elem_of_cons in Ha as [-> | Ha]; cbn [keptFrom].
  - rewrite Hs. destruct (bool_decide (keyOf top el ∈ seen)) eqn:Hk.
    + left. by apply bool_decide_eq_true in Hk.
    + right. exists el. split; [apply list_elem_of_here | done].
  - destruct (skipped el); [by apply IH|].
    destruct (bool_decide (keyOf top el ∈ seen)) eqn:Hk; [by apply IH|].
    destruct (IH ({[ keyOf top el ]} ∪ seen) a Ha Hs) as [Hin | [b [Hb Hkey]]].
    + apply elem_of_union in Hin as [Hin%elem_of_singleton | Hin].
      * right. exists el. split; [apply list_elem_of_here | done].
      * by left.
    + right. exists b. split; [by apply list_elem_of_further | done].
Qed.

Lemma sorted_elem_2 l x : x ∈ l → x ∈ sorted top l.
Proof.
  rewrite sorted_partition, elem_of_app, !list_elem_of_In, !filter_In.
  intros Hx. destruct (inDialog top x) eqn:Hd; [left | right]; by rewrite ?Hd.
Qed.

(** Two strings cut at the first occurrence of a separator. *)
Lemma split_first (c : N) (x x' r r' : jsstr) :
  c ∉ x → c ∉ x' → x ++ c :: r = x' ++ c :: r' → x = x' ∧ r = r'.
Proof.
  revert x'. induction x as [|d x IH]; intros [|d' x'] Hx Hx' Heq; simpl in Heq.
  - by injection Heq as ->.
  - injection Heq as <- _. exfalso. apply Hx', list_elem_of_here.
  - injection Heq as -> _. exfalso. apply Hx, list_elem_of_here.
  - injection Heq as -> Heq.
    destruct (IH x') as [-> ->]; [| |done|done].
    + intros Hin. by apply Hx, list_elem_of_further.
    + intros Hin. by apply Hx', list_elem_of_further.
Qed.

Lemma scope_no_bar a : 124 ∉ scopeOf top a.
Proof.
  unfold scopeOf. destruct (inDialog top a); rewrite ?lit_modal, ?lit_page;
    intros Hin; repeat (apply elem_of_cons in Hin as [Hin | Hin]; [done|]);
    by apply elem_of_nil in Hin.
Qed.

End Coverage.

(** *** The scan with its exceptions, when none is raised *)

Section GuardedFacts.

Variable spreadThrows : list Node → bool.
Variable animatedHref : Element → bool.

Local Abbreviation shadowQueryAllG := (Guarded.shadowQueryAll spreadThrows).
Local Abbreviation deepQueryAllG := (Guarded.deepQueryAll spreadThrows).
Local Abbreviation scanLoopG := (Guarded.scanLoop animatedHref).
Local Abbreviation scanG := (Guarded.ELEMENTS_JS spreadThrows animatedHref).

Lemma shadowQueryAllG_unfold sel e kids sh :
  shadowQueryAllG sel (Elem e kids sh)
  = match
      match sh with
      | Some s =>
          match Guarded.shadowHosts spreadThrows sel s with
          | Some inner =>
              Guarded.pushAll spreadThrows
                (Guarded.tryPush spreadThrows (querySelectorAll (Fragment s) sel)
                   ++ inner)
          | None => None
          end
      | None => Some []
      end
    with
    | Some own =>
        match Guarded.shadowHosts spreadThrows sel kids with
        | Some rest => Some (own ++ rest)
        | None => None
        end
    | None => None
    end.
Proof. reflexivity. Qed.

Local Abbreviation takes := (Guarded.takes spreadThrows).

Lemma gather_agrees sel (n : nat) l :
  Forall (onChild (λ k, (length (Scan.shadowQueryAll sel k) ≤ n)%nat →
                        shadowQueryAllG sel k = Some (Scan.shadowQueryAll sel k))) l →
  (length (flat_map (onElem (Scan.shadowQueryAll sel)) l) ≤ n)%nat →
  Guarded.shadowHosts spreadThrows sel l
  = Some (flat_map (onElem (Scan.shadowQueryAll sel)) l).
Proof.
  unfold Guarded.shadowHosts.
  induction 1 as [|c l Hc _ IH]; intros Hlen; [done|].
  cbn [flat_map] in Hlen. rewrite length_app in Hlen.
  destruct c as [t|k]; cbn [Guarded.gather flat_map onElem] in *.
  - apply IH. lia.
  - rewrite Hc, IH; [done | lia | lia].
Qed.

Lemma shadowQueryAllG_agrees sel (n : nat) k :
  takes n →
  (length (Scan.shadowQueryAll sel k) ≤ n)%nat →
  shadowQueryAllG sel k = Some (Scan.shadowQueryAll sel k).
Proof.
  intros Htakes. induction k as [e kids sh IHkids IHsh] using Node_ind.
  intros Hlen. rewrite shadowQueryAllG_unfold.
  change (Scan.shadowQueryAll sel (Elem e kids sh))
    with (match sh with
          | Some s =>
              querySelectorAll (Fragment s) sel
                ++ flat_map (onElem (Scan.shadowQueryAll sel)) s
          | None => []
          end ++ flat_map (onElem (Scan.shadowQueryAll sel)) kids) in *.
  rewrite length_app in Hlen.
  rewrite (gather_agrees sel n kids IHkids) by lia.
  destruct sh as [s|]; [|done]. rewrite length_app in Hlen.
  rewrite (gather_agrees sel n s IHsh) by lia.
  unfold Guarded.pushAll, Guarded.tryPush.
  rewrite (Htakes (querySelectorAll (Fragment s) sel)) by lia.
  rewrite Htakes; [done|]. rewrite length_app. lia.
Qed.

Lemma deepQueryAllG_agrees root sel :
  Guarded.spreadsFit spreadThrows root sel →
  deepQueryAllG root sel = Some (Scan.deepQueryAll root sel).
Proof.
  unfold Guarded.spreadsFit, Guarded.soughtIn. intros Htakes.
  assert (length (Scan.deepQueryAll root sel)
          = length (List.filter (selects sel) (walk root))) as Hlen
    by (by rewrite deepQueryAll_walk, length_fmap).
  rewrite <- Hlen in Htakes.
  unfold Guarded.deepQueryAll, Scan.deepQueryAll in *.
  rewrite length_app in Htakes.
  rewrite (gather_agrees sel
             (length (querySelectorAll root sel)
              + length (flat_map (onElem (Scan.shadowQueryAll sel)) (kidsOf root)))).
  - unfold Guarded.tryPush. rewrite Htakes; [done | lia].
  - apply list.Forall_forall. intros [t|k] _; cbn [onChild]; [done|].
    by apply shadowQueryAllG_agrees.
  - lia.
Qed.

Lemma scanLoopG_agrees top l : ∀ st,
  (∀ a, a ∈ l → animatedHref (props a) = false) →
  scanLoopG top l st = Guarded.Running (Scan.scanLoop top l st).
Proof.
  unfold Guarded.scanLoop, Scan.scanLoop.
  induction l as [|el l IH]; intros st Hplain; [done|].
  cbn [foldl]. rewrite <- IH
    by (intros a Ha; by apply Hplain, list_elem_of_further).
  f_equal. cbn [Guarded.visit].
  rewrite (Hplain el) by apply list_elem_of_here. rewrite andb_false_r.
  unfold Scan.visit. by destruct (skipped el).
Qed.

(** When the engine refuses no spread and no [href] is an object, the
    script raises nothing and does what the scan does. *)
Lemma scanG_agrees selector p root :
  scanRoot selector (deepClearStamps (document p)) = Some root →
  Guarded.spreadsFit spreadThrows root interactiveSelectors →
  Guarded.plainHrefs animatedHref root interactiveSelectors →
  scanG selector p
  = (Guarded.Value (fst (Scan.ELEMENTS_JS selector p)),
     snd (Scan.ELEMENTS_JS selector p)).
Proof.
  intros Hroot Hfit Hplain. unfold Guarded.ELEMENTS_JS, Scan.ELEMENTS_JS.
  rewrite Hroot, (deepQueryAllG_agrees _ _ Hfit), scanLoopG_agrees; [done|].
  intros a Ha%sorted_elem. apply Hplain. by apply deepQueryAll_in in Ha.
Qed.

End GuardedFacts.

(** X7.  Nothing visible that the scan is after is lost.  When the
    engine takes a call with as many arguments as there are matching
    elements under the root (so that no spread is refused) and no
    matching element has an [href] that is not a string, the script
    returns a list, and every element under the children of the scan
    root, in the
    root's own tree or in the shadow tree of one of its descendants at
    any depth, that matches an interactive selector and is visible
    either is listed or has the de-duplication key of a listed element.
    The shadow tree of the scan root itself is not among the places
    searched. *)
Theorem scan_covers_visible spreadThrows animatedHref selector p root ancs a :
  scanRoot selector (deepClearStamps (document p)) = Some root →
  Guarded.spreadsFit spreadThrows root interactiveSelectors →
  Guarded.plainHrefs animatedHref root interactiveSelectors →
  below (baseOf root) (kidsOf root) ancs a →
  matches interactiveSelectors ancs (props a) = true →
  skipped a = false →
  ∃ rs i b,
    fst (Guarded.ELEMENTS_JS spreadThrows animatedHref selector p)
    = Guarded.Value (ScanResults rs)
    ∧ indexed selector p !! i = Some b
    ∧ rs !! i = Some (describe b)
    ∧ keyOf (activeDialog p) b = keyOf (activeDialog p) a.
Proof.
  intros Hroot Hfit Hplain Hbelow Hmatch Hs.
  assert (a ∈ candidates selector p) as Hc.
  { unfold candidates. rewrite Hroot. apply sorted_elem_2.
    by apply (deepQueryAll_complete _ _ ancs). }
  destruct (keptFrom_covers (activeDialog p) _ ∅ a Hc Hs) as [Hin | [b [Hb Hkey]]];
    [by apply elem_of_empty in Hin|].
  fold (indexed selector p) in Hb. apply list_elem_of_lookup in Hb as [i Hi].
  exists (describe <$> indexed selector p), i, b.
  rewrite (scanG_agrees _ _ _ _ _ Hroot Hfit Hplain). cbn [fst].
  split; [by rewrite ELEMENTS_JS_results, Hroot|].
  split; [done|]. split; [by rewrite list_lookup_fmap, Hi | done].
Qed.

Lemma modalPage_sought :
  length (Guarded.soughtIn (Fragment (deepClearStamps (document modalPage)))
            interactiveSelectors) = 3%nat.
Proof. vm_compute. reflexivity. Defined.

Lemma scan_covers_visible_witness :
  ∃ rs i b,
    fst (Guarded.ELEMENTS_JS (Guarded.takesAtMost 3) Guarded.noAnimated None modalPage)
    = Guarded.Value (ScanResults rs)
    ∧ indexed None modalPage !! i = Some b
    ∧ rs !! i = Some (describe b)
    ∧ keyOf (activeDialog modalPage) b = keyOf (activeDialog modalPage) modalSaveAgain.
Proof.
  apply (scan_covers_visible (Guarded.takesAtMost 3) Guarded.noAnimated None modalPage
           (Fragment (deepClearStamps (document modalPage)))
           [element 6 "DIV" [("role", "dialog")]; element 0 "BODY" []]).
  - reflexivity.
  - intros l Hl. rewrite modalPage_sought in Hl.
    unfold Guarded.takesAtMost. apply Nat.ltb_ge. lia.
  - intros x _. reflexivity.
  - apply walk_below. apply (list_elem_of_lookup_2 _ 4%nat). vm_compute. reflexivity.
  - vm_compute. reflexivity.
  - vm_compute. reflexivity.
Defined.

(** X8.  The key separates its three parts: when the labels hold no
    vertical bar, two nodes have the same key only if they have the same
    dialog scope, the same label and the same description, so the scan
    merges nothing but exact duplicates and the entries it lists for
    them are equal. *)
Theorem key_separates top a b :
  124 ∉ labelOf (props a) →
  124 ∉ labelOf (props b) →
  keyOf top a = keyOf top b →
  scopeOf top a = scopeOf top b
  ∧ labelOf (props a) = labelOf (props b)
  ∧ descOf a = descOf b
  ∧ describe a = describe b.
Proof.
  intros Ha Hb Hkey. unfold keyOf in Hkey.
  change (lit "|") with [124] in Hkey. cbn [app] in Hkey.
  apply split_first in Hkey as [Hscope Hkey]; [|apply scope_no_bar..].
  apply split_first in Hkey as [Hlabel Hdesc]; [|done..].
  unfold describe. by rewrite Hscope, Hlabel, Hdesc.
Qed.

Lemma key_separates_witness :
  scopeOf (activeDialog modalPage) modalSave
  = scopeOf (activeDialog modalPage) modalSaveAgain
  ∧ labelOf (props modalSave) = labelOf (props modalSaveAgain)
  ∧ descOf modalSave = descOf modalSaveAgain
  ∧ describe modalSave = describe modalSaveAgain.
Proof.
  apply key_separates.
  - apply (@bool_decide_unpack _ (not_dec (list_elem_of_dec _ _))).
    vm_compute. exact I.
  - apply (@bool_decide_unpack _ (not_dec (list_elem_of_dec _ _))).
    vm_compute. exact I.
  - vm_compute. reflexivity.
Defined.

(** ** Typing key by key *)

Section Fallback.

Variable react : Command → Page → Page.
Variable insertTextRejected : Page → jsstr → bool.

Lemma codePoints_step c d s :
  codePoints (c :: d :: s)
  = if surrogatePair c d then [c; d] :: codePoints s
    else [c] :: codePoints (d :: s).
Proof. reflexivity. Qed.

Lemma codePoints_concat s : concat (codePoints s) = s.
Proof.
  induction s as [s IH] using (induction_ltof1 _ (@length N)).
  unfold ltof in IH.
  destruct s as [|c [|d s]]; [done | done |].
  rewrite codePoints_step. destruct (surrogatePair c d).
  - cbn [concat app]. rewrite IH; [done | simpl; lia].
  - cbn [concat app]. rewrite IH; [done | simpl; lia].
Qed.

Lemma codePoints_chars s : Forall isChar (codePoints s).
Proof.
  induction s as [s IH] using (induction_ltof1 _ (@length N)).
  unfold ltof in IH.
  destruct s as [|c [|d s]]; [constructor | by repeat constructor |].
  rewrite codePoints_step. destruct (surrogatePair c d) eqn:Hp.
  - constructor; [exact Hp | apply IH; simpl; lia].
  - constructor; [exact I | apply IH; simpl; lia].
Qed.

Lemma typeChars_keys chars : ∀ s,
  sent (snd (typeChars react chars s)) = sent s ++ flat_map keyPair chars.
Proof.
  induction chars as [|c chars IH]; intros s; cbn [typeChars flat_map].
  - unfold mret, M_ret. simpl. by rewrite app_nil_r.
  - rewrite !mbind_eq. rewrite IH. unfold send. cbn [snd sent fst].
    by rewrite <- !app_assoc.
Qed.

Lemma keyDowns_pairs chars : keyDowns (flat_map keyPair chars) = chars.
Proof. induction chars as [|c chars IH]; [done|]. simpl. by rewrite IH. Qed.

(** X9.  Inserting text sends [Input.insertText] with the whole text;
    only when the browser rejects it are keys sent instead, one key
    down and one key up per character in the order of the text, where
    a character is one code unit or an unbroken surrogate pair, and
    the characters typed make up exactly the text. *)
Theorem fallback_types_whole_text text s :
  let rejected := insertTextRejected (page s) text in
  let evs := if rejected then flat_map keyPair (codePoints text) else [] in
  sent (snd (insertText react insertTextRejected text s))
  = sent s ++ InputInsertText text :: evs
  ∧ concat (codePoints text) = text
  ∧ Forall isChar (codePoints text)
  ∧ concat (keyDowns evs) = (if rejected then text else [])
  ∧ length evs = (if rejected then 2 * length (codePoints text) else 0)%nat.
Proof.
  cbv zeta. split; [|split; [|split]].
  - unfold insertText. destruct (insertTextRejected (page s) text).
    + rewrite typeChars_keys. cbn [sent]. by rewrite <- app_assoc.
    + done.
  - apply codePoints_concat.
  - apply codePoints_chars.
  - destruct (insertTextRejected (page s) text); [|done].
    rewrite keyDowns_pairs. split; [apply codePoints_concat|].
    induction (codePoints text) as [|c l IH]; [done|].
    cbn [flat_map keyPair app length]. rewrite IH. lia.
Qed.

End Fallback.

(** ** The text command *)

Section TextFacts.

Lemma extractText_unfold e kids sh st :
  extractText (Elem e kids sh) st
  = if (MAX <=? totalLen st)%nat then st
    else foldl (extractChild (Some e))
           (match sh with
            | Some s => foldl (extractChild None) st s
            | None => st
            end) kids.
Proof. reflexivity. Qed.

Lemma textsOf_unfold e kids sh :
  textsOf (Elem e kids sh)
  = match sh with
    | Some s => flat_map (textsOfChild None) s
    | None => []
    end ++ flat_map (textsOfChild (Some e)) kids.
Proof. reflexivity. Qed.

Lemma collect_full st l : (MAX ≤ totalLen st)%nat → collect st l = st.
Proof.
  intros Hfull. destruct l as [|t l]; [done|]. cbn [collect].
  by rewrite (proj2 (Nat.leb_le _ _) Hfull).
Qed.

Lemma collect_app l1 : ∀ st l2,
  collect st (l1 ++ l2) = collect (collect st l1) l2.
Proof.
  induction l1 as [|t l1 IH]; intros st l2; [done|]. cbn [app collect].
  destruct (MAX <=? totalLen st)%nat eqn:Hfull; [|apply IH].
  apply Nat.leb_le in Hfull. by rewrite collect_full.
Qed.

Lemma readable_spec parent t :
  readable parent t
  = (0 <? length (trim t))%nat
    && match parent with
       | Some p =>
           negb (bool_decide (tagName p ∈ unreadTags))
           && negb (bool_decide (offsetParent p = None)
                    && negb (streq (position p) (lit "fixed")))
       | None => true
       end.
Proof.
  unfold readable. f_equal.
  - by destruct (trim t).
  - destruct parent as [p|]; [|done]. f_equal.
    destruct (offsetParent p); simpl; by rewrite ?negb_involutive.
Qed.

Lemma extractTextNode_collect parent t st :
  extractTextNode parent t st
  = collect st (if readable parent t then [trim t] else []).
Proof.
  unfold extractTextNode. rewrite readable_spec.
  destruct (MAX <=? totalLen st)%nat eqn:Hfull.
  - apply Nat.leb_le in Hfull. by rewrite collect_full.
  - destruct (0 <? length (trim t))%nat; [|done]. cbn [andb].
    destruct parent as [p|]; [|cbn [collect]; by rewrite Hfull].
    destruct (bool_decide (tagName p ∈ unreadTags)); [done|]. cbn [negb andb].
    destruct (bool_decide (offsetParent p = None)
              && negb (streq (position p) (lit "fixed"))); [done|].
    cbn [negb collect]. by rewrite Hfull.
Qed.

Lemma extractChildren_collect parent l :
  Forall (onChild (λ k, ∀ st, extractText k st = collect st (textsOf k))) l →
  ∀ st, foldl (extractChild parent) st l
        = collect st (flat_map (textsOfChild parent) l).
Proof.
  induction 1 as [|c l Hc _ IH]; intros st; [done|].
  cbn [foldl flat_map]. rewrite IH, collect_app. f_equal.
  destruct c as [t|k]; [apply extractTextNode_collect | apply Hc].
Qed.

(** The stateful visit is the limited collection of the texts. *)
Lemma extractText_collect n : ∀ st,
  extractText n st = collect st (textsOf n).
Proof.
  induction n as [e kids sh IHkids IHsh] using Node_ind. intros st.
  rewrite extractText_unfold, textsOf_unfold.
  destruct (MAX <=? totalLen st)%nat eqn:Hfull.
  - apply Nat.leb_le in Hfull. by rewrite collect_full.
  - rewrite collect_app, (extractChildren_collect _ _ IHkids). f_equal.
    destruct sh as [s|]; [|done]. by apply extractChildren_collect.
Qed.

Lemma sumLengths_app l1 l2 :
  sumLengths (l1 ++ l2) = (sumLengths l1 + sumLengths l2)%nat.
Proof. apply sum_list_with_app. Qed.

Lemma collect_shape l : ∀ st,
  totalLen st = sumLengths (chunks st) →
  (∀ pre t, chunks st = pre ++ [t] → (sumLengths pre < MAX)%nat) →
  ∃ k, chunks (collect st l) = chunks st ++ take k l
       ∧ totalLen (collect st l) = sumLengths (chunks (collect st l))
       ∧ ((totalLen (collect st l) < MAX)%nat → (length l ≤ k)%nat)
       ∧ (∀ pre t, chunks (collect st l) = pre ++ [t] →
                   (sumLengths pre < MAX)%nat).
Proof.
  induction l as [|t l IH]; intros st Hsum Hpre.
  - exists 0%nat. cbn [collect take]. rewrite app_nil_r. done.
  - cbn [collect]. destruct (MAX <=? totalLen st)%nat eqn:Hfull.
    + apply Nat.leb_le in Hfull. exists 0%nat. cbn [take]. rewrite app_nil_r.
      split; [done|]. split; [done|]. split; [lia | done].
    + apply Nat.leb_gt in Hfull.
      destruct (IH (push t st)) as (k & Hk & Htot & Hall & Hlast).
      * unfold push. cbn [chunks totalLen].
        rewrite sumLengths_app, Hsum. unfold sumLengths. simpl. lia.
      * unfold push. cbn [chunks]. intros pre u [Heq _]%app_inj_tail.
        rewrite <- Heq. lia.
      * exists (S k). cbn [take length]. unfold push in Hk. cbn [chunks] in Hk.
        rewrite <- app_assoc in Hk. split; [done|]. split; [done|].
        split; [|done]. intros Hlt. apply Hall in Hlt. lia.
Qed.

Lemma textsOfChildren_textIn parent l u :
  u ∈ flat_map (textsOfChild parent) l →
  (∃ t, inl t ∈ l ∧ readable parent t = true ∧ u = trim t)
  ∨ (∃ k, inr k ∈ l ∧ u ∈ textsOf k).
Proof.
  intros Hu%list_elem_of_In%in_flat_map. destruct Hu as [c [Hc Hu]].
  apply list_elem_of_In in Hc, Hu. destruct c as [t|k].
  - left. exists t. cbn [textsOfChild] in Hu.
    destruct (readable parent t) eqn:Hr; [|by apply elem_of_nil in Hu].
    apply list_elem_of_singleton in Hu. done.
  - right. by exists k.
Qed.

Lemma textsOf_sound n : ∀ u,
  u ∈ textsOf n →
  ∃ parent t, textIn n parent t ∧ readable parent t = true ∧ u = trim t.
Proof.
  induction n as [e kids sh IHkids IHsh] using Node_ind. intros u.
  rewrite textsOf_unfold. intros [Hu | Hu]%elem_of_app.
  - destruct sh as [s|]; [|by apply elem_of_nil in Hu].
    apply textsOfChildren_textIn in Hu
      as [(t & Ht & Hr & ->) | (k & Hk & Hu)].
    + exists None, t. split; [|done]. by apply (textIn_shadow _ s).
    + unfold onChildren in IHsh. rewrite list.Forall_forall in IHsh.
      destruct (IHsh _ Hk u Hu) as (parent & t & Hin & Hr & ->).
      exists parent, t. split; [|done]. by apply (textIn_deep _ s k).
  - apply textsOfChildren_textIn in Hu
      as [(t & Ht & Hr & ->) | (k & Hk & Hu)].
    + exists (Some e), t. split; [|done].
      by apply (textIn_child (Elem e kids sh)).
    + unfold onChildren in IHkids. rewrite list.Forall_forall in IHkids.
      destruct (IHkids _ Hk u Hu) as (parent & t & Hin & Hr & ->).
      exists parent, t. split; [|done]. by apply (textIn_light _ k).
Qed.

Lemma textsOfChild_text parent l t :
  inl t ∈ l → readable parent t = true →
  trim t ∈ flat_map (textsOfChild parent) l.
Proof.
  intros Ht Hr. apply list_elem_of_In, in_flat_map. exists (inl t).
  split; [by apply list_elem_of_In|]. cbn [textsOfChild]. rewrite Hr. by left.
Qed.

Lemma textsOfChild_node parent l k u :
  inr k ∈ l → u ∈ textsOf k → u ∈ flat_map (textsOfChild parent) l.
Proof.
  intros Hk Hu. apply list_elem_of_In, in_flat_map. exists (inr k).
  split; by apply list_elem_of_In.
Qed.

Lemma textsOf_complete n parent t :
  textIn n parent t → readable parent t = true → trim t ∈ textsOf n.
Proof.
  induction 1 as [[e kids sh] t Ht | [e kids sh] s t Hs Ht
                 | [e kids sh] k parent t Hk _ IH
                 | [e kids sh] s k parent t Hs Hk _ IH];
    intros Hr; rewrite textsOf_unfold; cbn [childNodes shadowRoot props] in *.
  - apply elem_of_app. right. by apply textsOfChild_text.
  - subst sh. apply elem_of_app. left. by apply textsOfChild_text.
  - apply elem_of_app. right. apply (textsOfChild_node _ _ k); [done|]. by apply IH.
  - subst sh. apply elem_of_app. left.
    apply (textsOfChild_node _ _ k); [done|]. by apply IH.
Qed.

End TextFacts.

Lemma collect_nothing root :
  ∃ k, chunks (extractText root nothing) = take k (textsOf root)
       ∧ totalLen (extractText root nothing)
         = sumLengths (chunks (extractText root nothing))
       ∧ ((totalLen (extractText root nothing) < MAX)%nat
          → (length (textsOf root) ≤ k)%nat)
       ∧ (∀ pre t, chunks (extractText root nothing) = pre ++ [t] →
                   (sumLengths pre < MAX)%nat).
Proof.
  rewrite extractText_collect.
  destruct (collect_shape (textsOf root) nothing) as (k & Hk & Hrest); [done| |].
  - intros [|? ?] t; discriminate.
  - exists k. split; [exact Hk | exact Hrest].
Qed.

(** X10.  The text command visits the root's shadow tree, then its child
    nodes, and so on in depth; what it collects is a prefix of the
    readable texts in that order, nothing in between is left out; the
    running length is the sum of the lengths collected; the visit goes
    on to the end while that sum stays under the limit of 8000, and
    whatever was collected before the last text was under the limit. *)
Theorem text_in_budget root :
  let st := extractText root nothing in
  chunks st `prefix_of` textsOf root
  ∧ totalLen st = sumLengths (chunks st)
  ∧ ((totalLen st < MAX)%nat → chunks st = textsOf root)
  ∧ (∀ pre t, chunks st = pre ++ [t] → (sumLengths pre < MAX)%nat).
Proof.
  cbv zeta. destruct (collect_nothing root) as (k & Hk & Htot & Hall & Hlast).
  split; [|split; [done|split; [|done]]].
  - exists (drop k (textsOf root)). by rewrite Hk, take_drop.
  - intros Hlt. rewrite Hk. apply take_ge. by apply Hall.
Qed.

(** X11.  What the text command reads: every text it collects is the
    trimmed content of a text node under the root, in the root's own
    tree or in a shadow tree at any depth, the root's own shadow tree
    included, whose trimmed content is not empty and whose parent
    element, if any, is rendered and is no SCRIPT, STYLE, NOSCRIPT or
    SVG element; and as long as the limit is not reached, every such
    text node is collected. *)
Theorem text_reads root :
  let st := extractText root nothing in
  (∀ u, u ∈ chunks st →
        ∃ parent t, textIn root parent t ∧ readable parent t = true ∧ u = trim t)
  ∧ ((totalLen st < MAX)%nat →
     ∀ parent t, textIn root parent t → readable parent t = true →
                 trim t ∈ chunks st).
Proof.
  cbv zeta. destruct (collect_nothing root) as (k & Hk & Htot & Hall & Hlast).
  split.
  - intros u Hu. rewrite Hk in Hu. apply textsOf_sound.
    by apply elem_of_take in Hu as (i & Hi%list_elem_of_lookup_2 & _).
  - intros Hlt parent t Hin Hr. rewrite Hk, take_ge by (by apply Hall).
    by apply (textsOf_complete _ parent).
Qed.

Lemma finishText_bounds st :
  finishText st ≠ [] ∧ (length (finishText st) ≤ MAX + 15)%nat.
Proof.
  unfold finishText.
  generalize (trim (collapseWhite (joinSpace (chunks st)))). intros text.
  destruct (MAX <? length text)%nat eqn:Hlong.
  - apply Nat.ltb_lt in Hlong.
    assert (length (slice0 MAX text ++ lit "... (truncated)") = (MAX + 15)%nat)
      as Hlen.
    { rewrite length_app. unfold slice0. rewrite length_take.
      change (length (lit "... (truncated)")) with 15%nat. lia. }
    destruct (slice0 MAX text ++ lit "... (truncated)") as [|c l] eqn:Hs.
    + simpl in Hlen. lia.
    + cbn [or_else truthy]. split; [done | lia].
  - apply Nat.ltb_ge in Hlong. destruct text as [|c l].
    + cbn [or_else truthy]. split; [done|].
      change (length (lit "(empty page)")) with 12%nat. lia.
    + cbn [or_else truthy]. split; [done | lia].
Qed.

(** X12.  The reply of the text command is never empty and never longer
    than 8000 units plus the truncation mark; a root without any
    readable text gives [(empty page)]. *)
Theorem text_output body selector p root :
  textRoot body selector p = Some root →
  ∃ s, textScript body selector p = TextFound s
       ∧ s ≠ []
       ∧ (length s ≤ MAX + 15)%nat
       ∧ (textsOf root = [] → s = lit "(empty page)").
Proof.
  intros Hroot. unfold textScript. rewrite Hroot.
  eexists. split; [done|].
  destruct (finishText_bounds (extractText root nothing)) as [Hne Hlen].
  split; [done|]. split; [done|].
  intros Hnone. rewrite extractText_collect, Hnone. reflexivity.
Qed.

Lemma text_output_witness :
  ∃ s, textScript None (Some [tagSel "c1"]) shadowPage = TextFound s
       ∧ s ≠ []
       ∧ (length s ≤ MAX + 15)%nat
       ∧ (textsOf hostC1 = [] → s = lit "(empty page)").
Proof.
  apply (text_output None (Some [tagSel "c1"]) shadowPage hostC1).
  vm_compute. reflexivity.
Defined.

(** ** The elements command *)

Lemma keptFrom_skipped top l : ∀ seen,
  (∀ a, a ∈ l → skipped a = true) → keptFrom top seen l = [].
Proof.
  induction l as [|el l IH]; intros seen Hall; [done|]. cbn [keptFrom].
  rewrite (Hall el) by apply list_elem_of_here.
  apply IH. intros a Ha. by apply Hall, list_elem_of_further.
Qed.

(** X13.  When the scan root exists, the engine takes a call with as
    many arguments as there are matching elements under the root and no
    matching element has an [href] that is not a string, the elements
    command answers that no interactive element
    was found exactly when no element under the children of the root,
    in the root's own tree or in the shadow tree of one of its
    descendants at any depth, matches an interactive selector and is
    visible (the shadow tree of the root itself is not searched);
    otherwise its text has one line per listed element. *)
Theorem elements_none_iff spreadThrows animatedHref selector p root :
  scanRoot selector (deepClearStamps (document p)) = Some root →
  Guarded.spreadsFit spreadThrows root interactiveSelectors →
  Guarded.plainHrefs animatedHref root interactiveSelectors →
  (fst (cmdElements spreadThrows animatedHref selector p) = ElementsText noElements
   ↔ ∀ ancs a, below (baseOf root) (kidsOf root) ancs a →
               matches interactiveSelectors ancs (props a) = true →
               skipped a = true)
  ∧ (fst (cmdElements spreadThrows animatedHref selector p) ≠ ElementsText noElements →
     fst (cmdElements spreadThrows animatedHref selector p)
     = ElementsText (joinLines (imap elementLine (describe <$> indexed selector p)))).
Proof.
  intros Hroot Hfit Hplain. unfold cmdElements.
  rewrite (scanG_agrees _ _ _ _ _ Hroot Hfit Hplain).
  rewrite ELEMENTS_JS_results, Hroot. cbn [fst].
  rewrite length_fmap.
  destruct (indexed selector p) as [|b l] eqn:Hidx; cbn [length Nat.eqb].
  - split; [|done]. split; [|done]. intros _ ancs a Hbelow Hmatch.
    destruct (skipped a) eqn:Hs; [done|]. exfalso.
    assert (a ∈ candidates selector p) as Hc.
    { unfold candidates. rewrite Hroot. apply sorted_elem_2.
      by apply (deepQueryAll_complete _ _ ancs). }
    destruct (keptFrom_covers (activeDialog p) _ ∅ a Hc Hs) as [Hin | [c [Hc' _]]].
    + by apply elem_of_empty in Hin.
    + fold (indexed selector p) in Hc'. rewrite Hidx in Hc'.
      by apply elem_of_nil in Hc'.
  - split; [|done]. split.
    + intros [=].
    + intros Hall. exfalso.
      assert (indexed selector p = []) as Hnone.
      { unfold indexed. apply keptFrom_skipped. intros a Ha.
        unfold candidates in Ha. rewrite Hroot in Ha. apply sorted_elem in Ha.
        apply deepQueryAll_in in Ha as (ancs & Hbelow & Hmatch).
        by apply (Hall ancs). }
      by rewrite Hnone in Hidx.
Qed.

Lemma elements_none_iff_witness :
  (fst (cmdElements (Guarded.takesAtMost 3) Guarded.noAnimated None modalPage)
   = ElementsText noElements
   ↔ ∀ ancs a, below [] (deepClearStamps (document modalPage)) ancs a →
               matches interactiveSelectors ancs (props a) = true →
               skipped a = true)
  ∧ (fst (cmdElements (Guarded.takesAtMost 3) Guarded.noAnimated None modalPage)
     ≠ ElementsText noElements →
     fst (cmdElements (Guarded.takesAtMost 3) Guarded.noAnimated None modalPage)
     = ElementsText (joinLines (imap elementLine (describe <$> indexed None modalPage)))).
Proof.
  apply (elements_none_iff (Guarded.takesAtMost 3) Guarded.noAnimated None modalPage
           (Fragment (deepClearStamps (document modalPage)))).
  - reflexivity.
  - intros l Hl. rewrite modalPage_sought in Hl.
    unfold Guarded.takesAtMost. apply Nat.ltb_ge. lia.
  - intros x _. reflexivity.
Defined.

(** *** The scan with its exceptions, when one is raised *)

Section GuardedFailures.

Variable spreadThrows : list Node → bool.
Variable animatedHref : Element → bool.

Lemma gather_nothing sel l :
  Forall (onChild (λ k, Guarded.shadowQueryAll spreadThrows sel k = Some [])) l →
  Guarded.shadowHosts spreadThrows sel l = Some [].
Proof.
  unfold Guarded.shadowHosts.
  induction 1 as [|c l Hc _ IH]; [done|].
  destruct c as [t|k]; cbn [Guarded.gather]; [done|].
  cbn [onChild] in Hc. by rewrite Hc, IH.
Qed.

(** Without shadow roots the walker has nothing to add to the matches
    of the root's own tree. *)
Lemma shadowQueryAllG_nothing sel n : ∀ ancs,
  (∀ c x, (c, x) ∈ subtree ancs n → shadowRoot x = None) →
  Guarded.shadowQueryAll spreadThrows sel n = Some [].
Proof.
  induction n as [e kids sh IHkids IHsh] using Node_ind. intros ancs Hnone.
  rewrite shadowQueryAllG_unfold.
  assert (sh = None) as -> by (apply (Hnone ancs (Elem e kids sh)), subtree_self).
  rewrite gather_nothing; [done|].
  unfold onChildren in IHkids. rewrite list.Forall_forall in IHkids.
  apply list.Forall_forall. intros [t|k] Hk; cbn [onChild]; [done|].
  apply (IHkids _ Hk (e :: ancs)). intros c x Hx. apply (Hnone c x).
  cbn [subtree]. apply list_elem_of_further, list_elem_of_In, in_flat_map.
  exists (inr k). split; [by apply list_elem_of_In | by apply list_elem_of_In].
Qed.

Lemma shadowHosts_nothing sel root :
  (∀ c x, (c, x) ∈ descendants root → shadowRoot x = None) →
  Guarded.shadowHosts spreadThrows sel (kidsOf root) = Some [].
Proof.
  intros Hnone. apply gather_nothing, list.Forall_forall.
  intros [t|k] Hk; cbn [onChild]; [done|].
  apply (shadowQueryAllG_nothing sel k (baseOf root)). intros c x Hx.
  apply (Hnone c x). apply list_elem_of_In.
  destruct root as [kids | ancs [e kids sh]]; cbn [descendants kidsOf baseOf props] in *;
    apply in_flat_map; exists (inr k);
    (split; [by apply list_elem_of_In | by apply list_elem_of_In]).
Qed.

Lemma visitG_thrown top l : ∀ doc,
  foldl (Guarded.visit animatedHref top) (Guarded.Thrown doc) l = Guarded.Thrown doc.
Proof. induction l as [|el l IH]; intros doc; [done | apply IH]. Qed.

Lemma scanLoopG_throws top l a : ∀ st,
  a ∈ l → skipped a = false →
  tagOf (props a) = lit "a" → animatedHref (props a) = true →
  ∃ doc, Guarded.scanLoop animatedHref top l st = Guarded.Thrown doc.
Proof.
  unfold Guarded.scanLoop.
  induction l as [|el l IH]; intros st Ha Hs Htag Hobj;
    [by apply elem_of_nil in Ha|].
  cbn [foldl].
  destruct (Guarded.visit animatedHref top (Guarded.Running st) el)
    as [st' | doc] eqn:Hvisit.
  - apply elem_of_cons in Ha as [-> | Ha]; [|by apply IH].
    cbn [Guarded.visit] in Hvisit. rewrite Hs, Htag, Hobj in Hvisit.
    by cbn in Hvisit.
  - exists doc. apply visitG_thrown.
Qed.

End GuardedFailures.

(** X19.  A refused spread is swallowed.  When the engine refuses the
    spread of the matches of the root's own tree, the [catch] of
    [deepQueryAll] drops them without a word: under a root with no
    shadow root below it, the elements command answers that no
    interactive element was found, however many are visible, and leaves
    the page without a stamp. *)
Theorem elements_overflow spreadThrows animatedHref selector p root :
  scanRoot selector (deepClearStamps (document p)) = Some root →
  spreadThrows (querySelectorAll root interactiveSelectors) = true →
  (∀ c x, (c, x) ∈ descendants root → shadowRoot x = None) →
  cmdElements spreadThrows animatedHref selector p
  = (ElementsText noElements,
     {| document := deepClearStamps (document p); bjsDeepQuery := true |}).
Proof.
  intros Hroot Hrefused Hnone.
  unfold cmdElements, Guarded.ELEMENTS_JS. rewrite Hroot.
  unfold Guarded.deepQueryAll. rewrite (shadowHosts_nothing _ _ _ Hnone).
  unfold Guarded.tryPush. rewrite Hrefused. reflexivity.
Qed.

Lemma elements_overflow_witness :
  length (querySelectorAll (Fragment (document modalPage)) interactiveSelectors)
  = 3%nat
  ∧ cmdElements (Guarded.takesAtMost 2) Guarded.noAnimated None modalPage
    = (ElementsText noElements,
       {| document := deepClearStamps (document modalPage); bjsDeepQuery := true |}).
Proof.
  split; [by vm_compute|].
  apply (elements_overflow (Guarded.takesAtMost 2) Guarded.noAnimated None modalPage
           (Fragment (deepClearStamps (document modalPage)))).
  - reflexivity.
  - vm_compute. reflexivity.
  - intros c x Hx.
    assert (Forall (λ cx, shadowRoot (snd cx) = None)
              (descendants (Fragment (deepClearStamps (document modalPage)))))
      as Hall by (vm_compute; repeat constructor).
    rewrite list.Forall_forall in Hall. apply (Hall (c, x) Hx).
Defined.

(** X20.  A visible SVG link stops the scan.  When the engine takes a
    call with as many arguments as there are matching elements under
    the root and one of the elements the scan is after is visible, is named [a] and has an [href] that is not a
    string, the script ends in an exception and the elements command
    fails instead of printing a list. *)
Theorem elements_svg_anchor_throws spreadThrows animatedHref selector p root ancs a :
  scanRoot selector (deepClearStamps (document p)) = Some root →
  Guarded.spreadsFit spreadThrows root interactiveSelectors →
  below (baseOf root) (kidsOf root) ancs a →
  matches interactiveSelectors ancs (props a) = true →
  skipped a = false →
  tagOf (props a) = lit "a" →
  animatedHref (props a) = true →
  fst (Guarded.ELEMENTS_JS spreadThrows animatedHref selector p) = Guarded.Exception
  ∧ fst (cmdElements spreadThrows animatedHref selector p) = ElementsThrows.
Proof.
  intros Hroot Hfit Hbelow Hmatch Hs Htag Hobj.
  assert (fst (Guarded.ELEMENTS_JS spreadThrows animatedHref selector p)
          = Guarded.Exception) as Hthrows.
  { unfold Guarded.ELEMENTS_JS.
    rewrite Hroot, (deepQueryAllG_agrees _ _ _ Hfit).
    edestruct (scanLoopG_throws animatedHref) as [doc ->]; [|done..|done].
    apply sorted_elem_2. by apply (deepQueryAll_complete _ _ ancs). }
  split; [exact Hthrows|]. unfold cmdElements.
  destruct (Guarded.ELEMENTS_JS spreadThrows animatedHref selector p) as [r q].
  cbn [fst] in *. by subst r.
Qed.

Lemma elements_svg_anchor_throws_witness :
  fst (Guarded.ELEMENTS_JS Guarded.neverThrows Guarded.svgAnchors None Guarded.svgPage)
  = Guarded.Exception
  ∧ fst (cmdElements Guarded.neverThrows Guarded.svgAnchors None Guarded.svgPage)
    = ElementsThrows.
Proof.
  apply (elements_svg_anchor_throws Guarded.neverThrows Guarded.svgAnchors None
           Guarded.svgPage
           (Fragment (deepClearStamps (document Guarded.svgPage)))
           [element 0 "BODY" []] Guarded.svgLink).
  - reflexivity.
  - intros l _. reflexivity.
  - apply walk_below. apply (list_elem_of_lookup_2 _ 2%nat). vm_compute. reflexivity.
  - vm_compute. reflexivity.
  - vm_compute. reflexivity.
  - vm_compute. reflexivity.
  - vm_compute. reflexivity.
Defined.

(** ** The protocol session *)

Section SessionFacts.

Lemma sound_connect : sound [] connect.
Proof.
  split; cbn [connect next written pending settled length].
  - done.
  - intros k id method Hk. by rewrite lookup_nil in Hk.
  - intros id k Hk. by rewrite lookup_empty in Hk.
  - constructor.
  - intros k o Hk. by apply elem_of_nil in Hk.
  - intros k Hk. lia.
Qed.

Lemma sound_later evs ev c : sound evs c → sound (evs ++ [ev]) c.
Proof.
  intros [H1 H2 H3 H4 H5 H6]. split; try done.
  intros k o Hk. destruct (H5 k o Hk) as (Hlt & Hnone & msg & Hmsg & Hid).
  split; [done|]. split; [done|]. exists msg. split; [|done].
  apply elem_of_app. by left.
Qed.

Lemma sound_send evs method c :
  sound evs c → sound (evs ++ [Sends method]) (sendRequest method c).
Proof.
  intros Hc. pose proof (sound_later _ (Sends method) _ Hc)
    as [H1 H2 H3 H4 H5 H6].
  unfold sendRequest. split; cbn [next written pending settled].
  - rewrite length_app. simpl. lia.
  - intros k id m Hk. apply lookup_app_Some in Hk as [Hk | [Hge Hk]].
    + by apply (H2 k id m).
    + apply list_lookup_singleton_Some in Hk as [Hk [= <- <-]]. lia.
  - intros id k Hk. rewrite length_app. simpl.
    apply lookup_insert_Some in Hk as [[<- <-] | [Hne Hk]].
    + split; lia.
    + apply H3 in Hk. lia.
  - done.
  - intros k o Hk. destruct (H5 k o Hk) as (Hlt & Hnone & Hmsg).
    rewrite length_app. simpl. split; [lia|]. split; [|done].
    rewrite lookup_insert_ne by lia. done.
  - intros k Hk. rewrite length_app in Hk. simpl in Hk.
    destruct (decide (k = length (written c))) as [-> | Hne].
    + right. rewrite <- H1. apply lookup_insert_eq.
    + destruct (H6 k) as [Hs | Hp]; [lia | by left | right].
      rewrite lookup_insert_ne by lia. done.
Qed.

Lemma sound_message evs msg c :
  sound evs c → sound (evs ++ [Receives msg]) (onMessage msg c).
Proof.
  intros Hc. pose proof (sound_later _ (Receives msg) _ Hc) as Hlater.
  unfold onMessage. destruct (m_id msg) as [id|] eqn:Hid; [|done].
  destruct (negb (id =? 0)%nat); [|done].
  destruct (pending c !! id) as [k|] eqn:Hk; [|done].
  destruct Hc as [H1 H2 H3 H4 H5 H6].
  destruct (H3 _ _ Hk) as [-> Hlt].
  assert (k ∉ (settled c).*1) as Hfresh.
  { intros [[k' o] [Heq Hin]]%list_elem_of_fmap. simpl in Heq. subst k'.
    destruct (H5 k o Hin) as (_ & Hnone & _). congruence. }
  split; cbn [next written pending settled].
  - done.
  - done.
  - intros id k' Hk'. apply lookup_delete_Some in Hk' as [_ Hk']. by apply H3.
  - rewrite fmap_app. apply list.NoDup_app. split; [done|]. split.
    + intros x Hx Hin. apply list_elem_of_singleton in Hin. simpl in Hin.
      by subst x.
    + apply NoDup_singleton.
  - intros k' o [Hin | Hin]%elem_of_app.
    + destruct (H5 k' o Hin) as (Hlt' & Hnone & msg' & Hmsg & Hrest).
      split; [done|]. split.
      * apply lookup_delete_None. by right.
      * exists msg'. split; [|done]. apply elem_of_app. by left.
    + apply list_elem_of_singleton in Hin. injection Hin as -> ->.
      split; [done|]. split; [apply lookup_delete_eq|].
      exists msg. split; [|done]. apply elem_of_app. right.
      apply list_elem_of_here.
  - intros k' Hk'. rewrite fmap_app.
    destruct (decide (k' = k)) as [-> | Hne].
    + left. apply elem_of_app. right. apply list_elem_of_here.
    + destruct (H6 k' Hk') as [Hs | Hp].
      * left. apply elem_of_app. by left.
      * right. rewrite lookup_delete_ne by lia. done.
Qed.

Lemma run_snoc evs ev : run (evs ++ [ev]) = step (run evs) ev.
Proof. unfold run. by rewrite foldl_app. Qed.

Lemma run_sound evs : sound evs (run evs).
Proof.
  induction evs as [|ev evs IH] using rev_ind; [apply sound_connect|].
  rewrite run_snoc. destruct ev as [method | msg]; cbn [step].
  - by apply sound_send.
  - by apply sound_message.
Qed.

End SessionFacts.

(** X14.  Requests and replies of a protocol session, whatever is sent
    and whatever arrives, in any order: the ids written to the socket
    count up from 1, so a request never takes the id of one that still
    waits; the callbacks waiting under an id are those of the request
    written with that id; a promise is settled at most once, and only by
    a message that bears the id of its request, with the error or the
    result of that message; and every request either still waits under
    its id or has been settled, none is dropped. *)
Theorem session_settles_once evs :
  let c := run evs in
  (∀ k id method, written c !! k = Some (id, method) → id = S k)
  ∧ (∀ id k, pending c !! id = Some k →
             ∃ method, written c !! k = Some (id, method))
  ∧ NoDup ((settled c).*1)
  ∧ (∀ k o, (k, o) ∈ settled c →
            ∃ msg, Receives msg ∈ evs ∧ m_id msg = Some (S k)
                   ∧ o = outcomeOf msg ∧ pending c !! S k = None)
  ∧ (∀ k, (k < length (written c))%nat →
          k ∈ (settled c).*1 ∨ pending c !! S k = Some k).
Proof.
  cbv zeta. destruct (run_sound evs) as [H1 H2 H3 H4 H5 H6].
  split; [done|]. split; [|split; [done|split; [|done]]].
  - intros id k Hk. destruct (H3 _ _ Hk) as [-> Hlt].
    destruct (lookup_lt_is_Some_2 _ _ Hlt) as [[id method] Hw].
    rewrite Hw. rewrite (H2 _ _ _ Hw). by exists method.
  - intros k o Hk. destruct (H5 k o Hk) as (_ & Hnone & msg & Hmsg & Hid & Ho).
    by exists msg.
Qed.

(** ** Tabs *)

Lemma pagesOf_elem targets t :
  t ∈ pagesOf targets ↔ t ∈ targets ∧ target_type t = lit "page".
Proof.
  unfold pagesOf. rewrite !list_elem_of_In, filter_In. unfold streq.
  by rewrite bool_decide_eq_true.
Qed.

Lemma getTargetByIndex_in_range beyond targets z :
  (0 ≤ z < Z.of_nat (length (pagesOf targets)))%Z →
  getTargetByIndex beyond (Integer z) targets
  = Returns (pagesOf targets !! Z.to_nat z).
Proof.
  intros [Hlo Hhi]. unfold getTargetByIndex.
  rewrite (proj2 (Z.ltb_ge _ _) Hlo).
  by rewrite (proj2 (Z.leb_gt _ _) Hhi).
Qed.

(** X15.  The indices of the tab commands: an integer index resolves to
    a tab exactly when it is the position of a target of type page among
    the targets of that type, the position under which the tabs command
    lists it; targets of other types have no index; an integer never
    resolves to an undefined tab, it resolves or is refused as out of
    range, with its decimal digits in the message as long as it is at
    most 2^53 in absolute value; an infinite index is refused; and the
    current tab of every page command is the tab of index 0. *)
Theorem tab_indices beyond targets z :
  (∀ t, getTargetByIndex beyond (Integer z) targets = Returns (Some t)
        ↔ (0 ≤ z)%Z ∧ pagesOf targets !! Z.to_nat z = Some t)
  ∧ getTargetByIndex beyond (Integer z) targets ≠ Returns None
  ∧ ((z < 0)%Z ∨ (Z.of_nat (length (pagesOf targets)) ≤ z)%Z →
     getTargetByIndex beyond (Integer z) targets
     = Throws (lit "Tab index " ++ numberToString beyond z ++ lit " out of range (0-"
                 ++ ofZ (Z.of_nat (length (pagesOf targets)) - 1) ++ lit ")"))
  ∧ ((Z.abs z ≤ 2 ^ 53)%Z → numberToString beyond z = ofZ z)
  ∧ (∀ negative,
       getTargetByIndex beyond (Infinite negative) targets
       = Throws (lit "Tab index "
                   ++ (if negative then lit "-Infinity" else lit "Infinity")
                   ++ lit " out of range (0-"
                   ++ ofZ (Z.of_nat (length (pagesOf targets)) - 1) ++ lit ")"))
  ∧ (∀ i t, pagesOf targets !! i = Some t →
            target_type t = lit "page" ∧ t ∈ targets
            ∧ cmdTabs targets = joinLines (imap tabLine (pagesOf targets))
            ∧ imap tabLine (pagesOf targets) !! i = Some (tabLine i t))
  ∧ (∀ t, getCurrentTarget targets = Returns t
          ↔ getTargetByIndex beyond (Integer 0) targets = Returns (Some t)).
Proof.
  split; [|split; [|split; [|split; [|split; [|split]]]]].
  - intros t. split.
    + unfold getTargetByIndex.
      destruct (z <? 0)%Z eqn:Hlo; [done|]. apply Z.ltb_ge in Hlo.
      destruct (Z.of_nat (length (pagesOf targets)) <=? z)%Z; [done|].
      cbn [orb]. by intros [= ->].
    + intros [Hlo Ht]. pose proof (lookup_lt_Some _ _ _ Ht) as Hlt.
      rewrite getTargetByIndex_in_range by lia. by rewrite Ht.
  - unfold getTargetByIndex.
    destruct (z <? 0)%Z eqn:Hlo; [done|]. apply Z.ltb_ge in Hlo.
    destruct (Z.of_nat (length (pagesOf targets)) <=? z)%Z eqn:Hhi; [done|].
    apply Z.leb_gt in Hhi. cbn [orb].
    destruct (lookup_lt_is_Some_2 (pagesOf targets) (Z.to_nat z)) as [t Ht]; [lia|].
    by rewrite Ht.
  - intros Hout. unfold getTargetByIndex.
    destruct Hout as [Hlo%Z.ltb_lt | Hhi%Z.leb_le]; [by rewrite Hlo|].
    rewrite Hhi. by rewrite orb_true_r.
  - intros Hsafe. unfold numberToString.
    by rewrite (proj2 (Z.leb_le _ _) Hsafe).
  - intros negative. reflexivity.
  - intros i t Ht.
    pose proof (list_elem_of_lookup_2 _ _ _ Ht) as [Hin Hty]%pagesOf_elem.
    split; [done|]. split; [done|]. split.
    + unfold cmdTabs. destruct (pagesOf targets); [by rewrite lookup_nil in Ht | done].
    + by rewrite list_lookup_imap, Ht.
  - intros t. unfold getCurrentTarget.
    destruct (pagesOf targets) as [|first rest] eqn:Hp.
    + unfold getTargetByIndex. rewrite Hp. simpl. split; intros [=].
    + rewrite getTargetByIndex_in_range by (rewrite Hp; simpl; lia).
      rewrite Hp. simpl. split; by intros [= ->].
Qed.

(** ** What a scan leaves as it was *)

Lemma sameButStamp_remove e : sameButStamp e (removeAttribute stampAttr e).
Proof.
  repeat split; try reflexivity. intros a Ha.
  unfold getAttribute, removeAttribute. cbn [attributes].
  by apply lookup_delete_ne.
Qed.

Lemma sameButStamp_restamp selector p e : sameButStamp e (restamp selector p e).
Proof.
  unfold restamp.
  destruct (scanRoot selector (deepClearStamps (document p)));
    [|apply sameButStamp_remove].
  destruct (stampFn_shape (indexed selector p) 0 (removeAttribute stampAttr e))
    as [-> | [v ->]]; [apply sameButStamp_remove|].
  repeat split; try reflexivity. intros a Ha.
  unfold getAttribute, setAttribute, removeAttribute. cbn [attributes].
  rewrite lookup_insert_ne by done. by apply lookup_delete_ne.
Qed.

Lemma readable_same e e' t :
  sameButStamp e e' → readable (Some e') t = readable (Some e) t.
Proof.
  intros (_ & Htag & _ & _ & _ & _ & _ & _ & _ & Hop & Hpos & _).
  unfold readable. by rewrite Htag, Hop, Hpos.
Qed.

Lemma textsOfChildren_same (f : Element → Element) parent parent' l :
  (∀ t, readable parent' t = readable parent t) →
  Forall (onChild (λ k, textsOf (mapNode f k) = textsOf k)) l →
  flat_map (textsOfChild parent') (List.map (mapChild f) l)
  = flat_map (textsOfChild parent) l.
Proof.
  intros Hr. induction 1 as [|c l Hc _ IH]; [done|].
  cbn [List.map flat_map]. rewrite IH. f_equal.
  destruct c as [t|k]; cbn [mapChild textsOfChild]; [by rewrite Hr | apply Hc].
Qed.

Lemma textsOf_same (f : Element → Element) n :
  (∀ e, sameButStamp e (f e)) → textsOf (mapNode f n) = textsOf n.
Proof.
  intros Hf. induction n as [e kids sh IHkids IHsh] using Node_ind.
  change (mapNode f (Elem e kids sh))
    with (Elem (f e) (List.map (mapChild f) kids)
               (match sh with
                | Some s => Some (List.map (mapChild f) s)
                | None => None
                end)).
  rewrite !textsOf_unfold. f_equal.
  - destruct sh as [s|]; [|done]. by apply textsOfChildren_same.
  - apply textsOfChildren_same; [|done]. intros t. by apply readable_same.
Qed.

(** X16.  A scan changes nothing on the page but [data-bjs-idx]
    attributes: the page it leaves is the old one, node for node, every
    element with its identity, tag, properties and other attributes, and
    every text node; so the text command reads the same from a node
    before and after a scan. *)
Theorem scan_only_touches_stamps selector p :
  document (scannedPage selector p)
  = List.map (mapChild (restamp selector p)) (document p)
  ∧ (∀ e, sameButStamp e (restamp selector p e))
  ∧ (∀ n, textContent (mapNode (restamp selector p) n) = textContent n)
  ∧ (∀ n st, extractText (mapNode (restamp selector p) n) st = extractText n st).
Proof.
  split; [|split; [|split]].
  - unfold restamp.
    destruct (scanRoot selector (deepClearStamps (document p))) as [root|] eqn:Hroot.
    + rewrite (scannedPage_document _ _ _ Hroot). cbn [document].
      rewrite stampAll_map. unfold deepClearStamps.
      rewrite mapDocument_compose. by apply mapDocument_ext.
    + unfold scannedPage, ELEMENTS_JS. by rewrite Hroot.
  - apply sameButStamp_restamp.
  - intros n. apply textContent_mapNode.
  - intros n st. rewrite !extractText_collect. f_equal.
    apply textsOf_same, sameButStamp_restamp.
Qed.

(** ** Typing after a scan *)

Section TypeAfterScan.

Variable getBoundingClientRect : Page → Node → Rect.
Variable react : Command → Page → Page.
Variable dispatchEvent : jsstr → Node → Page → Page.
Variable insertTextRejected : Page → jsstr → bool.

Local Abbreviation type :=
  (cmdType getBoundingClientRect react dispatchEvent insertTextRejected).

(** X17.  Typing at an index of the list just printed needs no second
    scan and is judged on the listed element: when that element is no
    input, textarea, textbox or editable content the command refuses
    with its tag and sends nothing but the two look-up scripts;
    otherwise it presses and releases on that element, clears it,
    inserts the text, and confirms with its tag. *)
Theorem type_after_scan selector p root i a text before :
  uniqueIds (document p) →
  scanRoot selector (deepClearStamps (document p)) = Some root →
  indexed selector p !! i = Some a →
  truthy text = true →
  let q := scannedPage selector p in
  let s := {| page := q; sent := before |} in
  let el := mapNode (stampFn 0 (indexed selector p)) a in
  let x := centerX (getBoundingClientRect q el) in
  let y := centerY (getBoundingClientRect q el) in
  if typeable a
  then ∃ rest,
      fst (type (Some i) text s)
      = lit "Typed into [" ++ ofNat i ++ lit "] ("
          ++ toLowerCase (tagName (props a))
          ++ (if isContentEditable (props a) then lit ", contenteditable" else [])
          ++ lit ")"
      ∧ sent (snd (type (Some i) text s))
        = before ++ [RuntimeEvaluate HasStamps;
                     RuntimeEvaluate (TypeInfo i);
                     InputDispatchMouseEvent mousePressed x y;
                     InputDispatchMouseEvent mouseReleased x y]
            ++ clearing i (isContentEditable (props a))
            ++ InputInsertText text :: rest
  else type (Some i) text s
       = (lit "Element [" ++ ofNat i ++ lit "] is a "
            ++ toLowerCase (tagName (props a))
            ++ lit ", not a text input. Run elements to re-index.",
          {| page := q;
             sent := before ++ [RuntimeEvaluate HasStamps;
                                RuntimeEvaluate (TypeInfo i)] |}).
Proof.
  intros Hu Hroot Hi Htext. cbv zeta.
  set (s := {| page := scannedPage selector p; sent := before |}).
  set (el := mapNode (stampFn 0 (indexed selector p)) a).
  destruct (indexed_first _ _ _ _ Hi) as [a0 Ha0].
  pose proof (hasStamps_scanned _ _ _ _ Hu Hroot Ha0) as Hst.
  assert (snd (ensureIndexed s) = probed s) as Hprobe.
  { rewrite ensureIndexed_eq. unfold s at 1. cbn [page]. by rewrite Hst. }
  assert (lookupIndex (page (snd (ensureIndexed s))) i = Some el) as Hel.
  { rewrite Hprobe. unfold probed, s. cbn [page].
    by rewrite (lookupIndex_scanned _ _ _ i Hu Hroot), Hi. }
  assert (typeable el = typeable a) as Hty
    by apply typeable_shape, stampFn_shape.
  destruct (fields_shape _ (stampFn_shape (indexed selector p) 0) (props a))
    as (_ & Htag & _ & _ & _ & _ & _ & _ & Hce & _).
  assert (props el = stampFn 0 (indexed selector p) (props a)) as Hprops
    by apply props_mapNode.
  destruct (typeable a) eqn:Ha.
  - destruct (cmdType_proceeds getBoundingClientRect react dispatchEvent
                insertTextRejected i text s el Htext Hel Hty)
      as (rest & Hmsg & Hsent).
    exists rest. rewrite Hmsg, Hsent, Hprobe, Hprops, Htag, Hce.
    split; [done|]. unfold probed, s. cbn [page sent].
    by rewrite <- !app_assoc.
  - rewrite (cmdType_rejected getBoundingClientRect react dispatchEvent
               insertTextRejected i text s el Htext Hel Hty).
    rewrite Hprobe, Hprops, Htag. unfold probed, s. cbn [page sent].
    by rewrite <- app_assoc.
Qed.

End TypeAfterScan.

Lemma type_after_scan_witness :
  typeIn (scannedPage None modalPage) 1 "hi"
  = (lit "Element [1] is a button, not a text input. Run elements to re-index.",
     {| page := scannedPage None modalPage;
        sent := [RuntimeEvaluate HasStamps; RuntimeEvaluate (TypeInfo 1)] |}).
Proof.
  exact (type_after_scan stillLayout inert noHandlers insertTextAccepted
           None modalPage (Fragment (deepClearStamps (document modalPage)))
           1 pageSave (lit "hi") [] uniqueIds_modalPage eq_refl eq_refl eq_refl).
Defined.

(** ** When a command scans on its own *)

Lemma is_Some_head {A} (l : list A) : is_Some (head l) ↔ ∃ x, x ∈ l.
Proof.
  destruct l as [|x l]; simpl.
  - split; [by intros [? ?] | by intros [? ?%elem_of_nil]].
  - split; [intros _; exists x; apply list_elem_of_here | by eexists].
Qed.

Lemma matches_any ancs e :
  matches [([HasAttr stampAttr], [])] ancs e
  = bool_decide (is_Some (getAttribute e stampAttr)).
Proof.
  unfold matches, matchComplex. simpl. by rewrite !andb_true_r, orb_false_r.
Qed.

Lemma matches_idx idx ancs e :
  matches (stampSelector idx) ancs e
  = bool_decide (getAttribute e stampAttr = Some (ofNat idx)).
Proof.
  unfold matches, matchComplex, stampSelector. simpl.
  by rewrite !andb_true_r, orb_false_r.
Qed.

(** X18.  When a command scans on its own.  [ensureIndexed] leaves the
    page alone exactly when an element of the document's own tree
    carries a stamp, whatever its value, or the deep look-up is
    installed and some element, in the document or in a shadow tree at
    any depth, carries the stamp 0.  Stamps other than 0 that live only
    in shadow trees do not keep it from scanning again. *)
Theorem probe_characterised s :
  fst (ensureIndexed s) = false
  ↔ (∃ ancs n, (ancs, n) ∈ descendants (Fragment (document (page s)))
               ∧ is_Some (getAttribute (props n) stampAttr))
    ∨ (bjsDeepQuery (page s) = true
       ∧ ∃ ancs n, below [] (document (page s)) ancs n
                   ∧ getAttribute (props n) stampAttr = Some (ofNat 0)).
Proof.
  rewrite ensureIndexed_eq.
  assert (is_Some (querySelector (Fragment (document (page s)))
                     [([HasAttr stampAttr], [])])
          ↔ ∃ ancs n, (ancs, n) ∈ descendants (Fragment (document (page s)))
                      ∧ is_Some (getAttribute (props n) stampAttr)) as Hlight.
  { unfold querySelector, querySelectorAll, querySelectorAllCtx.
    rewrite is_Some_head. split.
    - intros [n [[ancs m] [-> Hin]]%list_elem_of_fmap].
      apply list_elem_of_In, filter_In in Hin as [Hin Hsel].
      unfold selects in Hsel. rewrite matches_any in Hsel.
      apply bool_decide_eq_true in Hsel. exists ancs, m.
      split; [by apply list_elem_of_In | done].
    - intros (ancs & n & Hin & Hst). exists n.
      apply list_elem_of_fmap. exists (ancs, n). split; [done|].
      apply list_elem_of_In, filter_In. split; [by apply list_elem_of_In|].
      unfold selects. rewrite matches_any. by apply bool_decide_eq_true. }
  assert (is_Some (deepQueryStamp (Fragment (document (page s))) 0)
          ↔ ∃ ancs n, below [] (document (page s)) ancs n
                      ∧ getAttribute (props n) stampAttr = Some (ofNat 0)) as Hdeep.
  { rewrite deepQueryStamp_head, is_Some_head. split.
    - intros [n (ancs & Hb & Hsel)%deepQueryAll_in]. exists ancs, n.
      rewrite matches_idx in Hsel. by apply bool_decide_eq_true in Hsel.
    - intros (ancs & n & Hb & Hst). exists n. apply deepQueryAll_in.
      exists ancs. split; [done|]. rewrite matches_idx.
      by apply bool_decide_eq_true. }
  rewrite <- Hlight, <- Hdeep.
  assert (hasStamps (page s) = true
          ↔ is_Some (querySelector (Fragment (document (page s)))
                       [([HasAttr stampAttr], [])])
            ∨ (bjsDeepQuery (page s) = true
               ∧ is_Some (deepQueryStamp (Fragment (document (page s))) 0)))
    as Hprobe.
  { unfold hasStamps.
    by rewrite orb_true_iff, andb_true_iff, !bool_decide_eq_true. }
  rewrite <- Hprobe. by destruct (hasStamps (page s)).
Qed.
